(** * Lussac numeric core ([lussac/utils/misc.py]): embedding and properties

    The numba kernels of [misc.py] work on [int64] spike trains and on
    floating-point windows.  Spike times are integers ([Z], with the
    [int64] wrap-around of the subtraction written out), loop counters
    are integers, and every floating-point quantity is read as the exact
    number it denotes: a window or a probability is a rational ([Q],
    computable), and the quantities that go through [math.sqrt], [exp]
    or [pi] are reals ([R]).  Rounding of the individual floating-point
    operations is not part of this model.

    Python exceptions are values of [result]. *)

From Stdlib Require Import ZArith QArith Qround Qabs List Lia Bool.
From Stdlib Require Import Sorting.Sorted Sorting.Permutation.
From Stdlib Require Import Reals Lra Qreals Psatz.
Import ListNotations.

Open Scope Z_scope.

(* ================================================================= *)
(** ** Exceptions *)

Inductive exn : Type :=
| ZeroDivisionError
| ValueError
| IndexError
| AssertionError.

Inductive result (A : Type) : Type :=
| Ok (a : A)
| Raise (e : exn).

Arguments Ok {A} a.
Arguments Raise {A} e.

Definition bind {A B : Type} (r : result A) (k : A -> result B) : result B :=
  match r with
  | Ok a => k a
  | Raise e => Raise e
  end.

Notation "x <- r ;; k" := (bind r (fun x => k))
  (at level 61, r at next level, right associativity).

(* ================================================================= *)
(** ** [int64] arithmetic of the numba kernels *)

Definition int64_wrap (z : Z) : Z := (z + 2 ^ 63) mod 2 ^ 64 - 2 ^ 63.

Definition int64_sub (a b : Z) : Z := int64_wrap (a - b).

Definition int32_wrap (z : Z) : Z := (z + 2 ^ 31) mod 2 ^ 32 - 2 ^ 31.

Definition int64_abs (a : Z) : Z := int64_wrap (Z.abs a).

(** [ndarray.astype(np.int64)] *)
Definition astype_int64 (a : list Z) : list Z := map int64_wrap a.

(** A spike time as the sorting provider hands it over: a non-negative
    sample index that fits [int64]. *)
Definition sample_index (z : Z) : Prop := 0 <= z < 2 ^ 63.

(* ================================================================= *)
(** ** Loop counters

    The three integer counters that both sweeps keep
    ([n_violations], [n_violations_low], [n_violations_high], and the
    [n_coincident] ones). *)

Record tally : Type := mk_tally { n_plain : Z; n_low : Z; n_high : Z }.

Definition tally0 : tally := mk_tally 0 0 0.

Definition incr_plain (c : tally) : tally :=
  mk_tally (n_plain c + 1) (n_low c) (n_high c).

Definition incr_low (c : tally) : tally :=
  mk_tally (n_plain c) (n_low c + 1) (n_high c).

Definition incr_high (c : tally) : tally :=
  mk_tally (n_plain c) (n_low c) (n_high c + 1).

Definition tally_add (c d : tally) : tally :=
  mk_tally (n_plain c + n_plain d) (n_low c + n_low d) (n_high c + n_high d).

Definition tally_sum (l : list tally) : tally := fold_right tally_add tally0 l.

(** The returned expression
    [n + p_high*n_high + p_low*n_low]. *)
Definition weighted (p_low p_high : Q) (c : tally) : Q :=
  (inject_Z (n_plain c) + p_high * inject_Z (n_high c)
   + p_low * inject_Z (n_low c))%Q.

(* ================================================================= *)
(** ** [_get_border_probabilities]

    The two borders are the integers that [math.floor] and [math.ceil]
    denote. *)

Definition _get_border_probabilities (max_time : Q) : Z * Z * Q * Q :=
  let border_high := Qceiling max_time in
  let border_low := Qfloor max_time in
  let p_high := ((1 # 2) * (max_time - inject_Z border_high + 1) ^ 2)%Q in
  let p_low := ((1 # 2) * (1 - (max_time - inject_Z border_low) ^ 2)
                + (max_time - inject_Z border_low))%Q in
  let p_low := if border_low =? 0
               then (p_low - (1 # 2) * (- max_time + 1) ^ 2)%Q
               else p_low in
  (border_low, border_high, p_low, p_high).

(* ================================================================= *)
(** ** [compute_nb_violations] *)

(** [range(a, b)] *)
Definition range (a b : nat) : list nat := seq a (b - a).

(** The inner [for j in range(i+1, len(spike_train))] loop; [js] is what
    is left of the range.  Returning the counters unchanged is the
    [break]. *)
Fixpoint violations_row (spike_train : list Z) (border_low border_high : Z)
    (i : nat) (js : list nat) (c : tally) : tally :=
  match js with
  | [] => c
  | j :: js' =>
      let diff := int64_sub (nth j spike_train 0) (nth i spike_train 0) in
      if diff >? border_high then c
      else if diff =? border_high
      then violations_row spike_train border_low border_high i js' (incr_high c)
      else if diff =? border_low
      then violations_row spike_train border_low border_high i js' (incr_low c)
      else violations_row spike_train border_low border_high i js' (incr_plain c)
  end.

(** The outer [for i in range(len(spike_train)-1)] loop. *)
Definition violations_sweep (spike_train : list Z)
    (border_low border_high : Z) : tally :=
  fold_left
    (fun c i =>
       violations_row spike_train border_low border_high i
         (range (i + 1) (length spike_train)) c)
    (range 0 (length spike_train - 1)) tally0.

Definition compute_nb_violations (spike_train : list Z) (max_time : Q) : Q :=
  if Qle_bool max_time 0 then 0%Q
  else
    let '(border_low, border_high, p_low, p_high) :=
      _get_border_probabilities max_time in
    weighted p_low p_high (violations_sweep spike_train border_low border_high).

(* ================================================================= *)
(** ** [compute_nb_coincidence] *)

(** The inner [for j in range(start_j, len(spike_train2))] loop.  The
    range is fixed when the loop is entered, [start_j] is updated while
    it runs. *)
Fixpoint coincidence_row (spike_train1 spike_train2 : list Z)
    (border_low border_high : Z) (i : nat) (js : list nat)
    (start_j : nat) (c : tally) : nat * tally :=
  match js with
  | [] => (start_j, c)
  | j :: js' =>
      let diff := int64_sub (nth i spike_train1 0) (nth j spike_train2 0) in
      if diff >? border_high
      then coincidence_row spike_train1 spike_train2 border_low border_high
             i js' (S start_j) c
      else if diff <? - border_high then (start_j, c)
      else if int64_abs diff =? border_high
      then coincidence_row spike_train1 spike_train2 border_low border_high
             i js' start_j (incr_high c)
      else if int64_abs diff =? border_low
      then coincidence_row spike_train1 spike_train2 border_low border_high
             i js' start_j (incr_low c)
      else coincidence_row spike_train1 spike_train2 border_low border_high
             i js' start_j (incr_plain c)
  end.

Definition coincidence_sweep (spike_train1 spike_train2 : list Z)
    (border_low border_high : Z) : nat * tally :=
  fold_left
    (fun (s : nat * tally) i =>
       coincidence_row spike_train1 spike_train2 border_low border_high i
         (range (fst s) (length spike_train2)) (fst s) (snd s))
    (range 0 (length spike_train1)) (0%nat, tally0).

Definition compute_nb_coincidence (spike_train1 spike_train2 : list Z)
    (max_time : Q) : Q :=
  if Qle_bool max_time 0 then 0%Q
  else
    let '(border_low, border_high, p_low, p_high) :=
      _get_border_probabilities max_time in
    weighted p_low p_high
      (snd (coincidence_sweep spike_train1 spike_train2 border_low border_high)).

Arguments compute_nb_violations spike_train max_time%_Q.
Arguments compute_nb_coincidence spike_train1 spike_train2 max_time%_Q.

(* ================================================================= *)
(** ** [compute_coincidence_matrix]

    An integer matrix is the list of its rows.  numba checks no bounds:
    an index outside the matrix is outside this model (the update does
    nothing there); a negative index counts from the end. *)

Definition np_zeros (n_rows n_cols : nat) : list (list Z) :=
  repeat (repeat 0 n_cols) n_rows.

Definition np_index (n : nat) (i : Z) : nat :=
  Z.to_nat (if i <? 0 then i + Z.of_nat n else i).

Fixpoint row_incr (row : list Z) (j : nat) : list Z :=
  match row with
  | [] => []
  | x :: row' =>
      match j with
      | O => (x + 1) :: row'
      | S j' => x :: row_incr row' j'
      end
  end.

(** [matrix[i, j] += 1] *)
Fixpoint matrix_incr (m : list (list Z)) (i j : nat) : list (list Z) :=
  match m with
  | [] => []
  | row :: m' =>
      match i with
      | O => row_incr row j :: m'
      | S i' => row :: matrix_incr m' i' j
      end
  end.

Definition matrix_get (m : list (list Z)) (i j : nat) : Z :=
  nth j (nth i m []) 0.

(** [np.max] of an integer array; an empty array has none. *)
Definition np_max_int (a : list Z) : result Z :=
  match a with
  | [] => Raise ValueError
  | x :: a' => Ok (fold_left Z.max a' x)
  end.

(** The inner [for j in range(start_j, len(spike_times2))] loop. *)
Fixpoint matrix_row (spike_times1 spike_labels1 spike_times2 spike_labels2 : list Z)
    (max_time : Z) (n_units1 n_units2 : nat) (i : nat) (js : list nat)
    (start_j : nat) (coincidence_matrix : list (list Z))
  : nat * list (list Z) :=
  match js with
  | [] => (start_j, coincidence_matrix)
  | j :: js' =>
      let diff := int64_sub (nth i spike_times1 0) (nth j spike_times2 0) in
      if diff >? max_time
      then matrix_row spike_times1 spike_labels1 spike_times2 spike_labels2
             max_time n_units1 n_units2 i js' (S start_j) coincidence_matrix
      else if diff <? - max_time then (start_j, coincidence_matrix)
      else matrix_row spike_times1 spike_labels1 spike_times2 spike_labels2
             max_time n_units1 n_units2 i js' start_j
             (matrix_incr coincidence_matrix
                (np_index n_units1 (nth i spike_labels1 0))
                (np_index n_units2 (nth j spike_labels2 0)))
  end.

(** The kernel is compiled for an [int32] window: the integer it is
    given keeps its low 32 bits.  The opposite [-max_time] is computed on
    64 bits, as the difference of two sample indices is. *)
Definition compute_coincidence_matrix
    (spike_times1 spike_labels1 spike_times2 spike_labels2 : list Z)
    (max_time : Z) : result (list (list Z)) :=
  let max_time := int32_wrap max_time in
  m1 <- np_max_int spike_labels1 ;;
  m2 <- np_max_int spike_labels2 ;;
  let n_units1 := m1 + 1 in
  let n_units2 := m2 + 1 in
  if (n_units1 <? 0) || (n_units2 <? 0) then Raise ValueError
  else
    let coincidence_matrix :=
      np_zeros (Z.to_nat n_units1) (Z.to_nat n_units2) in
    Ok (snd (fold_left
               (fun (s : nat * list (list Z)) i =>
                  matrix_row spike_times1 spike_labels1 spike_times2
                    spike_labels2 max_time
                    (Z.to_nat n_units1) (Z.to_nat n_units2) i
                    (range (fst s) (length spike_times2)) (fst s) (snd s))
               (range 0 (length spike_times1))
               (0%nat, coincidence_matrix))).

(** A spike vector: one [(sample_ind, unit_ind)] entry per spike. *)
Definition compute_coincidence_matrix_from_vector
    (spike_vector1 spike_vector2 : list (Z * Z)) (window : Z)
  : result (list (list Z)) :=
  compute_coincidence_matrix
    (map fst spike_vector1) (map snd spike_vector1)
    (map fst spike_vector2) (map snd spike_vector2) window.

(* ================================================================= *)
(** ** Process-wide constants and Python scalar operations *)

(** The class [Utils] of [lussac/utils/variables.py], of which [misc.py]
    reads two attributes: the sampling frequency (Hz) and the number of
    samples of the recording. *)
Record Utils : Type := mk_Utils { sampling_frequency : Q; t_max : Z }.

(** [x / y] on Python floats. *)
Definition py_div (x y : Q) : result Q :=
  if Qeq_bool y 0 then Raise ZeroDivisionError else Ok (x / y)%Q.

Definition py_divR (x y : R) : result R :=
  if Req_dec_T y 0 then Raise ZeroDivisionError else Ok (x / y)%R.

(** [math.sqrt] *)
Definition math_sqrt (x : R) : result R :=
  if Rlt_dec x 0 then Raise ValueError else Ok (sqrt x).

(** A refractory period in milliseconds, as a number of samples:
    [ms * 1e-3 * Utils.sampling_frequency]. *)
Definition ms_to_samples (U : Utils) (ms : Q) : Q :=
  (ms * (1 # 1000) * sampling_frequency U)%Q.

(* ================================================================= *)
(** ** [estimate_contamination] *)

Definition estimate_contamination (U : Utils) (spike_train : list Z)
    (refractory_period : Q * Q) : result R :=
  let t_c := ms_to_samples U (fst refractory_period) in
  let t_r := ms_to_samples U (snd refractory_period) in
  let n_v := compute_nb_violations (astype_int64 spike_train) t_r in
  let N := inject_Z (Z.of_nat (length spike_train)) in
  let T := inject_Z (t_max U) in
  q <- py_div (n_v * (T - 2 * N * t_c))%Q (N ^ 2 * (t_r - t_c))%Q ;;
  let D := (1 - q)%Q in
  if Qlt_le_dec D 0 then Ok 1%R
  else s <- math_sqrt (Q2R D) ;; Ok (1 - s)%R.

(* ================================================================= *)
(** ** [estimate_cross_contamination] *)

(** The first component of the returned pair: a float or [-np.inf]. *)
Inductive estimate : Type :=
| Finite (x : R)
| NegInf.

Section CrossContamination.

Variable U : Utils.

(** [scipy.stats.binom.cdf(k, n, p)] and
    [scipy.stats.norm.cdf(x, loc, scale)]. *)
Variable binom_cdf : R -> R -> R -> R.
Variable norm_cdf : R -> R -> R -> R.

Definition estimate_cross_contamination (spike_train1 spike_train2 : list Z)
    (refractory_period : Q * Q) (limit : Q) : result (estimate * R) :=
  let spike_train1 := astype_int64 spike_train1 in
  let spike_train2 := astype_int64 spike_train2 in
  let N1 := inject_Z (Z.of_nat (length spike_train1)) in
  let N2 := inject_Z (Z.of_nat (length spike_train2)) in
  C1 <- estimate_contamination U spike_train1 refractory_period ;;
  let t_c := ms_to_samples U (fst refractory_period) in
  let t_r := ms_to_samples U (snd refractory_period) in
  let n_violations :=
    (compute_nb_coincidence spike_train1 spike_train2 t_r
     - compute_nb_coincidence spike_train1 spike_train2 t_c)%Q in
  estimation <-
    (if Req_dec_T C1 1 then Ok NegInf
     else
       q <- py_div (n_violations * inject_Z (t_max U))%Q
                   (2 * N1 * N2 * t_r)%Q ;;
       r <- py_divR (Q2R q - 1)%R (C1 - 1)%R ;;
       Ok (Finite (1 - r)%R)) ;;
  let n := (Q2R N1 * Q2R N2 * ((1 - C1) * Q2R limit + C1))%R in
  p <- py_div (2 * t_r)%Q (inject_Z (t_max U)) ;;
  let p := Q2R p in
  if Rlt_dec (n * p) 30
  then Ok (estimation, (1 - binom_cdf (Q2R n_violations) n p)%R)
  else
    s <- math_sqrt (n * p * (1 - p))%R ;;
    Ok (estimation, (1 - norm_cdf (Q2R n_violations) (n * p) s)%R).

End CrossContamination.

(* ================================================================= *)
(** ** [compute_similarity_matrix] *)

(** A two-dimensional [ndarray]: its [shape] and its items.  An item of
    a float array is [None] when it is not a finite number ([inf] or
    [nan], which numpy's elementwise division gives for a zero
    divisor). *)
Record ndarray2 (A : Type) : Type :=
  mk_ndarray2 { shape : nat * nat; item : nat -> nat -> A }.

Arguments mk_ndarray2 {A} shape item.
Arguments shape {A} n.
Arguments item {A} n i j.

Definition np_divide (x y : option Q) : option Q :=
  match x, y with
  | Some a, Some b => if Qeq_bool b 0 then None else Some (a / b)%Q
  | _, _ => None
  end.

Definition np_minus (x y : option Q) : option Q :=
  match x, y with
  | Some a, Some b => Some (a - b)%Q
  | _, _ => None
  end.

Definition compute_similarity_matrix (U : Utils)
    (coincidence_matrix : ndarray2 Z) (n_spikes1 n_spikes2 : list Z)
    (window : Q) : result (ndarray2 (option Q)) :=
  if negb (Nat.eqb (fst (shape coincidence_matrix)) (length n_spikes1)
           && Nat.eqb (snd (shape coincidence_matrix)) (length n_spikes2))
  then Raise AssertionError
  else
    let minimum_n_spikes i j :=
      Some (inject_Z (Z.min (nth i n_spikes1 0) (nth j n_spikes2 0))) in
    let similarity_matrix i j :=
      np_divide (Some (inject_Z (item coincidence_matrix i j)))
                (minimum_n_spikes i j) in
    let expected_matrix i j :=
      let n1 := inject_Z (nth i n_spikes1 0) in
      let n2 := inject_Z (nth j n_spikes2 0) in
      np_divide
        (np_divide (Some (n1 * n2 * (2 * window + 1))%Q)
                   (Some (inject_Z (t_max U))))
        (minimum_n_spikes i j) in
    Ok (mk_ndarray2 (length n_spikes1, length n_spikes2)
          (fun i j =>
             np_divide (np_minus (similarity_matrix i j) (expected_matrix i j))
                       (np_minus (Some 1%Q) (expected_matrix i j)))).

(* ================================================================= *)
(** ** [gaussian_histogram] and [_gaussian_kernel]

    The [float32] casts of the events and of the time axis are the
    identity on the numbers they denote. *)

(** [np.sort] *)
Fixpoint sort_insert (x : R) (a : list R) : list R :=
  match a with
  | [] => [x]
  | y :: a' => if Rle_dec x y then x :: a else y :: sort_insert x a'
  end.

Definition np_sort (a : list R) : list R := fold_right sort_insert [] a.

(** [np.min] and [np.max]; an empty array has neither. *)
Definition np_min (a : list R) : result R :=
  match a with
  | [] => Raise ValueError
  | x :: a' => Ok (fold_left Rmin a' x)
  end.

Definition np_max (a : list R) : result R :=
  match a with
  | [] => Raise ValueError
  | x :: a' => Ok (fold_left Rmax a' x)
  end.

(** [a[0]] and [a[-1]] *)
Definition first_item (a : list R) : result R :=
  match a with
  | [] => Raise IndexError
  | x :: _ => Ok x
  end.

Definition last_item (a : list R) : result R :=
  match rev a with
  | [] => Raise IndexError
  | x :: _ => Ok x
  end.

(** [np.searchsorted(a, v, side)] on an ascending array: the number of
    leading items that are [<= v] ([side="right"]) or [< v]
    ([side="left"]). *)
Fixpoint searchsorted_right (a : list R) (v : R) : nat :=
  match a with
  | [] => O
  | x :: a' => if Rle_dec x v then S (searchsorted_right a' v) else O
  end.

Fixpoint searchsorted_left (a : list R) (v : R) : nat :=
  match a with
  | [] => O
  | x :: a' => if Rlt_dec x v then S (searchsorted_left a' v) else O
  end.

(** One term [np.exp(-0.5 * ((e - t) / sigma) ** 2)] of the compiled
    kernel, which raises nothing on a division by zero: with [sigma = 0]
    the quotient is [nan] for [e = t], and so is the term ([None]); for
    [e <> t] the quotient is infinite and the term is 0. *)
Definition kernel_exp (e t sigma : R) : option R :=
  if Req_dec_T sigma 0
  then (if Req_dec_T (e - t) 0 then None else Some 0%R)
  else Some (exp (- (1 / 2) * ((e - t) / sigma) ^ 2)).

(** [h + x] on items that are finite or [nan] ([None]). *)
Definition np_plusR (h x : option R) : option R :=
  match h, x with
  | Some a, Some b => Some (a + b)%R
  | _, _ => None
  end.

(** The inner [for e in events[start_j:]] loop of [_gaussian_kernel] at
    the axis point [t]; [h] is [histogram[i]]. *)
Fixpoint kernel_row (es : list R) (t sigma truncate : R)
    (start_j : nat) (h : option R) : nat * option R :=
  match es with
  | [] => (start_j, h)
  | e :: es' =>
      if Rlt_dec e (t - truncate * sigma)
      then kernel_row es' t sigma truncate (S start_j) h
      else if Rgt_dec e (t + truncate * sigma) then (start_j, h)
      else
        kernel_row es' t sigma truncate start_j
          (np_plusR h (kernel_exp e t sigma))
  end.

(** The outer loop over [range(len(t_axis))], run in index order with
    one counter [start_j], as a single thread runs it; [rest] is what
    is left of the range. *)
Fixpoint kernel_rows (events t_axis : list R) (sigma truncate : R)
    (rest : list nat) (start_j : nat) : list (option R) :=
  match rest with
  | [] => []
  | i :: rest' =>
      let row := kernel_row (skipn start_j events) (nth i t_axis 0%R)
                   sigma truncate start_j (Some 0%R) in
      snd row :: kernel_rows events t_axis sigma truncate rest' (fst row)
  end.

(** An item of a float array that numpy computes by an elementwise
    division: [None] is a non-finite item ([inf] or [nan]). *)
Definition np_divideR (x y : R) : option R :=
  if Req_dec_T y 0 then None else Some (x / y)%R.

(** The same on an item that may be [nan] already. *)
Definition np_divide_item (h : option R) (y : R) : option R :=
  match h with
  | Some x => np_divideR x y
  | None => None
  end.

Definition _gaussian_kernel (events t_axis : list R) (sigma truncate : R)
  : result (list (option R)) :=
  let histogram := kernel_rows events t_axis sigma truncate
                     (range 0 (length t_axis)) 0 in
  Ok (map (fun h => np_divide_item h (sigma * sqrt (2 * PI))%R) histogram).

(** The [prange] loop as several threads run it: the range is cut into
    blocks of consecutive indices, one per thread, and each thread runs
    its block with a counter [start_j] of its own, from 0.  [blocks] are
    the lengths of the blocks and [first] the first index of the first
    one; [kernel_rows] on the whole range is the run of one thread. *)
Fixpoint kernel_blocks (events t_axis : list R) (sigma truncate : R)
    (first : nat) (blocks : list nat) : list (option R) :=
  match blocks with
  | [] => []
  | n :: blocks' =>
      kernel_rows events t_axis sigma truncate (seq first n) 0
      ++ kernel_blocks events t_axis sigma truncate (first + n) blocks'
  end.

(** [_gaussian_kernel] run by [length blocks] threads. *)
Definition _gaussian_kernel_threads (blocks : list nat)
    (events t_axis : list R) (sigma truncate : R)
  : result (list (option R)) :=
  let histogram := kernel_blocks events t_axis sigma truncate 0 blocks in
  Ok (map (fun h => np_divide_item h (sigma * sqrt (2 * PI))%R) histogram).

Definition gaussian_histogram (events t_axis : list R) (sigma truncate : R)
    (margin_reflect : bool) : result (list (option R)) :=
  let events := np_sort events in
  events <-
    (if margin_reflect
     then
       lowest <- np_min events ;;
       t_first <- first_item t_axis ;;
       let events_low :=
         if Rge_dec lowest t_first
         then map (fun e => 2 * t_first - e)%R
                (rev (firstn (searchsorted_right events
                                (t_first + truncate * sigma)%R) events))
         else [] in
       highest <- np_max events ;;
       t_last <- last_item t_axis ;;
       let events_high :=
         if Rle_dec highest t_last
         then map (fun e => 2 * t_last - e)%R
                (rev (skipn (searchsorted_left events
                               (t_last - truncate * sigma)%R) events))
         else [] in
       Ok (events_low ++ events ++ events_high)
     else Ok events) ;;
  _gaussian_kernel events t_axis sigma truncate.

(* ================================================================= *)
(** ** [_create_fft_gaussian] *)

(** An item of the arrays of [_create_fft_gaussian]: a finite number, an
    infinity (of either sign) or [nan]. *)
Inductive npfloat : Type :=
| Num (x : R)
| Inf
| NaN.

(** Elementwise [a / y] by a Python float [y]. *)
Definition np_div_scalar (y : R) (a : npfloat) : npfloat :=
  match a with
  | Num x =>
      if Req_dec_T y 0
      then (if Req_dec_T x 0 then NaN else Inf)
      else Num (x / y)
  | Inf => Inf
  | NaN => NaN
  end.

(** Elementwise [a * y] by a positive Python float [y]. *)
Definition np_mul_scalar (y : R) (a : npfloat) : npfloat :=
  match a with
  | Num x => Num (x * y)
  | Inf => Inf
  | NaN => NaN
  end.

(** The density of the standard normal law. *)
Definition std_normal_pdf (x : R) : R := (exp (- (x ^ 2) / 2) / sqrt (2 * PI))%R.

(** [scipy.stats.norm.pdf] on one item. *)
Definition norm_pdf (a : npfloat) : npfloat :=
  match a with
  | Num x => Num (std_normal_pdf x)
  | Inf => Num 0
  | NaN => NaN
  end.

(** Python's [round] on a float: to the nearest integer, ties to the
    even one. *)
Definition py_round (x : R) : Z :=
  let f := Zfloor x in
  if Rlt_dec (x - IZR f) (1 / 2) then f
  else if Rlt_dec (1 / 2) (x - IZR f) then f + 1
  else if Z.even f then f else f + 1.

(** [np.arange(a, b)] on integers *)
Definition arange (a b : Z) : list Z :=
  map (fun k => a + Z.of_nat k) (seq 0 (Z.to_nat (b - a))).

Definition sum_R (l : list R) : R := fold_right Rplus 0%R l.

(** Real and imaginary part of the [k]-th coefficient of the discrete
    Fourier transform of the [n] items [x]. *)
Definition dft_re (x : list R) (n k : nat) : R :=
  sum_R (map (fun m => nth m x 0 * cos (2 * PI * INR m * INR k / INR n))%R
             (seq 0 n)).

Definition dft_im (x : list R) (n k : nat) : R :=
  sum_R (map (fun m => - (nth m x 0 * sin (2 * PI * INR m * INR k / INR n)))%R
             (seq 0 n)).

Definition dft_abs (x : list R) (n : nat) : list R :=
  map (fun k => sqrt ((dft_re x n k) ^ 2 + (dft_im x n k) ^ 2))%R (seq 0 n).

Definition finite_items (a : list npfloat) : option (list R) :=
  fold_right
    (fun x acc =>
       match x, acc with
       | Num r, Some l => Some (r :: l)
       | _, _ => None
       end)
    (Some []) a.

(** [np.abs(np.fft.fft(a, n=n))]: the input is cropped or padded with
    zeros to [n] items; an item that is not finite makes every
    coefficient [nan] (the items that reach it in
    [_create_fft_gaussian] are finite or [nan]). *)
Definition np_fft_abs (a : list npfloat) (n : nat) : result (list npfloat) :=
  if Nat.eqb n 0 then Raise ValueError
  else
    match finite_items (firstn n a) with
    | Some x => Ok (map Num (dft_abs x n))
    | None => Ok (repeat NaN n)
    end.

(** [np.fft.fftfreq(n, d)] *)
Definition np_fftfreq (n : nat) (d : R) : result (list R) :=
  val <- py_divR 1 (INR n * d) ;;
  let N := ((n - 1) / 2 + 1)%nat in
  Ok (map (fun k => IZR k * val)%R
        (arange 0 (Z.of_nat N) ++ arange (- Z.of_nat (n / 2)) 0)).

Definition _create_fft_gaussian (U : Utils) (N : nat) (cutoff_freq : R)
  : result (list npfloat) :=
  let fs := Q2R (sampling_frequency U) in
  if Rgt_dec cutoff_freq (fs / 8)
  then
    sigma <- py_divR fs (2 * PI * cutoff_freq) ;;
    let limit := py_round (6 * sigma) + 1 in
    let xaxis :=
      map (fun k => np_div_scalar sigma (Num (IZR k)))
          (arange (- limit) (limit + 1)) in
    let gaussian := map (fun x => np_div_scalar sigma (norm_pdf x)) xaxis in
    np_fft_abs gaussian N
  else
    d <- py_divR 1 fs ;;
    freq_axis <- np_fftfreq N d ;;
    Ok (map (fun x => np_mul_scalar (sqrt (2 * PI))
                        (norm_pdf (np_div_scalar cutoff_freq (Num x))))
            freq_axis).

(* ================================================================= *)
(** ** [filter] *)

(** The data of [filter] is read as a one-dimensional array of finite
    numbers, filtered along its only axis ([axis = -1], the default, or
    [axis = 0]); on an array of more dimensions the code does the same
    to every line along [axis].  A complex item is the pair of its real
    and imaginary parts; [None] is a complex item whose two parts are
    [nan]. *)

(** Elementwise operation on two one-dimensional arrays, with numpy's
    broadcasting of an array of one item. *)
Definition np_broadcast {A B C : Type} (f : A -> B -> C)
    (a : list A) (b : list B) : result (list C) :=
  match a, b with
  | [x], _ => Ok (map (f x) b)
  | _, [y] => Ok (map (fun x => f x y) a)
  | _, _ =>
      if Nat.eqb (length a) (length b)
      then Ok (map (fun p => f (fst p) (snd p)) (combine a b))
      else Raise ValueError
  end.

(** [a - b] on one item.  The sign of an infinity is not part of
    [npfloat]; the masks of [_create_fft_gaussian] hold none. *)
Definition np_sub (a b : npfloat) : npfloat :=
  match a, b with
  | Num x, Num y => Num (x - y)
  | Inf, Num _ => Inf
  | Num _, Inf => Inf
  | _, _ => NaN
  end.

(** [z * g] for a complex item [z] and an item [g] of a mask. *)
Definition np_mul_complex (z : R * R) (g : npfloat) : option (R * R) :=
  match g with
  | Num y => Some (fst z * y, snd z * y)%R
  | _ => None
  end.

(** [np.fft.fft] of a real array. *)
Definition np_fft (x : list R) : result (list (R * R)) :=
  let n := length x in
  if Nat.eqb n 0 then Raise ValueError
  else Ok (map (fun k => (dft_re x n k, dft_im x n k)) (seq 0 n)).

Definition finite_complex (a : list (option (R * R))) : option (list (R * R)) :=
  fold_right
    (fun x acc =>
       match x, acc with
       | Some z, Some l => Some (z :: l)
       | _, _ => None
       end)
    (Some []) a.

(** Real part of the [m]-th item of the inverse discrete Fourier
    transform of the [n] complex items [X]. *)
Definition idft_re (X : list (R * R)) (n m : nat) : R :=
  (sum_R (map (fun k =>
                 fst (nth k X (0, 0)) * cos (2 * PI * INR k * INR m / INR n)
                 - snd (nth k X (0, 0)) * sin (2 * PI * INR k * INR m / INR n))
              (seq 0 n))
   / INR n)%R.

(** [np.fft.ifft(a).real]; a [nan] item makes every item [nan]. *)
Definition np_ifft_real (a : list (option (R * R))) : result (list npfloat) :=
  let n := length a in
  if Nat.eqb n 0 then Raise ValueError
  else
    match finite_complex a with
    | Some X => Ok (map (fun m => Num (idft_re X n m)) (seq 0 n))
    | None => Ok (repeat NaN n)
    end.

Module misc.

Definition filter (U : Utils) (data : list R) (band : R * R)
  : result (list npfloat) :=
  let N := length data in
  data_fft <- np_fft data ;;
  gaussian_highpass <- _create_fft_gaussian U N (fst band) ;;
  gaussian_lowpass <- _create_fft_gaussian U N (snd band) ;;
  mask <- np_broadcast np_sub gaussian_lowpass gaussian_highpass ;;
  filtered_data_fft <- np_broadcast np_mul_complex data_fft mask ;;
  np_ifft_real filtered_data_fft.

End misc.

(* ================================================================= *)
(** ** The counts as the specification words them *)

(** The boundary weights of a window [t]. *)
Definition spec_p_high (t : Q) : Q :=
  ((1 # 2) * (t - inject_Z (Qceiling t) + 1) ^ 2)%Q.

Definition spec_p_low (t : Q) : Q :=
  ((1 # 2) * (1 - (t - inject_Z (Qfloor t)) ^ 2) + (t - inject_Z (Qfloor t))
   - (if Qfloor t =? 0 then (1 # 2) * (1 - t) ^ 2 else 0))%Q.

(** What one pair at distance [d] counts for: 1 below [floor t], [p_low]
    at [floor t], [p_high] at [ceil t], nothing beyond. *)
Definition spec_pair_weight (t : Q) (d : Z) : Q :=
  if d <? Qfloor t then 1%Q
  else if d =? Qfloor t then spec_p_low t
  else if d =? Qceiling t then spec_p_high t
  else 0%Q.

Definition sum_Q (l : list Q) : Q := fold_right Qplus 0%Q l.

(** The sum of [w (train[j] - train[i])] over all pairs [i < j]. *)
Fixpoint sum_over_pairs (w : Z -> Q) (train : list Z) : Q :=
  match train with
  | [] => 0%Q
  | x :: rest =>
      Qplus (sum_Q (map (fun y => w (y - x)) rest)) (sum_over_pairs w rest)
  end.

Definition spec_count_violations (train : list Z) (max_time : Q) : Q :=
  if Qle_bool max_time 0 then 0%Q
  else sum_over_pairs (spec_pair_weight max_time) train.

(** The differences between consecutive spikes. *)
Fixpoint gaps (train : list Z) : list Z :=
  match train with
  | [] => []
  | x :: rest =>
      match rest with
      | [] => []
      | y :: _ => (y - x) :: gaps rest
      end
  end.

(** [w] is below the minimum inter-spike gap of [train]. *)
Definition below_min_gap (w : Q) (train : list Z) : Prop :=
  Forall (fun g => (w < inject_Z g)%Q) (gaps train).

(** A spike train as the sorting provider hands it over. *)
Definition spike_train_ok (train : list Z) : Prop :=
  Sorted Z.le train /\ Forall sample_index train.


(* ================================================================= *)
(** ** The sweeps without indices and without early exit

    The forms of the two sweeps that the proofs go through: the loops on
    the values that the indices denote, and the counts over all pairs. *)

(** How one pair at distance [d] moves the counters of
    [compute_nb_violations]. *)
Definition violation_class (border_low border_high d : Z) : tally :=
  if d >? border_high then tally0
  else if d =? border_high then incr_high tally0
  else if d =? border_low then incr_low tally0
  else incr_plain tally0.

(** All pairs [i < j], without the early exit. *)
Fixpoint violation_pairs (border_low border_high : Z) (train : list Z) : tally :=
  match train with
  | [] => tally0
  | x :: rest =>
      tally_add
        (tally_sum (map (fun y => violation_class border_low border_high (y - x))
                        rest))
        (violation_pairs border_low border_high rest)
  end.

(** The inner loop on the values that the indices denote. *)
Fixpoint violations_row_values (border_low border_high x : Z) (ys : list Z)
    (c : tally) : tally :=
  match ys with
  | [] => c
  | y :: ys' =>
      let diff := int64_sub y x in
      if diff >? border_high then c
      else if diff =? border_high
      then violations_row_values border_low border_high x ys' (incr_high c)
      else if diff =? border_low
      then violations_row_values border_low border_high x ys' (incr_low c)
      else violations_row_values border_low border_high x ys' (incr_plain c)
  end.

Fixpoint violations_sweep_values (border_low border_high : Z) (train : list Z)
    (c : tally) : tally :=
  match train with
  | [] => c
  | x :: rest =>
      violations_sweep_values border_low border_high rest
        (violations_row_values border_low border_high x rest c)
  end.

(** How one pair at signed distance [d] moves the counters of
    [compute_nb_coincidence]. *)
Definition coincidence_class (border_low border_high d : Z) : tally :=
  if d >? border_high then tally0
  else if d <? - border_high then tally0
  else if Z.abs d =? border_high then incr_high tally0
  else if Z.abs d =? border_low then incr_low tally0
  else incr_plain tally0.

(** One spike of the first train against a whole second train. *)
Definition coincidence_line (border_low border_high a : Z) (bs : list Z) : tally :=
  tally_sum (map (fun b => coincidence_class border_low border_high (a - b)) bs).

(** Every spike of the first train against every spike of the second. *)
Definition coincidence_grid (border_low border_high : Z) (train1 train2 : list Z)
  : tally :=
  tally_sum (map (fun a => coincidence_line border_low border_high a train2)
                 train1).

(** The inner loop on the values that the indices denote. *)
Fixpoint coincidence_row_values (border_low border_high a : Z) (bs : list Z)
    (start_j : nat) (c : tally) : nat * tally :=
  match bs with
  | [] => (start_j, c)
  | b :: bs' =>
      let diff := int64_sub a b in
      if diff >? border_high
      then coincidence_row_values border_low border_high a bs' (S start_j) c
      else if diff <? - border_high then (start_j, c)
      else if int64_abs diff =? border_high
      then coincidence_row_values border_low border_high a bs' start_j
             (incr_high c)
      else if int64_abs diff =? border_low
      then coincidence_row_values border_low border_high a bs' start_j
             (incr_low c)
      else coincidence_row_values border_low border_high a bs' start_j
             (incr_plain c)
  end.

Fixpoint coincidence_sweep_values (border_low border_high : Z)
    (train1 train2 : list Z) (s : nat * tally) : nat * tally :=
  match train1 with
  | [] => s
  | a :: rest =>
      coincidence_sweep_values border_low border_high rest train2
        (coincidence_row_values border_low border_high a
           (skipn (fst s) train2) (fst s) (snd s))
  end.

Definition tally_total (c : tally) : Z := n_plain c + n_low c + n_high c.

Definition tally_nonneg (c : tally) : Prop :=
  0 <= n_plain c /\ 0 <= n_low c /\ 0 <= n_high c.

(* ================================================================= *)
(** ** Parts of the statistics *)

(** The quantity [D] of [estimate_contamination]. *)
Definition contamination_D (U : Utils) (spike_train : list Z)
    (refractory_period : Q * Q) : Q :=
  let t_c := ms_to_samples U (fst refractory_period) in
  let t_r := ms_to_samples U (snd refractory_period) in
  let n_v := compute_nb_violations (astype_int64 spike_train) t_r in
  let N := inject_Z (Z.of_nat (length spike_train)) in
  let T := inject_Z (t_max U) in
  (1 - n_v * (T - 2 * N * t_c) / (N ^ 2 * (t_r - t_c)))%Q.

(** The statistical test at the end of [estimate_cross_contamination],
    once [C1] and the estimate are known. *)
Definition p_value_test (binom_cdf norm_cdf : R -> R -> R -> R)
    (n_violations : Q) (n p : R) : result R :=
  if Rlt_dec (n * p) 30
  then Ok (1 - binom_cdf (Q2R n_violations) n p)%R
  else
    s <- math_sqrt (n * p * (1 - p))%R ;;
    Ok (1 - norm_cdf (Q2R n_violations) (n * p) s)%R.

(** The parameter [n] of the test. *)
Definition null_n (N1 N2 : nat) (C1 : R) (limit : Q) : R :=
  (Q2R (inject_Z (Z.of_nat N1)) * Q2R (inject_Z (Z.of_nat N2))
   * ((1 - C1) * Q2R limit + C1))%R.

(** [n_violations] of [estimate_cross_contamination]. *)
Definition cross_violations (U : Utils) (train1 train2 : list Z)
    (t_c t_r : Q) : Q :=
  (compute_nb_coincidence train1 train2 (ms_to_samples U t_r)
   - compute_nb_coincidence train1 train2 (ms_to_samples U t_c))%Q.

(** The sum of [w |a - b|] over every spike [a] of the first train and
    every spike [b] of the second. *)
Definition sum_over_grid (w : Z -> Q) (train1 train2 : list Z) : Q :=
  sum_Q (map (fun a => sum_Q (map (fun b => w (Z.abs (a - b))) train2)) train1).

Definition spec_count_coincidences (train1 train2 : list Z) (max_time : Q) : Q :=
  if Qle_bool max_time 0 then 0%Q
  else sum_over_grid (spec_pair_weight max_time) train1 train2.

(** The number of pairs of one spike of unit [u] in the first spike
    vector and one spike of unit [v] in the second that are at most
    [max_time] samples apart. *)
Definition pair_hit (max_time u v : Z) (s1 s2 : Z * Z) : Z :=
  if (Z.abs (fst s1 - fst s2) <=? max_time)
     && (snd s1 =? u) && (snd s2 =? v)
  then 1 else 0.

Definition sum_Z (l : list Z) : Z := fold_right Z.add 0 l.

Definition count_unit_pairs (max_time u v : Z)
    (spike_vector1 spike_vector2 : list (Z * Z)) : Z :=
  sum_Z (map (fun s1 => sum_Z (map (pair_hit max_time u v s1) spike_vector2))
             spike_vector1).

(** A spike vector as the sorting provider hands it over: ascending
    sample indices, unit indices from 0. *)
Definition spike_vector_ok (sv : list (Z * Z)) : Prop :=
  spike_train_ok (map fst sv) /\ Forall (fun l => 0 <= l) (map snd sv).

(** The inner loop of [compute_coincidence_matrix] on the entries that
    the indices denote. *)
Fixpoint matrix_row_values (max_time : Z) (n_units1 n_units2 : nat)
    (s1 : Z * Z) (bs : list (Z * Z)) (start_j : nat) (m : list (list Z))
  : nat * list (list Z) :=
  match bs with
  | [] => (start_j, m)
  | s2 :: bs' =>
      let diff := int64_sub (fst s1) (fst s2) in
      if diff >? max_time
      then matrix_row_values max_time n_units1 n_units2 s1 bs' (S start_j) m
      else if diff <? - max_time then (start_j, m)
      else matrix_row_values max_time n_units1 n_units2 s1 bs' start_j
             (matrix_incr m (np_index n_units1 (snd s1))
                            (np_index n_units2 (snd s2)))
  end.

Fixpoint matrix_sweep_values (max_time : Z) (n_units1 n_units2 : nat)
    (sv1 sv2 : list (Z * Z)) (s : nat * list (list Z))
  : nat * list (list Z) :=
  match sv1 with
  | [] => s
  | s1 :: rest =>
      matrix_sweep_values max_time n_units1 n_units2 rest sv2
        (matrix_row_values max_time n_units1 n_units2 s1
           (skipn (fst s) sv2) (fst s) (snd s))
  end.

(** A matrix of [n_rows] rows of [n_cols] items. *)
Definition matrix_shape (m : list (list Z)) (n_rows n_cols : nat) : Prop :=
  length m = n_rows /\ Forall (fun row => length row = n_cols) m.

(** The chance-expected rate of the entry [(i, j)] of the similarity
    matrix: [n1[i]*n2[j]*(2*window+1)/t_max/min(n1[i], n2[j])]. *)
Definition expected_rate (U : Utils) (n_spikes1 n_spikes2 : list Z)
    (window : Q) (i j : nat) : Q :=
  let a := inject_Z (nth i n_spikes1 0) in
  let b := inject_Z (nth j n_spikes2 0) in
  let m := inject_Z (Z.min (nth i n_spikes1 0) (nth j n_spikes2 0)) in
  (a * b * (2 * window + 1) / inject_Z (t_max U) / m)%Q.

(** The Gaussian kernel of the event [e] at the axis point [t]: zero
    outside [truncate] standard deviations. *)
Definition kernel_term (sigma truncate t e : R) : R :=
  if Rlt_dec e (t - truncate * sigma) then 0%R
  else if Rgt_dec e (t + truncate * sigma) then 0%R
  else exp (- (1 / 2) * ((e - t) / sigma) ^ 2).

(** The kernels of all the events at the axis point [t]. *)
Definition kernel_sum (events : list R) (sigma truncate t : R) : R :=
  sum_R (map (kernel_term sigma truncate t) events).

(** The density that [gaussian_histogram] gives for these events. *)
Definition kernel_density (events t_axis : list R) (sigma truncate : R)
  : list (option R) :=
  map (fun t => Some (kernel_sum events sigma truncate t
                      / (sigma * sqrt (2 * PI)))%R)
      t_axis.

Definition Rleb (x y : R) : bool := if Rle_dec x y then true else false.

(** The events that [margin_reflect] adds below the first axis point:
    when no event lies before it, the mirror images of the events within
    [truncate*sigma] of it. *)
Definition mirrored_low (events : list R) (t_first sigma truncate : R)
  : list R :=
  if forallb (fun e => Rleb t_first e) events
  then map (fun e => 2 * t_first - e)%R
         (filter (fun e => Rleb e (t_first + truncate * sigma)) events)
  else [].

(** The events that it adds above the last axis point. *)
Definition mirrored_high (events : list R) (t_last sigma truncate : R)
  : list R :=
  if forallb (fun e => Rleb e t_last) events
  then map (fun e => 2 * t_last - e)%R
         (filter (fun e => Rleb (t_last - truncate * sigma) e) events)
  else [].

(** The spike vector of a sorting with one unit, of index 0. *)
Definition single_unit (train : list Z) : list (Z * Z) :=
  map (fun t => (t, 0)) train.

(** Twice the plain counter plus the boundary counter. *)
Definition doubled (c : tally) : Z := 2 * n_plain c + n_high c.

(** An entry of a spike vector whose unit index is below [n]. *)
Definition entry_ok (n : nat) (s : Z * Z) : Prop :=
  sample_index (fst s) /\ 0 <= snd s < Z.of_nat n.

(** The pairs of one entry of the first vector with the entries of the
    second that [pair_hit] counts for the units [u] and [v]. *)
Definition row_hits (max_time u v : Z) (s1 : Z * Z) (bs : list (Z * Z)) : Z :=
  sum_Z (map (pair_hit max_time u v s1) bs).

(** The linear combination [a * x + b * y] of two arrays, item by item. *)
Definition lin_comb (a b : R) (x y : list R) : list R :=
  map (fun p => a * fst p + b * snd p)%R (combine x y).

(** The [m]-th item of the signal whose transform is the transform of
    [data] multiplied by the real mask [mask]. *)
Definition masked_item (data mask : list R) (m : nat) : R :=
  idft_re (map (fun p => (fst (fst p) * snd p, snd (fst p) * snd p)%R)
             (combine (map (fun k => (dft_re data (length data) k,
                                      dft_im data (length data) k))
                           (seq 0 (length data)))
                      mask))
    (length data) m.

(** The difference of two masks, item by item. *)
Definition mask_diff (low high : list R) : list R :=
  map (fun p => fst p - snd p)%R (combine low high).

(* ================================================================= *)
(** * Properties *)

Example nb_coincidence_ex :
  Qeq (compute_nb_coincidence [0; 2] [0; 2] (3 # 2)) (9 # 4).
Proof. vm_compute. reflexivity. Qed.

Example nb_violations_ex :
  Qeq (compute_nb_violations [0; 1; 2; 3] 2) 4.
Proof. vm_compute. reflexivity. Qed.

(* ================================================================= *)
(** ** Integers and counters *)

Lemma int64_wrap_id (z : Z) : - 2 ^ 63 <= z < 2 ^ 63 -> int64_wrap z = z.
Proof.
  intros H. unfold int64_wrap.
  rewrite Z.mod_small by lia. lia.
Qed.

Lemma int64_sub_exact (a b : Z) :
  sample_index a -> sample_index b -> int64_sub a b = a - b.
Proof.
  unfold sample_index, int64_sub. intros Ha Hb.
  apply int64_wrap_id. lia.
Qed.

Lemma int64_abs_exact (a b : Z) :
  sample_index a -> sample_index b -> int64_abs (a - b) = Z.abs (a - b).
Proof.
  unfold sample_index, int64_abs. intros Ha Hb.
  apply int64_wrap_id. lia.
Qed.

Lemma astype_int64_id (a : list Z) :
  Forall sample_index a -> astype_int64 a = a.
Proof.
  unfold astype_int64. induction 1 as [|x a Hx _ IH]; simpl.
  - reflexivity.
  - rewrite IH. f_equal. apply int64_wrap_id.
    unfold sample_index in Hx. lia.
Qed.

Lemma tally_eq (c d : tally) :
  n_plain c = n_plain d -> n_low c = n_low d -> n_high c = n_high d -> c = d.
Proof. destruct c, d; simpl; intros; subst; reflexivity. Qed.

Ltac tally_solve :=
  apply tally_eq;
  unfold tally_sum, tally_add, incr_plain, incr_low, incr_high, tally0;
  cbn [n_plain n_low n_high]; lia.

Lemma tally_add_0_r (c : tally) : tally_add c tally0 = c.
Proof. tally_solve. Qed.

Lemma tally_add_0_l (c : tally) : tally_add tally0 c = c.
Proof. tally_solve. Qed.

Lemma tally_add_assoc (a b c : tally) :
  tally_add a (tally_add b c) = tally_add (tally_add a b) c.
Proof. tally_solve. Qed.

Lemma tally_add_comm (a b : tally) : tally_add a b = tally_add b a.
Proof. tally_solve. Qed.

Lemma tally_sum_app (l1 l2 : list tally) :
  tally_sum (l1 ++ l2) = tally_add (tally_sum l1) (tally_sum l2).
Proof.
  induction l1 as [|x l1 IH]; simpl.
  - now rewrite tally_add_0_l.
  - now rewrite IH, tally_add_assoc.
Qed.

Lemma tally_sum_zero {A : Type} (f : A -> tally) (l : list A) :
  Forall (fun x => f x = tally0) l -> tally_sum (map f l) = tally0.
Proof.
  induction 1 as [|x l Hx _ IH]; simpl.
  - reflexivity.
  - now rewrite Hx, IH.
Qed.

Lemma tally_sum_map_add {A : Type} (f g : A -> tally) (l : list A) :
  tally_sum (map (fun x => tally_add (f x) (g x)) l)
  = tally_add (tally_sum (map f l)) (tally_sum (map g l)).
Proof.
  induction l as [|x l IH]; simpl.
  - reflexivity.
  - rewrite IH. tally_solve.
Qed.

(* ================================================================= *)
(** ** Ranges and indexing *)

Lemma map_nth_seq (l pre : list Z) :
  map (fun j => nth j (pre ++ l) 0) (seq (length pre) (length l)) = l.
Proof.
  revert pre. induction l as [|x l IH]; intros pre; simpl.
  - reflexivity.
  - rewrite app_nth2 by lia. rewrite Nat.sub_diag. simpl. f_equal.
    specialize (IH (pre ++ [x])).
    rewrite <- app_assoc in IH. simpl in IH.
    rewrite length_app in IH. simpl in IH.
    rewrite Nat.add_1_r in IH. exact IH.
Qed.

Lemma StronglySorted_skipn {A : Type} (R : A -> A -> Prop) (l : list A)
    (s : nat) :
  StronglySorted R l -> StronglySorted R (skipn s l).
Proof.
  intros H. revert s. induction H as [|x l Hl IH Hx]; intros [|s]; simpl.
  - constructor.
  - constructor.
  - constructor; assumption.
  - apply IH.
Qed.

Lemma firstn_plus {A : Type} (l : list A) (s k : nat) :
  firstn (s + k) l = firstn s l ++ firstn k (skipn s l).
Proof.
  revert l. induction s as [|s IH]; intros l.
  - reflexivity.
  - destruct l as [|x l]; simpl.
    + now rewrite firstn_nil.
    + now rewrite IH.
Qed.

Lemma map_nth_range (l : list Z) (s : nat) :
  map (fun j => nth j l 0) (range s (length l)) = skipn s l.
Proof.
  unfold range.
  destruct (Nat.le_gt_cases s (length l)) as [Hs|Hs].
  - assert (Hlen : length (firstn s l) = s) by (rewrite length_firstn; lia).
    assert (Hsuf : (length l - s)%nat = length (skipn s l))
      by (rewrite length_skipn; reflexivity).
    rewrite Hsuf.
    pose proof (map_nth_seq (skipn s l) (firstn s l)) as H.
    rewrite firstn_skipn, Hlen in H. exact H.
  - replace (length l - s)%nat with 0%nat by lia. simpl.
    symmetry. apply skipn_all2. lia.
Qed.

(* ================================================================= *)
(** ** The violation sweep *)

Section ViolationSweep.

Variables border_low border_high : Z.

Lemma violations_row_by_values (train : list Z) (i : nat) (js : list nat)
    (c : tally) :
  violations_row train border_low border_high i js c
  = violations_row_values border_low border_high (nth i train 0)
      (map (fun j => nth j train 0) js) c.
Proof.
  revert c. induction js as [|j js IH]; intros c; simpl.
  - reflexivity.
  - destruct (_ >? _); [reflexivity|].
    destruct (_ =? border_high); [apply IH|].
    destruct (_ =? border_low); apply IH.
Qed.

Lemma violations_sweep_from (pre suf : list Z) (c : tally) :
  fold_left
    (fun c i =>
       violations_row (pre ++ suf) border_low border_high i
         (range (i + 1) (length (pre ++ suf))) c)
    (seq (length pre) (length suf - 1)) c
  = violations_sweep_values border_low border_high suf c.
Proof.
  revert pre c. induction suf as [|x suf IH]; intros pre c.
  - reflexivity.
  - destruct suf as [|y suf].
    + reflexivity.
    + replace (length (x :: y :: suf) - 1)%nat with (S (length (y :: suf) - 1))
        by (simpl; lia).
      cbn [seq fold_left violations_sweep_values].
      rewrite violations_row_by_values, map_nth_range.
      rewrite app_nth2 by lia. rewrite Nat.sub_diag. cbn [nth].
      replace (skipn (length pre + 1) (pre ++ x :: y :: suf)) with (y :: suf).
      2:{ rewrite skipn_app, skipn_all2 by lia.
          replace (length pre + 1 - length pre)%nat with 1%nat by lia.
          reflexivity. }
      specialize (IH (pre ++ [x])).
      replace (length (pre ++ [x])) with (S (length pre)) in IH
        by (rewrite length_app; simpl; lia).
      rewrite <- app_assoc in IH. apply IH.
Qed.

Lemma violations_sweep_by_values (train : list Z) :
  violations_sweep train border_low border_high
  = violations_sweep_values border_low border_high train tally0.
Proof.
  unfold violations_sweep, range. rewrite Nat.sub_0_r.
  apply (violations_sweep_from [] train).
Qed.

Lemma violation_class_beyond (x : Z) (ys : list Z) :
  Forall (fun y => border_high < y - x) ys ->
  tally_sum (map (fun y => violation_class border_low border_high (y - x)) ys)
  = tally0.
Proof.
  intros H. apply tally_sum_zero.
  eapply Forall_impl; [|exact H]. cbv beta. intros y Hy.
  unfold violation_class.
  destruct (Z.gtb_spec (y - x) border_high); [reflexivity|lia].
Qed.

(** On an ascending row, leaving at the first distance beyond
    [border_high] loses no pair. *)
Lemma violations_row_values_all (x : Z) (ys : list Z) (c : tally) :
  sample_index x -> Forall sample_index ys -> StronglySorted Z.le ys ->
  violations_row_values border_low border_high x ys c
  = tally_add c
      (tally_sum
         (map (fun y => violation_class border_low border_high (y - x)) ys)).
Proof.
  intros Hx Hys Hsorted. revert c.
  induction Hsorted as [|y ys Hs IH Hle]; intros c.
  - simpl. now rewrite tally_add_0_r.
  - inversion Hys as [|? ? Hy Hys']; subst.
    cbn [violations_row_values map tally_sum fold_right].
    rewrite int64_sub_exact by assumption.
    fold (tally_sum
            (map (fun y => violation_class border_low border_high (y - x)) ys)).
    unfold violation_class at 1.
    destruct (Z.gtb_spec (y - x) border_high) as [Hgt|Hle'].
    + rewrite violation_class_beyond.
      * tally_solve.
      * eapply Forall_impl; [|exact Hle]. cbv beta. intros; lia.
    + destruct (Z.eqb_spec (y - x) border_high).
      * rewrite IH by assumption. tally_solve.
      * destruct (Z.eqb_spec (y - x) border_low);
          rewrite IH by assumption; tally_solve.
Qed.

Lemma violations_sweep_values_all (train : list Z) (c : tally) :
  Forall sample_index train -> StronglySorted Z.le train ->
  violations_sweep_values border_low border_high train c
  = tally_add c (violation_pairs border_low border_high train).
Proof.
  intros Hidx Hsorted. revert c.
  induction Hsorted as [|x rest Hs IH Hle]; intros c.
  - simpl. now rewrite tally_add_0_r.
  - inversion Hidx as [|? ? Hx Hrest]; subst.
    cbn [violations_sweep_values violation_pairs].
    rewrite IH, violations_row_values_all by assumption.
    now rewrite tally_add_assoc.
Qed.

End ViolationSweep.

Lemma Sorted_le_strong (l : list Z) : Sorted Z.le l -> StronglySorted Z.le l.
Proof.
  apply Sorted_StronglySorted. intros a b c. apply Z.le_trans.
Qed.

Lemma violations_sweep_all_pairs (border_low border_high : Z) (train : list Z) :
  spike_train_ok train ->
  violations_sweep train border_low border_high
  = violation_pairs border_low border_high train.
Proof.
  intros [Hs Hi].
  rewrite violations_sweep_by_values, violations_sweep_values_all;
    auto using Sorted_le_strong.
  apply tally_add_0_l.
Qed.

(* ================================================================= *)
(** ** Borders and boundary weights *)

Lemma floor_le_ceiling (t : Q) : Qfloor t <= Qceiling t.
Proof.
  rewrite Zle_Qle.
  apply Qle_trans with t; [apply Qfloor_le|apply Qle_ceiling].
Qed.

Lemma ceiling_le_floor_succ (t : Q) : Qceiling t <= Qfloor t + 1.
Proof.
  assert (H : Qceiling t - 1 < Qfloor t + 1).
  { rewrite Zlt_Qlt.
    apply Qlt_trans with t; [apply Qceiling_lt|apply Qlt_floor]. }
  lia.
Qed.

Lemma ceiling_pos (t : Q) : (0 < t)%Q -> 1 <= Qceiling t.
Proof.
  intros Ht.
  assert (H : 0 < Qceiling t).
  { rewrite Zlt_Qlt. apply Qlt_le_trans with t; [exact Ht|apply Qle_ceiling]. }
  lia.
Qed.

Lemma floor_nonneg (t : Q) : (0 < t)%Q -> 0 <= Qfloor t.
Proof.
  intros Ht.
  assert (H : -1 < Qfloor t).
  { assert (H0 : 0 < Qfloor t + 1).
    { rewrite Zlt_Qlt. apply Qlt_trans with t; [exact Ht|apply Qlt_floor]. }
    lia. }
  lia.
Qed.

(** An integer window: [floor] and [ceil] agree exactly there. *)
Lemma floor_eq_ceiling (t : Q) :
  Qfloor t = Qceiling t -> (t == inject_Z (Qfloor t))%Q.
Proof.
  intros H. apply Qle_antisym.
  - rewrite H. apply Qle_ceiling.
  - apply Qfloor_le.
Qed.

Lemma Qle_bool_false (t : Q) : Qle_bool t 0 = false -> (0 < t)%Q.
Proof.
  intros H. apply Qnot_le_lt. intros Hle.
  apply Qle_bool_iff in Hle. congruence.
Qed.

Lemma Qle_bool_pos (t : Q) : (0 < t)%Q -> Qle_bool t 0 = false.
Proof.
  intros H. destruct (Qle_bool t 0) eqn:E; [|reflexivity].
  apply Qle_bool_iff in E. exfalso. apply (Qlt_not_le _ _ H E).
Qed.

Lemma border_probabilities_spec (t : Q) :
  exists p_low p_high,
    _get_border_probabilities t = (Qfloor t, Qceiling t, p_low, p_high)
    /\ (p_low == spec_p_low t)%Q /\ (p_high == spec_p_high t)%Q.
Proof.
  unfold _get_border_probabilities, spec_p_low, spec_p_high.
  eexists. eexists. split; [reflexivity|]. split.
  - destruct (Qfloor t =? 0); ring.
  - reflexivity.
Qed.

(** On an integer window both boundary weights are one half. *)
Lemma spec_weights_integer_window (t : Q) :
  (0 < t)%Q -> Qfloor t = Qceiling t -> (spec_p_low t == spec_p_high t)%Q.
Proof.
  intros Ht H. unfold spec_p_low, spec_p_high.
  pose proof (floor_eq_ceiling t H) as Hint.
  destruct (Z.eqb_spec (Qfloor t) 0) as [H0|H0].
  - exfalso. rewrite H0 in Hint. rewrite Hint in Ht.
    apply (Qlt_irrefl 0). exact Ht.
  - rewrite <- H. rewrite <- Hint. ring.
Qed.

Lemma weighted_add (p_low p_high : Q) (c d : tally) :
  (weighted p_low p_high (tally_add c d)
   == weighted p_low p_high c + weighted p_low p_high d)%Q.
Proof.
  unfold weighted, tally_add. cbn [n_plain n_low n_high].
  rewrite !inject_Z_plus. ring.
Qed.

Lemma weighted_0 (p_low p_high : Q) : (weighted p_low p_high tally0 == 0)%Q.
Proof. unfold weighted, tally0. cbn [n_plain n_low n_high]. ring. Qed.

Lemma weighted_sum {A : Type} (p_low p_high : Q) (f : A -> tally) (l : list A) :
  (weighted p_low p_high (tally_sum (map f l))
   == sum_Q (map (fun x => weighted p_low p_high (f x)) l))%Q.
Proof.
  induction l as [|x l IH]; cbn [map tally_sum sum_Q fold_right].
  - apply weighted_0.
  - fold (tally_sum (map f l)).
    fold (sum_Q (map (fun x => weighted p_low p_high (f x)) l)).
    rewrite weighted_add, IH. reflexivity.
Qed.

Lemma sum_Q_ext {A : Type} (f g : A -> Q) (l : list A) :
  (forall x, (f x == g x)%Q) -> (sum_Q (map f l) == sum_Q (map g l))%Q.
Proof.
  intros H. induction l as [|x l IH]; cbn [map sum_Q fold_right].
  - reflexivity.
  - fold (sum_Q (map f l)). fold (sum_Q (map g l)).
    rewrite IH, H. reflexivity.
Qed.

Lemma weighted_plain (p_low p_high : Q) :
  (weighted p_low p_high (incr_plain tally0) == 1)%Q.
Proof. unfold weighted, incr_plain, tally0, inject_Z. simpl. ring. Qed.

Lemma weighted_low (p_low p_high : Q) :
  (weighted p_low p_high (incr_low tally0) == p_low)%Q.
Proof. unfold weighted, incr_low, tally0, inject_Z. simpl. ring. Qed.

Lemma weighted_high (p_low p_high : Q) :
  (weighted p_low p_high (incr_high tally0) == p_high)%Q.
Proof. unfold weighted, incr_high, tally0, inject_Z. simpl. ring. Qed.

(** The counters of the code, weighted, give each pair the weight that the
    specification names. *)
Lemma weighted_violation_class (t p_low p_high : Q) (d : Z) :
  (0 < t)%Q ->
  (p_low == spec_p_low t)%Q -> (p_high == spec_p_high t)%Q ->
  (weighted p_low p_high (violation_class (Qfloor t) (Qceiling t) d)
   == spec_pair_weight t d)%Q.
Proof.
  intros Ht Hlow Hhigh.
  pose proof (floor_le_ceiling t) as H1.
  pose proof (ceiling_le_floor_succ t) as H2.
  unfold violation_class, spec_pair_weight.
  destruct (Z.gtb_spec d (Qceiling t)), (Z.ltb_spec d (Qfloor t)); try lia.
  - destruct (Z.eqb_spec d (Qfloor t)); [lia|].
    destruct (Z.eqb_spec d (Qceiling t)); [lia|].
    apply weighted_0.
  - destruct (Z.eqb_spec d (Qceiling t)); [lia|].
    destruct (Z.eqb_spec d (Qfloor t)); [lia|].
    apply weighted_plain.
  - destruct (Z.eqb_spec d (Qceiling t)) as [Hc|Hc];
      destruct (Z.eqb_spec d (Qfloor t)) as [Hf|Hf]; try lia.
    + rewrite weighted_high, Hhigh.
      symmetry. apply spec_weights_integer_window; [exact Ht|lia].
    + now rewrite weighted_high.
    + now rewrite weighted_low.
Qed.

Lemma weighted_violation_pairs (t p_low p_high : Q) (train : list Z) :
  (0 < t)%Q ->
  (p_low == spec_p_low t)%Q -> (p_high == spec_p_high t)%Q ->
  (weighted p_low p_high (violation_pairs (Qfloor t) (Qceiling t) train)
   == sum_over_pairs (spec_pair_weight t) train)%Q.
Proof.
  intros Ht Hlow Hhigh.
  induction train as [|x rest IH]; cbn [violation_pairs sum_over_pairs].
  - apply weighted_0.
  - rewrite weighted_add, IH, weighted_sum.
    apply Qplus_comp; [|reflexivity].
    apply sum_Q_ext. intros y. now apply weighted_violation_class.
Qed.

(** C2.  On an ascending train of sample indices, [compute_nb_violations]
    is [0] for a window [max_time <= 0]; for a positive window it is the
    sum, over all pairs [i < j], of the weight of their distance: 1 below
    [floor(max_time)], [p_low] at [floor(max_time)], [p_high] at
    [ceil(max_time)] and nothing beyond, with
    [p_high = 0.5*(max_time - ceil + 1)^2] and
    [p_low = 0.5*(1 - (max_time - floor)^2) + (max_time - floor)], less
    [0.5*(1 - max_time)^2] when [floor(max_time) = 0]. *)
Theorem count_violations_weighted_pairs (train : list Z) (max_time : Q) :
  spike_train_ok train ->
  ((max_time <= 0)%Q -> compute_nb_violations train max_time = 0%Q)
  /\ (compute_nb_violations train max_time
      == spec_count_violations train max_time)%Q.
Proof.
  intros Hok. unfold compute_nb_violations, spec_count_violations. split.
  - intros Hle. apply Qle_bool_iff in Hle. now rewrite Hle.
  - destruct (Qle_bool max_time 0) eqn:E; [reflexivity|].
    apply Qle_bool_false in E.
    destruct (border_probabilities_spec max_time)
      as (p_low & p_high & Hb & Hlow & Hhigh).
    rewrite Hb, violations_sweep_all_pairs by exact Hok.
    now apply weighted_violation_pairs.
Qed.

(* ================================================================= *)
(** ** The coincidence sweep *)

Section CoincidenceSweep.

Variables border_low border_high : Z.

Lemma coincidence_row_by_values (train1 train2 : list Z) (i : nat)
    (js : list nat) (start_j : nat) (c : tally) :
  coincidence_row train1 train2 border_low border_high i js start_j c
  = coincidence_row_values border_low border_high (nth i train1 0)
      (map (fun j => nth j train2 0) js) start_j c.
Proof.
  revert start_j c. induction js as [|j js IH]; intros start_j c; simpl.
  - reflexivity.
  - destruct (_ >? _); [apply IH|].
    destruct (_ <? _); [reflexivity|].
    destruct (_ =? border_high); [apply IH|].
    destruct (_ =? border_low); apply IH.
Qed.

Lemma coincidence_sweep_from (pre suf train2 : list Z) (s : nat * tally) :
  fold_left
    (fun (s : nat * tally) i =>
       coincidence_row (pre ++ suf) train2 border_low border_high i
         (range (fst s) (length train2)) (fst s) (snd s))
    (seq (length pre) (length suf)) s
  = coincidence_sweep_values border_low border_high suf train2 s.
Proof.
  revert pre s. induction suf as [|a suf IH]; intros pre s.
  - reflexivity.
  - cbn [length seq fold_left coincidence_sweep_values].
    rewrite coincidence_row_by_values, map_nth_range.
    rewrite app_nth2 by lia. rewrite Nat.sub_diag. cbn [nth].
    specialize (IH (pre ++ [a])).
    replace (length (pre ++ [a])) with (S (length pre)) in IH
      by (rewrite length_app; simpl; lia).
    rewrite <- app_assoc in IH. apply IH.
Qed.

Lemma coincidence_sweep_by_values (train1 train2 : list Z) :
  coincidence_sweep train1 train2 border_low border_high
  = coincidence_sweep_values border_low border_high train1 train2
      (0%nat, tally0).
Proof.
  unfold coincidence_sweep, range. rewrite Nat.sub_0_r.
  apply (coincidence_sweep_from [] train1).
Qed.

Lemma coincidence_class_above (d : Z) :
  border_high < d -> coincidence_class border_low border_high d = tally0.
Proof.
  intros H. unfold coincidence_class.
  destruct (Z.gtb_spec d border_high); [reflexivity|lia].
Qed.

Lemma coincidence_class_below (d : Z) :
  d < - border_high -> coincidence_class border_low border_high d = tally0.
Proof.
  intros H. unfold coincidence_class.
  destruct (Z.gtb_spec d border_high); [reflexivity|].
  destruct (Z.ltb_spec d (- border_high)); [reflexivity|lia].
Qed.

Lemma coincidence_line_above (a : Z) (bs : list Z) :
  Forall (fun b => border_high < a - b) bs ->
  coincidence_line border_low border_high a bs = tally0.
Proof.
  intros H. apply tally_sum_zero.
  eapply Forall_impl; [|exact H]. cbv beta.
  intros b. apply coincidence_class_above.
Qed.

Lemma coincidence_line_below (a : Z) (bs : list Z) :
  Forall (fun b => a - b < - border_high) bs ->
  coincidence_line border_low border_high a bs = tally0.
Proof.
  intros H. apply tally_sum_zero.
  eapply Forall_impl; [|exact H]. cbv beta.
  intros b. apply coincidence_class_below.
Qed.

(** One row of the sweep over an ascending [bs]: the spikes it skips
    for good are too early for [a], and the counters take every pair of
    the row. *)
Lemma coincidence_row_values_all (a : Z) (bs : list Z) (start_j : nat)
    (c : tally) :
  sample_index a -> Forall sample_index bs -> StronglySorted Z.le bs ->
  exists k,
    coincidence_row_values border_low border_high a bs start_j c
    = ((start_j + k)%nat,
       tally_add c (coincidence_line border_low border_high a bs))
    /\ Forall (fun b => border_high < a - b) (firstn k bs).
Proof.
  intros Ha Hbs Hsorted. revert start_j c.
  induction Hsorted as [|b bs Hs IH Hle]; intros start_j c.
  - exists 0%nat. simpl. rewrite Nat.add_0_r.
    unfold coincidence_line. simpl. rewrite tally_add_0_r. auto.
  - inversion Hbs as [|? ? Hb Hbs']; subst.
    specialize (IH Hbs').
    cbn [coincidence_row_values].
    rewrite int64_sub_exact, int64_abs_exact by assumption.
    unfold coincidence_line. cbn [map tally_sum fold_right].
    fold (tally_sum
            (map (fun b => coincidence_class border_low border_high (a - b)) bs)).
    fold (coincidence_line border_low border_high a bs).
    unfold coincidence_class at 1.
    destruct (Z.gtb_spec (a - b) border_high) as [Hgt|Hngt].
    + destruct (IH (S start_j) c) as (k & Hk & Hskip).
      exists (S k). rewrite Hk. split.
      * f_equal; first [lia|tally_solve].
      * cbn [firstn]. constructor; assumption.
    + destruct (Z.ltb_spec (a - b) (- border_high)) as [Hlt|Hnlt].
      * exists 0%nat. rewrite Nat.add_0_r. split; [|constructor].
        rewrite coincidence_line_below.
        -- f_equal; try tally_solve.
        -- eapply Forall_impl; [|exact Hle]. cbv beta. intros; lia.
      * exists 0%nat. rewrite Nat.add_0_r. split; [|constructor].
        assert (Hstay : forall c',
                   coincidence_row_values border_low border_high a bs start_j c'
                   = (start_j,
                      tally_add c'
                        (coincidence_line border_low border_high a bs))).
        { intros c'. destruct (IH start_j c') as (k & Hk & Hskip).
          rewrite Hk. destruct k as [|k]; [now rewrite Nat.add_0_r|].
          exfalso. destruct bs as [|b' bs'].
          - cbn [coincidence_row_values] in Hk.
            injection Hk as Hk _. lia.
          - cbn [firstn] in Hskip. inversion Hskip; subst.
            inversion Hle; subst. lia. }
        destruct (Z.eqb_spec (Z.abs (a - b)) border_high).
        -- rewrite Hstay. f_equal; try tally_solve.
        -- destruct (Z.eqb_spec (Z.abs (a - b)) border_low);
             rewrite Hstay; f_equal; try tally_solve.
Qed.

Lemma coincidence_line_app (a : Z) (bs1 bs2 : list Z) :
  coincidence_line border_low border_high a (bs1 ++ bs2)
  = tally_add (coincidence_line border_low border_high a bs1)
              (coincidence_line border_low border_high a bs2).
Proof. unfold coincidence_line. now rewrite map_app, tally_sum_app. Qed.

(** The whole sweep: with both trains ascending, the spikes of the
    second train that the sweep has left behind are too early for all
    the spikes of the first train still to come. *)
Lemma coincidence_sweep_values_all (train1 train2 : list Z) (s : nat)
    (c : tally) :
  Forall sample_index train1 -> StronglySorted Z.le train1 ->
  Forall sample_index train2 -> StronglySorted Z.le train2 ->
  Forall (fun b => Forall (fun a => border_high < a - b) train1)
         (firstn s train2) ->
  snd (coincidence_sweep_values border_low border_high train1 train2 (s, c))
  = tally_add c (coincidence_grid border_low border_high train1 train2).
Proof.
  intros Hi1 Hs1 Hi2 Hs2. revert s c.
  induction Hs1 as [|a rest Hs IH Hle]; intros s c Hleft.
  - simpl. unfold coincidence_grid. simpl. now rewrite tally_add_0_r.
  - inversion Hi1 as [|? ? Ha Hrest]; subst.
    cbn [coincidence_sweep_values fst snd].
    destruct (coincidence_row_values_all a (skipn s train2) s c)
      as (k & Hk & Hskip).
    { exact Ha. }
    { rewrite <- (firstn_skipn s train2) in Hi2.
      apply Forall_app in Hi2. tauto. }
    { apply StronglySorted_skipn. exact Hs2. }
    rewrite Hk, IH.
    + assert (Hline : coincidence_line border_low border_high a train2
                      = coincidence_line border_low border_high a
                          (skipn s train2)).
      { rewrite <- (firstn_skipn s train2) at 1.
        rewrite coincidence_line_app, coincidence_line_above.
        - apply tally_add_0_l.
        - eapply Forall_impl; [|exact Hleft]. cbv beta.
          intros b Hb. inversion Hb; assumption. }
      unfold coincidence_grid. cbn [map tally_sum fold_right].
      rewrite Hline. tally_solve.
    + exact Hrest.
    + rewrite firstn_plus. apply Forall_app. split.
      * eapply Forall_impl; [|exact Hleft]. cbv beta.
        intros b Hb. inversion Hb; assumption.
      * eapply Forall_impl; [|exact Hskip]. cbv beta.
        intros b Hb.
        eapply Forall_impl; [|exact Hle]. cbv beta. intros; lia.
Qed.

End CoincidenceSweep.

Lemma coincidence_sweep_grid (border_low border_high : Z)
    (train1 train2 : list Z) :
  spike_train_ok train1 -> spike_train_ok train2 ->
  snd (coincidence_sweep train1 train2 border_low border_high)
  = coincidence_grid border_low border_high train1 train2.
Proof.
  intros [Hs1 Hi1] [Hs2 Hi2].
  rewrite coincidence_sweep_by_values, coincidence_sweep_values_all.
  - apply tally_add_0_l.
  - exact Hi1.
  - apply Sorted_le_strong, Hs1.
  - exact Hi2.
  - apply Sorted_le_strong, Hs2.
  - constructor.
Qed.

(* ================================================================= *)
(** ** Symmetry of the coincidence count *)

Lemma coincidence_class_opp (border_low border_high d : Z) :
  coincidence_class border_low border_high (- d)
  = coincidence_class border_low border_high d.
Proof.
  unfold coincidence_class. rewrite Z.abs_opp.
  destruct (Z.gtb_spec (- d) border_high), (Z.gtb_spec d border_high),
    (Z.ltb_spec (- d) (- border_high)), (Z.ltb_spec d (- border_high));
    try reflexivity; try lia.
Qed.

Lemma tally_sum_swap {A B : Type} (f : A -> B -> tally) (la : list A)
    (lb : list B) :
  tally_sum (map (fun a => tally_sum (map (fun b => f a b) lb)) la)
  = tally_sum (map (fun b => tally_sum (map (fun a => f a b) la)) lb).
Proof.
  induction la as [|a la IH]; cbn [map tally_sum fold_right].
  - symmetry. apply tally_sum_zero. apply Forall_forall. reflexivity.
  - fold (tally_sum (map (fun b => f a b) lb)).
    fold (tally_sum
            (map (fun a0 => tally_sum (map (fun b => f a0 b) lb)) la)).
    rewrite IH.
    rewrite <- (tally_sum_map_add (fun b => f a b)
                  (fun b => tally_sum (map (fun a0 => f a0 b) la))).
    reflexivity.
Qed.

Lemma coincidence_grid_sym (border_low border_high : Z)
    (train1 train2 : list Z) :
  coincidence_grid border_low border_high train1 train2
  = coincidence_grid border_low border_high train2 train1.
Proof.
  unfold coincidence_grid, coincidence_line.
  rewrite tally_sum_swap. f_equal.
  apply map_ext. intros b. f_equal.
  apply map_ext. intros a.
  rewrite <- coincidence_class_opp. f_equal. lia.
Qed.

(** C5.  On ascending trains of sample indices the coincidence count does
    not depend on the order of the two trains, for every window. *)
Theorem count_coincidences_symmetric (trainA trainB : list Z) (w : Q) :
  spike_train_ok trainA -> spike_train_ok trainB ->
  compute_nb_coincidence trainA trainB w
  = compute_nb_coincidence trainB trainA w.
Proof.
  intros HA HB. unfold compute_nb_coincidence.
  destruct (Qle_bool w 0); [reflexivity|].
  destruct (_get_border_probabilities w) as [[[lo hi] p_low] p_high].
  rewrite !coincidence_sweep_grid by assumption.
  now rewrite coincidence_grid_sym.
Qed.

(* ================================================================= *)
(** ** A train against itself *)

Lemma gaps_far_apart (hi : Z) (train : list Z) :
  0 <= hi ->
  Forall (fun g => hi < g) (gaps train) ->
  StronglySorted (fun a b => a + hi < b) train.
Proof.
  intros Hhi Hgaps. apply Sorted_StronglySorted.
  - intros a b c Hab Hbc. lia.
  - induction train as [|x rest IH].
    + constructor.
    + destruct rest as [|y rest].
      * constructor; constructor.
      * cbn [gaps] in Hgaps. inversion Hgaps as [|? ? Hxy Hrest]; subst.
        constructor.
        -- apply IH. exact Hrest.
        -- constructor. lia.
Qed.

Lemma coincidence_grid_cons (border_low border_high x y : Z)
    (train1 train2 : list Z) :
  coincidence_grid border_low border_high (x :: train1) (y :: train2)
  = tally_add (coincidence_class border_low border_high (x - y))
      (tally_add (coincidence_line border_low border_high x train2)
         (tally_add
            (tally_sum
               (map (fun a => coincidence_class border_low border_high (a - y))
                    train1))
            (coincidence_grid border_low border_high train1 train2))).
Proof.
  unfold coincidence_grid.
  change (map (fun a => coincidence_line border_low border_high a (y :: train2))
              (x :: train1))
    with (coincidence_line border_low border_high x (y :: train2)
          :: map (fun a =>
                    tally_add
                      (coincidence_class border_low border_high (a - y))
                      (coincidence_line border_low border_high a train2))
                 train1).
  cbn [tally_sum fold_right].
  fold (tally_sum
          (map (fun a =>
                  tally_add
                    (coincidence_class border_low border_high (a - y))
                    (coincidence_line border_low border_high a train2))
               train1)).
  rewrite (tally_sum_map_add
             (fun a => coincidence_class border_low border_high (a - y))
             (fun a => coincidence_line border_low border_high a train2)).
  change (coincidence_line border_low border_high x (y :: train2))
    with (tally_add (coincidence_class border_low border_high (x - y))
            (coincidence_line border_low border_high x train2)).
  now rewrite !tally_add_assoc.
Qed.

Lemma coincidence_grid_self (border_low border_high : Z) (train : list Z) :
  1 <= border_low -> 1 <= border_high ->
  StronglySorted (fun a b => a + border_high < b) train ->
  coincidence_grid border_low border_high train train
  = mk_tally (Z.of_nat (length train)) 0 0.
Proof.
  intros Hlo Hhi Hfar.
  induction Hfar as [|x rest Hrest IH Hx].
  - reflexivity.
  - rewrite coincidence_grid_cons, IH.
    rewrite coincidence_line_below.
    2:{ eapply Forall_impl; [|exact Hx]. cbv beta. intros; lia. }
    rewrite tally_sum_zero.
    2:{ eapply Forall_impl; [|exact Hx]. cbv beta. intros a Ha.
        apply coincidence_class_above. lia. }
    rewrite Z.sub_diag. unfold coincidence_class.
    destruct (Z.gtb_spec 0 border_high); [lia|].
    destruct (Z.ltb_spec 0 (- border_high)); [lia|].
    cbn [Z.abs].
    destruct (Z.eqb_spec 0 border_high); [lia|].
    destruct (Z.eqb_spec 0 border_low); [lia|].
    apply tally_eq; unfold tally_add, incr_plain, tally0;
      cbn [n_plain n_low n_high length]; lia.
Qed.

(** C7, as the code has it.  On an ascending train of sample indices, for
    every window [w >= 1] whose ceiling is below every inter-spike gap,
    the coincidence count of the train with itself is its length. *)
Theorem self_coincidences_count_spikes (train : list Z) (w : Q) :
  spike_train_ok train ->
  (1 <= w)%Q ->
  Forall (fun g => Qceiling w < g) (gaps train) ->
  (compute_nb_coincidence train train w
   == inject_Z (Z.of_nat (length train)))%Q.
Proof.
  intros Hok Hw Hgaps. unfold compute_nb_coincidence.
  assert (Hpos : (0 < w)%Q) by (apply Qlt_le_trans with 1%Q; [reflexivity|exact Hw]).
  rewrite (Qle_bool_pos w Hpos).
  destruct (border_probabilities_spec w) as (p_low & p_high & Hb & _ & _).
  rewrite Hb, coincidence_sweep_grid by exact Hok.
  assert (Hlo : 1 <= Qfloor w).
  { change 1 with (Qfloor 1). apply Qfloor_resp_le. exact Hw. }
  pose proof (floor_le_ceiling w) as Hle.
  rewrite coincidence_grid_self.
  - unfold weighted. cbn [n_plain n_low n_high]. unfold inject_Z at 2 3. ring.
  - exact Hlo.
  - lia.
  - apply gaps_far_apart; [lia|exact Hgaps].
Qed.

(* ================================================================= *)
(** ** Python scalar operations that succeed *)

Lemma py_div_ok (x y : Q) : ~ (y == 0)%Q -> py_div x y = Ok (x / y)%Q.
Proof.
  intros H. unfold py_div.
  destruct (Qeq_bool y 0) eqn:E; [|reflexivity].
  apply Qeq_bool_iff in E. contradiction.
Qed.

Lemma py_div_zero (x y : Q) : (y == 0)%Q -> py_div x y = Raise ZeroDivisionError.
Proof.
  intros H. unfold py_div. apply Qeq_bool_iff in H. now rewrite H.
Qed.

Lemma py_divR_ok (x y : R) : y <> 0%R -> py_divR x y = Ok (x / y)%R.
Proof.
  intros H. unfold py_divR. destruct (Req_dec_T y 0); [contradiction|reflexivity].
Qed.

Lemma math_sqrt_ok (x : R) : (0 <= x)%R -> math_sqrt x = Ok (sqrt x).
Proof.
  intros H. unfold math_sqrt. destruct (Rlt_dec x 0); [lra|reflexivity].
Qed.

Lemma ms_to_samples_lt (U : Utils) (a b : Q) :
  (0 < sampling_frequency U)%Q -> (a < b)%Q ->
  (ms_to_samples U a < ms_to_samples U b)%Q.
Proof.
  intros Hfs Hab. unfold ms_to_samples.
  apply Qmult_lt_compat_r; [exact Hfs|].
  apply Qmult_lt_compat_r; [reflexivity|exact Hab].
Qed.

Lemma ms_to_samples_nonneg (U : Utils) (a : Q) :
  (0 < sampling_frequency U)%Q -> (0 <= a)%Q -> (0 <= ms_to_samples U a)%Q.
Proof.
  intros Hfs Ha. unfold ms_to_samples.
  apply Qmult_le_0_compat; [|apply Qlt_le_weak; exact Hfs].
  apply Qmult_le_0_compat; [exact Ha|discriminate].
Qed.

Lemma length_pos_Q {A : Type} (l : list A) :
  l <> [] -> (0 < inject_Z (Z.of_nat (length l)))%Q.
Proof.
  intros H. destruct l as [|x l]; [contradiction|].
  change 0%Q with (inject_Z 0). rewrite <- Zlt_Qlt. simpl length. lia.
Qed.

(* ================================================================= *)
(** ** [estimate_contamination] *)

Lemma contamination_denominator (U : Utils) (spike_train : list Z) (t_c t_r : Q) :
  (0 < sampling_frequency U)%Q -> spike_train <> [] -> (t_c < t_r)%Q ->
  (0 < inject_Z (Z.of_nat (length spike_train)) ^ 2
       * (ms_to_samples U t_r - ms_to_samples U t_c))%Q.
Proof.
  intros Hfs Hne Hlt.
  pose proof (length_pos_Q spike_train Hne) as HN.
  pose proof (ms_to_samples_lt U t_c t_r Hfs Hlt) as Hs.
  apply Qmult_lt_0_compat.
  - change (?x ^ 2)%Q with (x * x)%Q. now apply Qmult_lt_0_compat.
  - unfold Qminus. rewrite <- (Qplus_opp_r (ms_to_samples U t_c)).
    apply Qplus_lt_l. exact Hs.
Qed.

Lemma contamination_denominator_nonzero (U : Utils) (spike_train : list Z)
    (t_c t_r : Q) :
  (0 < sampling_frequency U)%Q -> spike_train <> [] -> ~ (t_c == t_r)%Q ->
  ~ (inject_Z (Z.of_nat (length spike_train)) ^ 2
     * (ms_to_samples U t_r - ms_to_samples U t_c) == 0)%Q.
Proof.
  intros Hfs Hne Hneq H0.
  pose proof (length_pos_Q spike_train Hne) as HN.
  change (?x ^ 2)%Q with (x * x)%Q in H0.
  apply Qmult_integral in H0. destruct H0 as [H0|H0].
  - apply Qmult_integral in H0. destruct H0 as [H0|H0];
      rewrite H0 in HN; apply (Qlt_irrefl 0); exact HN.
  - destruct (Q_dec t_c t_r) as [[Hlt|Hgt]|Heq]; [| |contradiction].
    + pose proof (ms_to_samples_lt U t_c t_r Hfs Hlt). lra.
    + pose proof (ms_to_samples_lt U t_r t_c Hfs Hgt). lra.
Qed.

Lemma estimate_contamination_eq (U : Utils) (spike_train : list Z) (t_c t_r : Q) :
  (0 < sampling_frequency U)%Q -> spike_train <> [] -> ~ (t_c == t_r)%Q ->
  estimate_contamination U spike_train (t_c, t_r)
  = Ok (if Qlt_le_dec (contamination_D U spike_train (t_c, t_r)) 0
        then 1%R
        else (1 - sqrt (Q2R (contamination_D U spike_train (t_c, t_r))))%R).
Proof.
  intros Hfs Hne Hneq.
  unfold estimate_contamination. cbn [fst snd].
  rewrite py_div_ok by now apply contamination_denominator_nonzero.
  cbn [bind]. unfold contamination_D. cbn [fst snd].
  destruct (Qlt_le_dec _ 0) as [Hneg|Hpos].
  - reflexivity.
  - rewrite math_sqrt_ok; [reflexivity|].
    replace 0%R with (Q2R 0) by (unfold Q2R; simpl; lra).
    apply Qle_Rle. exact Hpos.
Qed.

Lemma Q2R_1 : Q2R 1 = 1%R.
Proof. unfold Q2R. simpl. lra. Qed.

Lemma Q2R_0 : Q2R 0 = 0%R.
Proof. unfold Q2R. simpl. lra. Qed.

(** The test vector of the specification: gaps of 50 samples against a
    refractory period of 30 samples. *)
Lemma contamination_D_test_vector (T : Z) :
  Qeq (contamination_D (mk_Utils 30000 T) [0; 50; 100; 150] (0, 1)%Q) 1.
Proof.
  unfold contamination_D. cbn [fst snd].
  assert (Hnv : Qeq (compute_nb_violations (astype_int64 [0; 50; 100; 150])
                       (ms_to_samples (mk_Utils 30000 T) 1)) 0)
    by (vm_compute; reflexivity).
  rewrite Hnv. unfold Qdiv. ring.
Qed.

(** C1.  For a non-empty train and [t_c < t_r], [estimate_contamination]
    turns the period into samples, takes
    [n_v = compute_nb_violations(train, t_r)], [N = len(train)],
    [T = t_max], [D = 1 - n_v*(T - 2*N*t_c)/(N^2*(t_r - t_c))], and
    returns [1.0] if [D < 0] and [1 - sqrt(D)] otherwise; on
    [[0, 50, 100, 150]] with the period [(0.0, 1.0)] ms at 30000 Hz it
    returns [0.0]. *)
Theorem estimate_contamination_formula (U : Utils) (spike_train : list Z)
    (t_c t_r : Q) :
  (0 < sampling_frequency U)%Q -> spike_train <> [] -> (t_c < t_r)%Q ->
  (let t_c_samples := (t_c * (1 # 1000) * sampling_frequency U)%Q in
   let t_r_samples := (t_r * (1 # 1000) * sampling_frequency U)%Q in
   let n_v := compute_nb_violations (astype_int64 spike_train) t_r_samples in
   let N := inject_Z (Z.of_nat (length spike_train)) in
   let T := inject_Z (t_max U) in
   let D := (1 - n_v * (T - 2 * N * t_c_samples)
                 / (N ^ 2 * (t_r_samples - t_c_samples)))%Q in
   estimate_contamination U spike_train (t_c, t_r)
   = Ok (if Qlt_le_dec D 0 then 1%R else (1 - sqrt (Q2R D))%R))
  /\ (forall T : Z,
        estimate_contamination (mk_Utils 30000 T) [0; 50; 100; 150] (0, 1)%Q
        = Ok 0%R).
Proof.
  intros Hfs Hne Hlt. split.
  - cbv zeta. rewrite estimate_contamination_eq; auto using Qlt_not_eq.
  - intros T.
    rewrite estimate_contamination_eq;
      [|reflexivity|discriminate|discriminate].
    pose proof (contamination_D_test_vector T) as HD.
    destruct (Qlt_le_dec _ 0) as [Hneg|Hpos].
    + exfalso. rewrite HD in Hneg. discriminate Hneg.
    + f_equal. rewrite (Qeq_eqR _ _ HD), Q2R_1, sqrt_1. lra.
Qed.

(** C6 at a failing input: four spikes 40 samples apart in a recording
    of 160 samples, with the period [(1.0, 2.0)] ms at 30000 Hz, give
    [D = 3/2] and a contamination [1 - sqrt(3/2)], which is negative. *)
Theorem estimate_contamination_negative :
  exists c : R,
    estimate_contamination (mk_Utils 30000 160) [0; 40; 80; 120] (1, 2)%Q
    = Ok c
    /\ c = (1 - sqrt (3 / 2))%R /\ (c < 0)%R.
Proof.
  exists (1 - sqrt (3 / 2))%R. split; [|split].
  - rewrite estimate_contamination_eq;
      [|reflexivity|discriminate|discriminate].
    assert (HD : Qeq (contamination_D (mk_Utils 30000 160) [0; 40; 80; 120]
                        (1, 2)%Q) (3 # 2)) by (vm_compute; reflexivity).
    destruct (Qlt_le_dec _ 0) as [Hneg|Hpos].
    + exfalso. rewrite HD in Hneg. discriminate Hneg.
    + rewrite (Qeq_eqR _ _ HD).
      replace (Q2R (3 # 2)) with (3 / 2)%R by (unfold Q2R; simpl; lra).
      reflexivity.
  - reflexivity.
  - assert (H : (1 < sqrt (3 / 2))%R).
    { rewrite <- sqrt_1 at 1. apply sqrt_lt_1; lra. }
    lra.
Qed.

(* ================================================================= *)
(** ** Bounds on the violation count *)

Lemma inject_Z_minus (x y : Z) : inject_Z (x - y) = (inject_Z x - inject_Z y)%Q.
Proof.
  unfold Z.sub, Qminus. now rewrite inject_Z_plus, inject_Z_opp.
Qed.

Lemma violations_row_values_bound (border_low border_high x : Z)
    (ys : list Z) (c : tally) :
  tally_nonneg c ->
  tally_nonneg (violations_row_values border_low border_high x ys c)
  /\ tally_total (violations_row_values border_low border_high x ys c)
     <= tally_total c + Z.of_nat (length ys).
Proof.
  revert c. induction ys as [|y ys IH]; intros c Hc.
  - simpl. split; [exact Hc|lia].
  - cbn [violations_row_values length].
    destruct (_ >? _).
    + split; [exact Hc|lia].
    + unfold tally_nonneg, tally_total in *.
      destruct (_ =? border_high); [|destruct (_ =? border_low)];
        match goal with
        | |- context [violations_row_values _ _ _ _ ?c'] =>
            destruct (IH c') as [Hn Ht];
            [unfold incr_high, incr_low, incr_plain;
             cbn [n_plain n_low n_high]; lia|];
            split; [exact Hn|];
            revert Ht; unfold incr_high, incr_low, incr_plain;
            cbn [n_plain n_low n_high]; lia
        end.
Qed.

Lemma violations_sweep_values_bound (border_low border_high : Z)
    (train : list Z) (c : tally) :
  tally_nonneg c ->
  tally_nonneg (violations_sweep_values border_low border_high train c)
  /\ 2 * tally_total (violations_sweep_values border_low border_high train c)
     <= 2 * tally_total c
        + Z.of_nat (length train) * (Z.of_nat (length train) - 1).
Proof.
  revert c. induction train as [|x rest IH]; intros c Hc.
  - simpl. split; [exact Hc|lia].
  - cbn [violations_sweep_values].
    destruct (violations_row_values_bound border_low border_high x rest c Hc)
      as [Hn Ht].
    destruct (IH _ Hn) as [Hn' Ht'].
    split; [exact Hn'|].
    cbn [length]. rewrite Nat2Z.inj_succ. nia.
Qed.

Lemma violations_sweep_bound (border_low border_high : Z) (train : list Z) :
  tally_nonneg (violations_sweep train border_low border_high)
  /\ 2 * tally_total (violations_sweep train border_low border_high)
     <= Z.of_nat (length train) * (Z.of_nat (length train) - 1).
Proof.
  rewrite violations_sweep_by_values.
  destruct (violations_sweep_values_bound border_low border_high train tally0)
    as [Hn Ht].
  - unfold tally_nonneg, tally0. simpl. lia.
  - split; [exact Hn|]. revert Ht. unfold tally_total at 2, tally0.
    cbn [n_plain n_low n_high]. lia.
Qed.

(** Both boundary weights are probabilities. *)
Lemma spec_p_high_bounds (t : Q) : (0 <= spec_p_high t <= 1)%Q.
Proof.
  unfold spec_p_high.
  pose proof (Qle_ceiling t) as H1.
  pose proof (Qceiling_lt t) as H2.
  rewrite inject_Z_minus in H2.
  set (h := inject_Z (Qceiling t)) in *.
  change (inject_Z 1) with 1%Q in H2.
  change ((t - h + 1) ^ 2)%Q with ((t - h + 1) * (t - h + 1))%Q.
  split; nra.
Qed.

Lemma spec_p_low_bounds (t : Q) : (0 < t)%Q -> (0 <= spec_p_low t <= 1)%Q.
Proof.
  intros Ht. unfold spec_p_low.
  pose proof (Qfloor_le t) as H1.
  pose proof (Qlt_floor t) as H2.
  rewrite inject_Z_plus in H2.
  change (inject_Z 1) with 1%Q in H2.
  destruct (Z.eqb_spec (Qfloor t) 0) as [H0|H0].
  - rewrite H0 in *. change (inject_Z 0) with 0%Q in *.
    change ((t - 0) ^ 2)%Q with ((t - 0) * (t - 0))%Q.
    change ((1 - t) ^ 2)%Q with ((1 - t) * (1 - t))%Q.
    split; nra.
  - set (l := inject_Z (Qfloor t)) in *.
    change ((t - l) ^ 2)%Q with ((t - l) * (t - l))%Q.
    split; nra.
Qed.

Lemma weighted_bounds (p_low p_high : Q) (c : tally) :
  (0 <= p_low <= 1)%Q -> (0 <= p_high <= 1)%Q -> tally_nonneg c ->
  (0 <= weighted p_low p_high c <= inject_Z (tally_total c))%Q.
Proof.
  intros Hl Hh (Hp & Hlo & Hhi). unfold weighted, tally_total.
  rewrite !inject_Z_plus.
  assert (H1 : (0 <= inject_Z (n_plain c))%Q)
    by (change 0%Q with (inject_Z 0); now rewrite <- Zle_Qle).
  assert (H2 : (0 <= inject_Z (n_low c))%Q)
    by (change 0%Q with (inject_Z 0); now rewrite <- Zle_Qle).
  assert (H3 : (0 <= inject_Z (n_high c))%Q)
    by (change 0%Q with (inject_Z 0); now rewrite <- Zle_Qle).
  split; nra.
Qed.

(** At most every pair is a violation. *)
Lemma compute_nb_violations_bounds (train : list Z) (max_time : Q) :
  (0 <= compute_nb_violations train max_time)%Q
  /\ (2 * compute_nb_violations train max_time
      <= inject_Z (Z.of_nat (length train))
         * (inject_Z (Z.of_nat (length train)) - 1))%Q.
Proof.
  unfold compute_nb_violations.
  destruct (Qle_bool max_time 0) eqn:E.
  - split; [apply Qle_refl|].
    destruct train as [|x train].
    + discriminate.
    + assert (H : (1 <= inject_Z (Z.of_nat (length (x :: train))))%Q).
      { change 1%Q with (inject_Z 1). rewrite <- Zle_Qle. simpl length. lia. }
      nra.
  - apply Qle_bool_false in E.
    destruct (border_probabilities_spec max_time)
      as (p_low & p_high & Hb & Hlow & Hhigh).
    rewrite Hb.
    destruct (violations_sweep_bound (Qfloor max_time) (Qceiling max_time) train)
      as [Hn Ht].
    destruct (weighted_bounds p_low p_high
                (violations_sweep train (Qfloor max_time) (Qceiling max_time)))
      as [Hw0 Hw1].
    + rewrite Hlow. now apply spec_p_low_bounds.
    + rewrite Hhigh. apply spec_p_high_bounds.
    + exact Hn.
    + split; [exact Hw0|].
      apply Qle_trans
        with (2 * inject_Z (tally_total
                (violations_sweep train (Qfloor max_time) (Qceiling max_time))))%Q.
      * nra.
      * change 2%Q with (inject_Z 2). change 1%Q with (inject_Z 1).
        rewrite <- inject_Z_minus, <- !inject_Z_mult, <- Zle_Qle. exact Ht.
Qed.

(* ================================================================= *)
(** ** A fully contaminated reference unit *)

(** Pure arithmetic behind [contamination_one_window]: [v] violations
    among [N] spikes, at most one per pair. *)
Lemma saturated_window (v N T tc tr : Q) :
  (0 <= v)%Q -> (2 * v <= N * (N - 1))%Q -> (1 <= N)%Q ->
  (0 <= tc)%Q -> (tc < tr)%Q ->
  (N * N * (tr - tc) <= v * (T - 2 * N * tc))%Q ->
  (2 * tr < T)%Q.
Proof.
  intros Hv Hpairs HN Htc Hlt Hsat.
  assert (Hd : (0 < N * N * (tr - tc))%Q) by nra.
  assert (HvX : (0 < v * (T - 2 * N * tc))%Q) by lra.
  assert (Hvpos : (0 < v)%Q).
  { destruct (Qlt_le_dec 0 v) as [H|H]; [exact H|].
    assert (H0 : (v == 0)%Q) by lra. rewrite H0 in HvX. lra. }
  assert (HX : (0 < T - 2 * N * tc)%Q) by nra.
  assert (H1 : (2 * (N * N * (tr - tc)) <= N * (N - 1) * (T - 2 * N * tc))%Q)
    by nra.
  assert (H2 : (N * (2 * N * (tr - tc)) <= N * ((N - 1) * (T - 2 * N * tc)))%Q)
    by lra.
  assert (H3 : (2 * N * (tr - tc) <= (N - 1) * (T - 2 * N * tc))%Q) by nra.
  assert (H4 : (N * (2 * (tr - tc)) < N * (T - 2 * N * tc))%Q) by nra.
  assert (H5 : (2 * (tr - tc) < T - 2 * N * tc)%Q) by nra.
  nra.
Qed.

(** When [estimate_contamination] returns exactly 1 (so [D <= 0]) for a
    censored period [t_c >= 0], twice the refractory period is shorter
    than the recording. *)
Lemma contamination_one_window (U : Utils) (spike_train : list Z)
    (t_c t_r : Q) :
  (0 < sampling_frequency U)%Q -> spike_train <> [] ->
  (0 <= t_c)%Q -> (t_c < t_r)%Q ->
  estimate_contamination U spike_train (t_c, t_r) = Ok 1%R ->
  (2 * ms_to_samples U t_r < inject_Z (t_max U))%Q.
Proof.
  intros Hfs Hne Htc Hlt Hone.
  rewrite estimate_contamination_eq in Hone by auto using Qlt_not_eq.
  assert (HD : (contamination_D U spike_train (t_c, t_r) <= 0)%Q).
  { destruct (Qlt_le_dec _ 0) as [Hneg|Hpos].
    - apply Qlt_le_weak. exact Hneg.
    - injection Hone as Hone.
      assert (Hs : sqrt (Q2R (contamination_D U spike_train (t_c, t_r))) = 0%R)
        by lra.
      apply sqrt_eq_0 in Hs.
      + rewrite <- Q2R_0 in Hs. apply eqR_Qeq in Hs. rewrite Hs. apply Qle_refl.
      + rewrite <- Q2R_0. apply Qle_Rle. exact Hpos. }
  unfold contamination_D in HD. cbn [fst snd] in HD.
  pose proof (contamination_denominator U spike_train t_c t_r Hfs Hne Hlt) as Hden.
  destruct (compute_nb_violations_bounds (astype_int64 spike_train)
              (ms_to_samples U t_r)) as [Hv0 Hv1].
  unfold astype_int64 in Hv1. rewrite length_map in Hv1.
  fold (astype_int64 spike_train) in Hv1.
  set (v := compute_nb_violations (astype_int64 spike_train)
              (ms_to_samples U t_r)) in *.
  set (N := inject_Z (Z.of_nat (length spike_train))) in *.
  set (T := inject_Z (t_max U)) in *.
  set (tc := ms_to_samples U t_c) in *.
  set (tr := ms_to_samples U t_r) in *.
  apply (saturated_window v N T tc tr).
  - exact Hv0.
  - exact Hv1.
  - subst N. change 1%Q with (inject_Z 1). rewrite <- Zle_Qle.
    destruct spike_train; [contradiction|simpl length; lia].
  - subst tc. now apply ms_to_samples_nonneg.
  - subst tc tr. now apply ms_to_samples_lt.
  - change (N ^ 2)%Q with (N * N)%Q in *.
    assert (Hq : (1 <= v * (T - 2 * N * tc) / (N * N * (tr - tc)))%Q) by lra.
    apply (Qmult_le_compat_r _ _ (N * N * (tr - tc))) in Hq;
      [|apply Qlt_le_weak; exact Hden].
    rewrite Qmult_1_l in Hq.
    rewrite (Qmult_comm (_ / _)), Qmult_div_r in Hq; [exact Hq|].
    intros H0. rewrite H0 in Hden. apply (Qlt_irrefl 0). exact Hden.
Qed.

(* ================================================================= *)
(** ** [estimate_cross_contamination] *)

Section CrossContaminationFacts.

Variable U : Utils.
Variable binom_cdf : R -> R -> R -> R.
Variable norm_cdf : R -> R -> R -> R.

Let ecc := estimate_cross_contamination U binom_cdf norm_cdf.

(** The function once [estimate_contamination] has returned [C1]. *)
Lemma cross_contamination_after_C1 (train1 train2 : list Z)
    (t_c t_r limit : Q) (C1 : R) :
  Forall sample_index train1 -> Forall sample_index train2 ->
  estimate_contamination U train1 (t_c, t_r) = Ok C1 ->
  ecc train1 train2 (t_c, t_r) limit
  = (estimation <-
       (if Req_dec_T C1 1 then Ok NegInf
        else
          q <- py_div (cross_violations U train1 train2 t_c t_r
                       * inject_Z (t_max U))%Q
                      (2 * inject_Z (Z.of_nat (length train1))
                       * inject_Z (Z.of_nat (length train2))
                       * ms_to_samples U t_r)%Q ;;
          r <- py_divR (Q2R q - 1)%R (C1 - 1)%R ;;
          Ok (Finite (1 - r)%R)) ;;
     p <- py_div (2 * ms_to_samples U t_r)%Q (inject_Z (t_max U)) ;;
     pv <- p_value_test binom_cdf norm_cdf
             (cross_violations U train1 train2 t_c t_r)
             (null_n (length train1) (length train2) C1 limit) (Q2R p) ;;
     Ok (estimation, pv)).
Proof.
  intros H1 H2 HC1.
  unfold ecc, estimate_cross_contamination.
  rewrite !astype_int64_id by assumption.
  cbn [fst snd]. rewrite HC1. cbn [bind].
  fold (cross_violations U train1 train2 t_c t_r).
  fold (null_n (length train1) (length train2) C1 limit).
  destruct (Req_dec_T C1 1) as [Hone|Hone].
  - cbn [bind].
    destruct (py_div _ (inject_Z (t_max U))) as [p|e]; [|reflexivity].
    cbn [bind]. unfold p_value_test.
    destruct (Rlt_dec _ 30); [reflexivity|].
    destruct (math_sqrt _); reflexivity.
  - destruct (py_div _ _) as [q|e]; [|reflexivity]. cbn [bind].
    destruct (py_divR _ _) as [r|e]; [|reflexivity]. cbn [bind].
    destruct (py_div _ _) as [p|e]; [|reflexivity].
    cbn [bind]. unfold p_value_test.
    destruct (Rlt_dec _ 30); [reflexivity|].
    destruct (math_sqrt _); reflexivity.
Qed.


Lemma Q2R_div_le_1 (a b : Q) :
  (0 < b)%Q -> (a <= b)%Q -> (Q2R (a / b) <= 1)%R.
Proof.
  intros Hb Hab. rewrite <- Q2R_1. apply Qle_Rle.
  apply Qle_shift_div_r; [exact Hb|]. now rewrite Qmult_1_l.
Qed.

(** The last step, [p = 2*t_r/T] and the test: it returns when [T] is
    not 0 and [n*p < 30] or [p <= 1], and raises otherwise. *)
Lemma p_step_returns (estimation : estimate) (n_violations : Q) (n : R)
    (x T : Q) :
  ~ (T == 0)%Q ->
  (n * Q2R (x / T) < 30)%R \/ (Q2R (x / T) <= 1)%R ->
  exists p_value : R,
    (p <- py_div x T ;;
     pv <- p_value_test binom_cdf norm_cdf n_violations n (Q2R p) ;;
     Ok (estimation, pv))
    = Ok (estimation, p_value).
Proof.
  intros HT Hp. rewrite py_div_ok by exact HT. cbn [bind].
  unfold p_value_test.
  destruct (Rlt_dec (n * Q2R (x / T)) 30) as [Hlt|Hge].
  - cbn [bind]. eexists. reflexivity.
  - rewrite math_sqrt_ok.
    + cbn [bind]. eexists. reflexivity.
    + destruct Hp as [Hp|Hp]; [contradiction|nra].
Qed.

Lemma p_step_raises (estimation : estimate) (n_violations : Q) (n : R)
    (x T : Q) :
  ~ (~ (T == 0)%Q
     /\ ((n * Q2R (x / T) < 30)%R \/ (Q2R (x / T) <= 1)%R)) ->
  exists e : exn,
    (p <- py_div x T ;;
     pv <- p_value_test binom_cdf norm_cdf n_violations n (Q2R p) ;;
     Ok (estimation, pv))
    = Raise e.
Proof.
  intros Hnot. destruct (Qeq_dec T 0) as [H0|H0].
  - rewrite py_div_zero by exact H0. eexists. reflexivity.
  - rewrite py_div_ok by exact H0. cbn [bind]. unfold p_value_test.
    destruct (Rlt_dec (n * Q2R (x / T)) 30) as [Hlt|Hge].
    + exfalso. apply Hnot. split; [exact H0|left; exact Hlt].
    + unfold math_sqrt.
      destruct (Rlt_dec (n * Q2R (x / T) * (1 - Q2R (x / T))) 0)
        as [Hneg|Hpos].
      * cbn [bind]. eexists. reflexivity.
      * exfalso. apply Hnot. split; [exact H0|right]. nra.
Qed.

Lemma p_step_value_error (estimation : estimate) (n_violations : Q) (n : R)
    (x T : Q) :
  ~ (T == 0)%Q -> (30 <= n * Q2R (x / T))%R -> (1 < Q2R (x / T))%R ->
  (p <- py_div x T ;;
   pv <- p_value_test binom_cdf norm_cdf n_violations n (Q2R p) ;;
   Ok (estimation, pv))
  = Raise ValueError.
Proof.
  intros HT Hnp Hp. rewrite py_div_ok by exact HT. cbn [bind].
  unfold p_value_test.
  destruct (Rlt_dec (n * Q2R (x / T)) 30) as [Hlt|_]; [lra|].
  unfold math_sqrt.
  destruct (Rlt_dec (n * Q2R (x / T) * (1 - Q2R (x / T))) 0) as [_|Hpos].
  - reflexivity.
  - exfalso. apply Hpos. nra.
Qed.

End CrossContaminationFacts.

(** The two plain outcomes of [estimate_contamination]. *)
Lemma contamination_is_zero (U : Utils) (spike_train : list Z) (t_c t_r : Q) :
  (0 < sampling_frequency U)%Q -> spike_train <> [] -> ~ (t_c == t_r)%Q ->
  (contamination_D U spike_train (t_c, t_r) == 1)%Q ->
  estimate_contamination U spike_train (t_c, t_r) = Ok 0%R.
Proof.
  intros Hfs Hne Hneq HD. rewrite estimate_contamination_eq by assumption.
  destruct (Qlt_le_dec _ 0) as [Hneg|Hpos].
  - exfalso. rewrite HD in Hneg. discriminate Hneg.
  - f_equal. rewrite (Qeq_eqR _ _ HD), Q2R_1, sqrt_1. lra.
Qed.

Lemma contamination_is_one (U : Utils) (spike_train : list Z) (t_c t_r : Q) :
  (0 < sampling_frequency U)%Q -> spike_train <> [] -> ~ (t_c == t_r)%Q ->
  (contamination_D U spike_train (t_c, t_r) < 0)%Q ->
  estimate_contamination U spike_train (t_c, t_r) = Ok 1%R.
Proof.
  intros Hfs Hne Hneq HD. rewrite estimate_contamination_eq by assumption.
  destruct (Qlt_le_dec _ 0) as [Hneg|Hpos]; [reflexivity|].
  exfalso. apply (Qlt_irrefl 0). eapply Qle_lt_trans; eassumption.
Qed.

(** C3, as the code has it.  For a non-empty train A, trains of sample
    indices and a period [t_c < t_r], with [C1] the contamination of A,
    [n_violations = count_coincidences(A, B, t_r) - count_coincidences(A, B, t_c)],
    [n = N1*N2*((1 - C1)*limit + C1)] and [p = 2*t_r/T]: the last step of
    the function, the p-value, can be computed when [T <> 0] and
    [n*p < 30] or [p <= 1].  When [C1 = 1] the function returns the
    estimate [-inf] if the last step can be computed and raises if not;
    it can always be computed when [t_c >= 0].  When [C1 <> 1] the
    function returns the estimate
    [1 - ((n_violations*T)/(2*N1*N2*t_r) - 1)/(C1 - 1)] if B is not
    empty, [t_r] is not 0 and the last step can be computed, and raises
    if not. *)
Theorem cross_contamination_estimate (U : Utils)
    (binom_cdf norm_cdf : R -> R -> R -> R) (trainA trainB : list Z)
    (t_c t_r limit : Q) :
  (0 < sampling_frequency U)%Q ->
  trainA <> [] -> Forall sample_index trainA -> Forall sample_index trainB ->
  (t_c < t_r)%Q ->
  let t_c_samples := (t_c * (1 # 1000) * sampling_frequency U)%Q in
  let t_r_samples := (t_r * (1 # 1000) * sampling_frequency U)%Q in
  let n_violations :=
    (compute_nb_coincidence trainA trainB t_r_samples
     - compute_nb_coincidence trainA trainB t_c_samples)%Q in
  let N1 := inject_Z (Z.of_nat (length trainA)) in
  let N2 := inject_Z (Z.of_nat (length trainB)) in
  let T := inject_Z (t_max U) in
  exists C1 : R,
    estimate_contamination U trainA (t_c, t_r) = Ok C1
    /\ let n := (Q2R N1 * Q2R N2 * ((1 - C1) * Q2R limit + C1))%R in
       let p := Q2R (2 * t_r_samples / T) in
       let p_value_computed :=
         ~ (T == 0)%Q /\ ((n * p < 30)%R \/ (p <= 1)%R) in
       (C1 = 1%R ->
        (p_value_computed ->
         exists p_value,
           estimate_cross_contamination U binom_cdf norm_cdf trainA trainB
             (t_c, t_r) limit
           = Ok (NegInf, p_value))
        /\ (~ p_value_computed ->
            exists e,
              estimate_cross_contamination U binom_cdf norm_cdf trainA trainB
                (t_c, t_r) limit
              = Raise e)
        /\ ((0 <= t_c)%Q -> p_value_computed))
       /\ (C1 <> 1%R ->
           (trainB <> [] -> ~ (t_r_samples == 0)%Q -> p_value_computed ->
            exists p_value,
              estimate_cross_contamination U binom_cdf norm_cdf trainA trainB
                (t_c, t_r) limit
              = Ok (Finite
                      (1 - (Q2R (n_violations * T
                                 / (2 * N1 * N2 * t_r_samples)) - 1)
                           / (C1 - 1))%R,
                    p_value))
           /\ (trainB = [] \/ (t_r_samples == 0)%Q \/ ~ p_value_computed ->
               exists e,
                 estimate_cross_contamination U binom_cdf norm_cdf
                   trainA trainB (t_c, t_r) limit
                 = Raise e)).
Proof.
  intros Hfs HneA HA HB Hlt. cbv zeta.
  fold (ms_to_samples U t_c). fold (ms_to_samples U t_r).
  pose proof (estimate_contamination_eq U trainA t_c t_r Hfs HneA
                (Qlt_not_eq _ _ Hlt)) as HC1.
  eexists. split; [exact HC1|].
  set (C1 := if Qlt_le_dec _ 0 then _ else _) in *.
  rewrite (cross_contamination_after_C1 U binom_cdf norm_cdf
             trainA trainB t_c t_r limit C1 HA HB HC1).
  unfold null_n, cross_violations.
  pose proof (length_pos_Q trainA HneA) as HN1.
  split.
  - intros Hone.
    destruct (Req_dec_T C1 1) as [_|Hn]; [|contradiction]. cbn [bind].
    split; [|split].
    + intros [HT Hp]. now apply p_step_returns.
    + intros Hnot. now apply p_step_raises.
    + intros Htc. rewrite Hone in HC1.
      pose proof (contamination_one_window U trainA t_c t_r
                    Hfs HneA Htc Hlt HC1) as Hwin.
      assert (Htr : (0 < ms_to_samples U t_r)%Q).
      { apply Qle_lt_trans with (ms_to_samples U t_c).
        - now apply ms_to_samples_nonneg.
        - now apply ms_to_samples_lt. }
      split.
      * intros H0. rewrite H0 in Hwin. lra.
      * right. apply Q2R_div_le_1; lra.
  - intros Hone.
    destruct (Req_dec_T C1 1) as [Hy|_]; [contradiction|].
    split.
    + intros HneB Htr [HT Hp].
      pose proof (length_pos_Q trainB HneB) as HN2.
      rewrite py_div_ok.
      2:{ intros H0. apply Qmult_integral in H0.
          destruct H0 as [H0|H0]; [|contradiction].
          assert (Hpos : (0 < 2 * inject_Z (Z.of_nat (length trainA))
                              * inject_Z (Z.of_nat (length trainB)))%Q).
          { apply Qmult_lt_0_compat; [|exact HN2].
            apply Qmult_lt_0_compat; [reflexivity|exact HN1]. }
          rewrite H0 in Hpos. apply (Qlt_irrefl 0). exact Hpos. }
      cbn [bind]. rewrite py_divR_ok by lra. cbn [bind].
      now apply p_step_returns.
    + intros [HB0|[Htr|Hnot]].
      * subst trainB. rewrite py_div_zero.
        -- cbn [bind]. eexists. reflexivity.
        -- cbn [length Z.of_nat]. change (inject_Z 0) with 0%Q. ring.
      * rewrite py_div_zero.
        -- cbn [bind]. eexists. reflexivity.
        -- rewrite Htr. ring.
      * destruct (py_div _ (2 * _ * _ * _)%Q) as [q|e].
        -- cbn [bind]. rewrite py_divR_ok by lra. cbn [bind].
           now apply p_step_raises.
        -- cbn [bind]. eexists. reflexivity.
Qed.


(** C3 as stated fails on three kinds of input.  A non-empty train A
    with [C1 = 0] against an empty train B divides by [2*N1*N2*t_r = 0].
    With a negative censored period, [C1 = 1] can go with a recording
    shorter than twice the refractory period: here [T = 8], [t_r = 30],
    [n = 8] and [p = 7.5], so the normal approximation takes the square
    root of [n*p*(1 - p) < 0].  And with [C1 = 0] and two non-empty
    trains the same step fails for [T = 1]: [n = 0.6], [p = 60]. *)
Lemma cross_contamination_error_inputs :
  (estimate_contamination (mk_Utils 30000 30000) [0] (0, 1)%Q = Ok 0%R
   /\ estimate_cross_contamination (mk_Utils 30000 30000)
        (fun _ _ _ => 0%R) (fun _ _ _ => 0%R) [0] [] (0, 1)%Q (3 # 10)
      = Raise ZeroDivisionError)
  /\ (estimate_contamination (mk_Utils 30000 8) [0; 1; 2; 3] (- (1), 1)%Q
      = Ok 1%R
      /\ estimate_cross_contamination (mk_Utils 30000 8)
           (fun _ _ _ => 0%R) (fun _ _ _ => 0%R) [0; 1; 2; 3] [0; 100]
           (- (1), 1)%Q (3 # 10)
         = Raise ValueError)
  /\ (estimate_contamination (mk_Utils 30000 1) [0] (0, 1)%Q = Ok 0%R
      /\ estimate_cross_contamination (mk_Utils 30000 1)
           (fun _ _ _ => 0%R) (fun _ _ _ => 0%R) [0] [0; 100]
           (0, 1)%Q (3 # 10)
         = Raise ValueError).
Proof.
  assert (HA : estimate_contamination (mk_Utils 30000 30000) [0] (0, 1)%Q
               = Ok 0%R).
  { apply contamination_is_zero;
      [reflexivity|discriminate|discriminate|vm_compute; reflexivity]. }
  assert (HB : estimate_contamination (mk_Utils 30000 8) [0; 1; 2; 3]
                 (- (1), 1)%Q = Ok 1%R).
  { apply contamination_is_one;
      [reflexivity|discriminate|discriminate|vm_compute; reflexivity]. }
  assert (HC : estimate_contamination (mk_Utils 30000 1) [0] (0, 1)%Q
               = Ok 0%R).
  { apply contamination_is_zero;
      [reflexivity|discriminate|discriminate|vm_compute; reflexivity]. }
  split; [|split]; (split; [assumption|]).
  - rewrite (cross_contamination_after_C1 _ _ _ [0] [] 0 1 (3 # 10) 0%R).
    + destruct (Req_dec_T 0 1) as [H|_]; [lra|].
      rewrite py_div_zero by reflexivity. reflexivity.
    + repeat constructor; unfold sample_index; lia.
    + constructor.
    + exact HA.
  - rewrite (cross_contamination_after_C1 _ _ _ [0; 1; 2; 3] [0; 100]
               (- (1)) 1 (3 # 10) 1%R).
    + destruct (Req_dec_T 1 1) as [_|H]; [|contradiction]. cbn [bind].
      assert (Hp : Q2R (2 * ms_to_samples (mk_Utils 30000 8) 1
                        / inject_Z (t_max (mk_Utils 30000 8)))
                   = (15 / 2)%R).
      { rewrite (Qeq_eqR _ (15 # 2)) by (vm_compute; reflexivity).
        unfold Q2R. simpl. lra. }
      apply p_step_value_error; [discriminate| |]; rewrite Hp.
      * unfold null_n, Q2R. simpl. lra.
      * lra.
    + repeat constructor; unfold sample_index; lia.
    + repeat constructor; unfold sample_index; lia.
    + exact HB.
  - rewrite (cross_contamination_after_C1 _ _ _ [0] [0; 100]
               0 1 (3 # 10) 0%R).
    + destruct (Req_dec_T 0 1) as [H|_]; [lra|].
      rewrite py_div_ok by discriminate. cbn [bind].
      rewrite py_divR_ok by lra. cbn [bind].
      assert (Hp : Q2R (2 * ms_to_samples (mk_Utils 30000 1) 1
                        / inject_Z (t_max (mk_Utils 30000 1)))
                   = 60%R).
      { rewrite (Qeq_eqR _ 60) by (vm_compute; reflexivity).
        unfold Q2R. simpl. lra. }
      apply p_step_value_error; [discriminate| |]; rewrite Hp.
      * unfold null_n, Q2R. simpl. lra.
      * lra.
    + repeat constructor; unfold sample_index; lia.
    + repeat constructor; unfold sample_index; lia.
    + exact HC.
Qed.

(** C7 as stated fails: the gap of [[0, 2]] is 2 and the window 1.5 is
    below it, but both cross pairs sit at [ceil(1.5) = 2] and count for
    [p_high = 1/8] each. *)
Lemma self_coincidences_fractional_window :
  spike_train_ok [0; 2]
  /\ below_min_gap (3 # 2) [0; 2]
  /\ Qeq (compute_nb_coincidence [0; 2] [0; 2] (3 # 2)) (9 # 4)
  /\ ~ Qeq (compute_nb_coincidence [0; 2] [0; 2] (3 # 2))
           (inject_Z (Z.of_nat (length [0; 2]))).
Proof.
  split; [|split; [|split]].
  - split; repeat constructor; unfold sample_index; lia.
  - repeat constructor.
  - vm_compute. reflexivity.
  - intros H. vm_compute in H. discriminate H.
Qed.

(** The other windows below the gap on which the count is not the
    length: a window of zero, and a window inside [(0, 1)]. *)
Example self_coincidences_zero_window :
  compute_nb_coincidence [0; 2] [0; 2] 0 = 0%Q.
Proof. reflexivity. Qed.

Example self_coincidences_half_window :
  Qeq (compute_nb_coincidence [0; 2] [0; 2] (1 # 2)) (3 # 2).
Proof. vm_compute. reflexivity. Qed.

(* ================================================================= *)
(** ** Input validation *)

(** C9 as stated fails: [estimate_contamination] returns a number on a
    descending train, on a train with a negative time, and on a period
    with [t_c > t_r]. *)
Lemma estimate_contamination_unvalidated :
  (~ Sorted Z.le [150; 100; 50; 0]
   /\ estimate_contamination (mk_Utils 30000 30000) [150; 100; 50; 0] (0, 1)%Q
      = Ok 1%R)
  /\ (~ Forall sample_index [-100; 0; 100]
      /\ estimate_contamination (mk_Utils 30000 30000) [-100; 0; 100] (0, 1)%Q
         = Ok 0%R)
  /\ estimate_contamination (mk_Utils 30000 30000) [0; 50; 100; 150] (2, 1)%Q
     = Ok 0%R.
Proof.
  split; [|split].
  - split.
    + intros H. inversion H as [|? ? _ Hd]; subst.
      inversion Hd as [|? ? Hle]; subst. lia.
    + rewrite estimate_contamination_eq;
        [|reflexivity|discriminate|discriminate].
      assert (HD : Qeq (contamination_D (mk_Utils 30000 30000)
                          [150; 100; 50; 0] (0, 1)%Q) (- 374 # 1))
        by (vm_compute; reflexivity).
      destruct (Qlt_le_dec _ 0) as [Hneg|Hpos]; [reflexivity|].
      exfalso. rewrite HD in Hpos. apply Hpos. reflexivity.
  - split.
    + intros H. inversion H as [|? ? Hx _]; subst.
      unfold sample_index in Hx. lia.
    + rewrite estimate_contamination_eq;
        [|reflexivity|discriminate|discriminate].
      assert (HD : Qeq (contamination_D (mk_Utils 30000 30000)
                          [-100; 0; 100] (0, 1)%Q) 1)
        by (vm_compute; reflexivity).
      destruct (Qlt_le_dec _ 0) as [Hneg|Hpos].
      * exfalso. rewrite HD in Hneg. discriminate Hneg.
      * f_equal. rewrite (Qeq_eqR _ _ HD), Q2R_1, sqrt_1. lra.
  - rewrite estimate_contamination_eq;
      [|reflexivity|discriminate|discriminate].
    assert (HD : Qeq (contamination_D (mk_Utils 30000 30000)
                        [0; 50; 100; 150] (2, 1)%Q) 1)
      by (vm_compute; reflexivity).
    destruct (Qlt_le_dec _ 0) as [Hneg|Hpos].
    + exfalso. rewrite HD in Hneg. discriminate Hneg.
    + f_equal. rewrite (Qeq_eqR _ _ HD), Q2R_1, sqrt_1. lra.
Qed.

(** C9, as the code has it.  [compute_similarity_matrix] checks the
    dimensions at entry: it fails with an assertion error, before any
    computation, exactly when the shape of the coincidence matrix is not
    [(len(n_spikes1), len(n_spikes2))].  [estimate_contamination] checks
    nothing at entry: it returns a number for every non-empty train,
    whatever its order and signs, and every period with [t_c <> t_r]. *)
Theorem input_validation_scope :
  (forall (U : Utils) (coincidence_matrix : ndarray2 Z)
          (n_spikes1 n_spikes2 : list Z) (window : Q),
      (shape coincidence_matrix <> (length n_spikes1, length n_spikes2) ->
       compute_similarity_matrix U coincidence_matrix n_spikes1 n_spikes2 window
       = Raise AssertionError)
      /\ (shape coincidence_matrix = (length n_spikes1, length n_spikes2) ->
          exists similarity_matrix,
            compute_similarity_matrix U coincidence_matrix n_spikes1 n_spikes2
              window
            = Ok similarity_matrix
            /\ shape similarity_matrix = shape coincidence_matrix))
  /\ (forall (U : Utils) (spike_train : list Z) (t_c t_r : Q),
        (0 < sampling_frequency U)%Q -> spike_train <> [] ->
        ~ (t_c == t_r)%Q ->
        exists c : R, estimate_contamination U spike_train (t_c, t_r) = Ok c).
Proof.
  split.
  - intros U M n1 n2 w. unfold compute_similarity_matrix.
    destruct (shape M) as [r c]. cbn [fst snd]. split.
    + intros Hneq.
      destruct (Nat.eqb_spec r (length n1)) as [Hr|Hr];
        destruct (Nat.eqb_spec c (length n2)) as [Hc|Hc];
        try reflexivity.
      subst. contradiction.
    + intros Heq. injection Heq as Hr Hc. subst.
      rewrite !Nat.eqb_refl. cbn [andb negb].
      eexists. split; reflexivity.
  - intros U train t_c t_r Hfs Hne Hneq.
    rewrite estimate_contamination_eq by assumption.
    eexists. reflexivity.
Qed.

(* ================================================================= *)
(** ** [gaussian_histogram] *)

Lemma sort_insert_comm (x y : R) (a : list R) :
  sort_insert x (sort_insert y a) = sort_insert y (sort_insert x a).
Proof.
  induction a as [|z a IH]; simpl.
  - destruct (Rle_dec x y), (Rle_dec y x); try reflexivity.
    + assert (x = y) by lra. now subst.
    + exfalso. lra.
  - destruct (Rle_dec y z) as [Hyz|Hyz], (Rle_dec x z) as [Hxz|Hxz]; simpl;
      destruct (Rle_dec x y) as [Hxy|Hxy], (Rle_dec y x) as [Hyx|Hyx];
      try (exfalso; lra);
      repeat match goal with
             | |- context [Rle_dec ?u ?v] =>
                 destruct (Rle_dec u v); try (exfalso; lra)
             end;
      try reflexivity;
      try (assert (x = y) by lra; subst; reflexivity);
      now rewrite IH.
Qed.

Lemma np_sort_permutation (a b : list R) :
  Permutation a b -> np_sort a = np_sort b.
Proof.
  unfold np_sort. induction 1 as [|x a b _ IH|x y a|a b c _ IH1 _ IH2]; simpl.
  - reflexivity.
  - now rewrite IH.
  - apply sort_insert_comm.
  - now rewrite IH1.
Qed.

(** C10.  [gaussian_histogram] gives the same result, item for item, on
    every permutation of the events, for every time axis, kernel width,
    truncation and [margin_reflect] flag. *)
Theorem gaussian_histogram_permutation (events events' t_axis : list R)
    (sigma truncate : R) (margin_reflect : bool) :
  Permutation events events' ->
  gaussian_histogram events t_axis sigma truncate margin_reflect
  = gaussian_histogram events' t_axis sigma truncate margin_reflect.
Proof.
  intros Hperm. unfold gaussian_histogram.
  now rewrite (np_sort_permutation events events' Hperm).
Qed.

(* ================================================================= *)
(** ** [_create_fft_gaussian] *)

Lemma py_round_bounds (x : R) :
  (x - 1 / 2 <= IZR (py_round x) <= x + 1 / 2)%R.
Proof.
  unfold py_round. pose proof (Zfloor_bound x) as [H1 H2].
  destruct (Rlt_dec (x - IZR (Zfloor x)) (1 / 2)) as [Hlow|Hlow].
  - lra.
  - destruct (Rlt_dec (1 / 2) (x - IZR (Zfloor x))) as [Hup|Hup].
    + rewrite plus_IZR. lra.
    + destruct (Z.even (Zfloor x)); [|rewrite plus_IZR]; lra.
Qed.

Lemma sqrt_2PI_pos : (0 < sqrt (2 * PI))%R.
Proof. apply sqrt_lt_R0. pose proof PI_RGT_0. lra. Qed.

Lemma finite_items_Num (l : list R) : finite_items (map Num l) = Some l.
Proof.
  unfold finite_items. induction l as [|x l IH]; simpl.
  - reflexivity.
  - now rewrite IH.
Qed.

(** The time-domain kernel of the code is the density of the normal law
    of standard deviation [sigma], sampled at the integers. *)
Lemma kernel_item (sigma k : R) :
  sigma <> 0%R ->
  (std_normal_pdf (k / sigma) / sigma
   = exp (- (k ^ 2) / (2 * sigma ^ 2)) / (sigma * sqrt (2 * PI)))%R.
Proof.
  intros Hs. unfold std_normal_pdf. pose proof sqrt_2PI_pos as Hpi.
  replace (- ((k / sigma) ^ 2) / 2)%R with (- (k ^ 2) / (2 * sigma ^ 2))%R
    by (field; exact Hs).
  field. split; [lra|exact Hs].
Qed.

(** The frequency-domain mask of the code is a Gaussian of scale [f]
    with value 1 at frequency 0. *)
Lemma mask_item (f x : R) :
  (std_normal_pdf (x / f) * sqrt (2 * PI) = exp (- ((x / f) ^ 2) / 2))%R.
Proof.
  unfold std_normal_pdf. pose proof sqrt_2PI_pos as Hpi. field. lra.
Qed.

(** C8.  With a positive sampling frequency, a signal of at least one
    sample and a non-zero cutoff [f]: if [f > sampling_frequency/8] the
    mask is the magnitude of the [N]-point Fourier transform of the
    normal density of standard deviation
    [sigma = sampling_frequency/(2*pi*f)] sampled on the integers of
    [[-limit, limit]], where [limit] is the first sample count beyond 6
    standard deviations ([6*sigma < limit <= 6*sigma + 3/2]); if not, the
    mask is the Gaussian [exp(-(x/f)^2/2)] evaluated on the frequency
    axis of the transform. *)
Theorem fft_gaussian_regimes (U : Utils) (N : nat) (cutoff_freq : R) :
  let fs := Q2R (sampling_frequency U) in
  (0 < fs)%R -> (0 < N)%nat -> cutoff_freq <> 0%R ->
  ((cutoff_freq > fs / 8)%R ->
   let sigma := (fs / (2 * PI * cutoff_freq))%R in
   exists limit : Z,
     (6 * sigma < IZR limit <= 6 * sigma + 3 / 2)%R
     /\ _create_fft_gaussian U N cutoff_freq
        = Ok (map Num
                (dft_abs
                   (firstn N
                      (map (fun k =>
                              exp (- (IZR k ^ 2) / (2 * sigma ^ 2))
                              / (sigma * sqrt (2 * PI)))%R
                           (arange (- limit) (limit + 1))))
                   N)))
  /\ (~ (cutoff_freq > fs / 8)%R ->
      exists freq_axis : list R,
        np_fftfreq N (1 / fs) = Ok freq_axis
        /\ _create_fft_gaussian U N cutoff_freq
           = Ok (map (fun x => Num (exp (- ((x / cutoff_freq) ^ 2) / 2))%R)
                     freq_axis)).
Proof.
  intros fs Hfs HN Hf. pose proof PI_RGT_0 as Hpi. split.
  - intros Hhigh sigma.
    unfold _create_fft_gaussian. fold fs.
    destruct (Rgt_dec cutoff_freq (fs / 8)) as [_|Hn]; [|contradiction].
    assert (Hfpos : (0 < cutoff_freq)%R) by lra.
    rewrite py_divR_ok by nra. cbn [bind]. fold sigma.
    assert (Hsigma : (0 < sigma)%R).
    { unfold sigma. apply Rdiv_lt_0_compat; nra. }
    exists (py_round (6 * sigma) + 1). split.
    + pose proof (py_round_bounds (6 * sigma)) as [H1 H2].
      rewrite plus_IZR. lra.
    + unfold np_fft_abs.
      destruct (Nat.eqb_spec N 0) as [H0|_]; [lia|].
      rewrite !map_map.
      replace (map (fun x : Z =>
                      np_div_scalar sigma
                        (norm_pdf (np_div_scalar sigma (Num (IZR x)))))
                   (arange (- (py_round (6 * sigma) + 1))
                           (py_round (6 * sigma) + 1 + 1)))
        with (map Num
                (map (fun k =>
                        exp (- (IZR k ^ 2) / (2 * sigma ^ 2))
                        / (sigma * sqrt (2 * PI)))%R
                     (arange (- (py_round (6 * sigma) + 1))
                             (py_round (6 * sigma) + 1 + 1)))).
      * rewrite firstn_map, finite_items_Num. reflexivity.
      * rewrite map_map. apply map_ext. intros k.
        unfold np_div_scalar, norm_pdf.
        destruct (Req_dec_T sigma 0) as [H0|_]; [lra|].
        f_equal. symmetry. apply kernel_item. lra.
  - intros Hlow.
    unfold _create_fft_gaussian. fold fs.
    destruct (Rgt_dec cutoff_freq (fs / 8)) as [Hy|_]; [contradiction|].
    rewrite py_divR_ok by lra. cbn [bind].
    unfold np_fftfreq. rewrite py_divR_ok.
    2:{ assert (0 < INR N)%R by (apply lt_0_INR; exact HN).
        assert (0 < 1 / fs)%R by (apply Rdiv_lt_0_compat; lra).
        nra. }
    cbn [bind]. eexists. split; [reflexivity|].
    f_equal. apply map_ext. intros x.
    unfold np_div_scalar, norm_pdf, np_mul_scalar.
    destruct (Req_dec_T cutoff_freq 0) as [H0|_]; [contradiction|].
    f_equal. apply mask_item.
Qed.

(* ================================================================= *)
(** ** The theorems at concrete inputs *)

Lemma estimate_contamination_formula_witness :
  estimate_contamination (mk_Utils 30000 30000) [0; 50; 100; 150] (0, 1)%Q
  = Ok 0%R.
Proof.
  apply (proj2 (estimate_contamination_formula
                  (mk_Utils 30000 30000) [0; 50; 100; 150] 0 1
                  eq_refl ltac:(discriminate) eq_refl)).
Defined.

Lemma count_violations_weighted_pairs_witness :
  spike_train_ok [0; 1; 2; 3]
  /\ Qeq (compute_nb_violations [0; 1; 2; 3] 2)
         (spec_count_violations [0; 1; 2; 3] 2).
Proof.
  assert (Hok : spike_train_ok [0; 1; 2; 3])
    by (split; repeat constructor; unfold sample_index; lia).
  split; [exact Hok|].
  apply (proj2 (count_violations_weighted_pairs [0; 1; 2; 3] 2 Hok)).
Defined.

Lemma count_coincidences_symmetric_witness :
  spike_train_ok [0; 2] /\ spike_train_ok [1; 5]
  /\ compute_nb_coincidence [0; 2] [1; 5] (3 # 2)
     = compute_nb_coincidence [1; 5] [0; 2] (3 # 2).
Proof.
  assert (HA : spike_train_ok [0; 2])
    by (split; repeat constructor; unfold sample_index; lia).
  assert (HB : spike_train_ok [1; 5])
    by (split; repeat constructor; unfold sample_index; lia).
  split; [exact HA|]. split; [exact HB|].
  apply (count_coincidences_symmetric [0; 2] [1; 5] (3 # 2) HA HB).
Defined.

Lemma self_coincidences_count_spikes_witness :
  spike_train_ok [0; 5; 10]
  /\ Qeq (compute_nb_coincidence [0; 5; 10] [0; 5; 10] (3 # 2)) 3.
Proof.
  assert (Hok : spike_train_ok [0; 5; 10])
    by (split; repeat constructor; unfold sample_index; lia).
  split; [exact Hok|].
  apply (self_coincidences_count_spikes [0; 5; 10] (3 # 2) Hok).
  - discriminate.
  - repeat constructor.
Defined.

Lemma contamination_single_spike :
  estimate_contamination (mk_Utils 30000 30000) [0] (0, 1)%Q = Ok 0%R.
Proof.
  rewrite estimate_contamination_eq;
    [|reflexivity|discriminate|discriminate].
  assert (HD : Qeq (contamination_D (mk_Utils 30000 30000) [0] (0, 1)%Q) 1)
    by (vm_compute; reflexivity).
  destruct (Qlt_le_dec _ 0) as [Hneg|Hpos].
  - exfalso. rewrite HD in Hneg. discriminate Hneg.
  - f_equal. rewrite (Qeq_eqR _ _ HD), Q2R_1, sqrt_1. lra.
Qed.

Lemma contamination_four_spikes :
  estimate_contamination (mk_Utils 30000 30000) [0; 1; 2; 3] (0, 1)%Q
  = Ok 1%R.
Proof.
  apply contamination_is_one;
    [reflexivity|discriminate|discriminate|vm_compute; reflexivity].
Qed.

(** The sentinel on four adjacent spikes ([C1 = 1]) against an empty
    train, and the formula on one spike in each train at the same
    sample ([C1 = 0], one coincidence): [1 - (30000/60 - 1)/(0 - 1) = 500]. *)
Lemma cross_contamination_estimate_witness :
  (exists p_value,
      estimate_cross_contamination (mk_Utils 30000 30000)
        (fun _ _ _ => 0%R) (fun _ _ _ => 0%R) [0; 1; 2; 3] [] (0, 1)%Q (3 # 10)
      = Ok (NegInf, p_value))
  /\ (exists p_value,
         estimate_cross_contamination (mk_Utils 30000 30000)
           (fun _ _ _ => 0%R) (fun _ _ _ => 0%R) [0] [0] (0, 1)%Q (3 # 10)
         = Ok (Finite 500%R, p_value)).
Proof.
  split.
  - destruct (cross_contamination_estimate (mk_Utils 30000 30000)
                (fun _ _ _ => 0%R) (fun _ _ _ => 0%R) [0; 1; 2; 3] []
                0 1 (3 # 10))
      as (C1 & HC1 & Hone & _).
    + reflexivity.
    + discriminate.
    + repeat constructor; unfold sample_index; lia.
    + constructor.
    + reflexivity.
    + rewrite contamination_four_spikes in HC1. injection HC1 as HC1.
      destruct (Hone (eq_sym HC1)) as (Hret & _ & Hcomputed).
      apply Hret. apply Hcomputed. discriminate.
  - destruct (cross_contamination_estimate (mk_Utils 30000 30000)
                (fun _ _ _ => 0%R) (fun _ _ _ => 0%R) [0] [0]
                0 1 (3 # 10))
      as (C1 & HC1 & _ & Hform).
    + reflexivity.
    + discriminate.
    + repeat constructor; unfold sample_index; lia.
    + repeat constructor; unfold sample_index; lia.
    + reflexivity.
    + rewrite contamination_single_spike in HC1. injection HC1 as HC1.
      subst C1.
      destruct Hform as [Hret _]; [lra|].
      destruct Hret as [p_value Hret].
      * discriminate.
      * discriminate.
      * split; [discriminate|right].
        apply Q2R_div_le_1; [reflexivity|discriminate].
      * exists p_value. rewrite Hret. f_equal. f_equal. f_equal.
        rewrite (Qeq_eqR _ 500) by (vm_compute; reflexivity).
        unfold Q2R. simpl. lra.
Defined.



Lemma fft_gaussian_regimes_witness :
  exists freq_axis : list R,
    np_fftfreq 8 (1 / Q2R 30000) = Ok freq_axis
    /\ _create_fft_gaussian (mk_Utils 30000 30000) 8 300
       = Ok (map (fun x => Num (exp (- ((x / 300) ^ 2) / 2))%R) freq_axis).
Proof.
  assert (Hfs : Q2R 30000 = 30000%R) by (unfold Q2R; simpl; lra).
  apply (proj2 (fft_gaussian_regimes (mk_Utils 30000 30000) 8 300
                  ltac:(simpl; lra) ltac:(lia) ltac:(lra))).
  simpl. lra.
Defined.

Lemma gaussian_histogram_permutation_witness :
  Permutation [3; 1; 2]%R [1; 2; 3]%R
  /\ gaussian_histogram [3; 1; 2]%R [0; 1; 2; 3; 4]%R 1 5 true
     = gaussian_histogram [1; 2; 3]%R [0; 1; 2; 3; 4]%R 1 5 true.
Proof.
  assert (Hperm : Permutation [3; 1; 2]%R [1; 2; 3]%R).
  { apply perm_trans with [1; 3; 2]%R.
    - apply perm_swap.
    - apply perm_skip. apply perm_swap. }
  split; [exact Hperm|].
  apply (gaussian_histogram_permutation _ _ _ _ _ _ Hperm).
Defined.

(* ================================================================= *)
(** ** Further properties of the counts *)

Lemma coincidence_class_abs (border_low border_high d : Z) :
  coincidence_class border_low border_high d
  = violation_class border_low border_high (Z.abs d).
Proof.
  unfold coincidence_class, violation_class.
  destruct (Z.gtb_spec d border_high), (Z.ltb_spec d (- border_high)),
    (Z.gtb_spec (Z.abs d) border_high); try reflexivity; lia.
Qed.

Lemma weighted_coincidence_grid (t p_low p_high : Q) (train1 train2 : list Z) :
  (0 < t)%Q ->
  (p_low == spec_p_low t)%Q -> (p_high == spec_p_high t)%Q ->
  (weighted p_low p_high
     (coincidence_grid (Qfloor t) (Qceiling t) train1 train2)
   == sum_over_grid (spec_pair_weight t) train1 train2)%Q.
Proof.
  intros Ht Hlow Hhigh. unfold coincidence_grid, sum_over_grid.
  rewrite weighted_sum. apply sum_Q_ext. intros a.
  unfold coincidence_line. rewrite weighted_sum.
  apply sum_Q_ext. intros b.
  rewrite coincidence_class_abs. now apply weighted_violation_class.
Qed.

(** X1.  On ascending trains of sample indices [compute_nb_coincidence]
    is [0] for a window [<= 0] and otherwise the sum, over every pair of
    one spike of each train, of the boundary weight of their absolute
    distance: the two-pointer sweep loses no pair. *)
Theorem count_coincidences_weighted_grid (trainA trainB : list Z)
    (max_time : Q) :
  spike_train_ok trainA -> spike_train_ok trainB ->
  (compute_nb_coincidence trainA trainB max_time
   == spec_count_coincidences trainA trainB max_time)%Q.
Proof.
  intros HA HB. unfold compute_nb_coincidence, spec_count_coincidences.
  destruct (Qle_bool max_time 0) eqn:E; [reflexivity|].
  apply Qle_bool_false in E.
  destruct (border_probabilities_spec max_time)
    as (p_low & p_high & Hb & Hlow & Hhigh).
  rewrite Hb, coincidence_sweep_grid by assumption.
  now apply weighted_coincidence_grid.
Qed.

Lemma count_coincidences_weighted_grid_witness :
  spike_train_ok [0; 2] /\ spike_train_ok [1; 5]
  /\ Qeq (compute_nb_coincidence [0; 2] [1; 5] (3 # 2))
         (spec_count_coincidences [0; 2] [1; 5] (3 # 2)).
Proof.
  assert (HA : spike_train_ok [0; 2])
    by (split; repeat constructor; unfold sample_index; lia).
  assert (HB : spike_train_ok [1; 5])
    by (split; repeat constructor; unfold sample_index; lia).
  split; [exact HA|]. split; [exact HB|].
  apply (count_coincidences_weighted_grid [0; 2] [1; 5] (3 # 2) HA HB).
Defined.

(** X2.  Whatever the train (ordered or not) and the window,
    [compute_nb_violations] is never negative and never more than the
    number of pairs, [N*(N-1)/2]. *)
Theorem count_violations_within_pairs (train : list Z) (max_time : Q) :
  (0 <= compute_nb_violations train max_time)%Q
  /\ (2 * compute_nb_violations train max_time
      <= inject_Z (Z.of_nat (length train))
         * (inject_Z (Z.of_nat (length train)) - 1))%Q.
Proof. apply compute_nb_violations_bounds. Qed.

(** X3.  [estimate_contamination] raises [ZeroDivisionError] on an empty
    train, and on every train when [t_c = t_r]. *)
Theorem estimate_contamination_zero_division :
  (forall (U : Utils) (t_c t_r : Q),
      estimate_contamination U [] (t_c, t_r) = Raise ZeroDivisionError)
  /\ (forall (U : Utils) (spike_train : list Z) (t : Q),
        estimate_contamination U spike_train (t, t) = Raise ZeroDivisionError).
Proof.
  split.
  - intros U t_c t_r. unfold estimate_contamination. cbn [fst snd length].
    rewrite py_div_zero; [reflexivity|].
    change (inject_Z (Z.of_nat 0)) with 0%Q. ring.
  - intros U train t. unfold estimate_contamination. cbn [fst snd].
    rewrite py_div_zero; [reflexivity|]. ring.
Qed.

(** X4.  For a non-empty train and [t_c < t_r], when the censored
    windows of all spikes fit in the recording ([2*N*t_c <= t_max]),
    [estimate_contamination] returns a value between 0 and 1. *)
Theorem estimate_contamination_unit_interval (U : Utils)
    (spike_train : list Z) (t_c t_r : Q) :
  (0 < sampling_frequency U)%Q -> spike_train <> [] -> (t_c < t_r)%Q ->
  (2 * inject_Z (Z.of_nat (length spike_train)) * ms_to_samples U t_c
   <= inject_Z (t_max U))%Q ->
  exists c : R,
    estimate_contamination U spike_train (t_c, t_r) = Ok c
    /\ (0 <= c <= 1)%R.
Proof.
  intros Hfs Hne Hlt Hfit.
  rewrite estimate_contamination_eq by auto using Qlt_not_eq.
  eexists. split; [reflexivity|].
  destruct (Qlt_le_dec _ 0) as [Hneg|Hpos]; [lra|].
  assert (HD1 : (contamination_D U spike_train (t_c, t_r) <= 1)%Q).
  { unfold contamination_D. cbn [fst snd].
    pose proof (contamination_denominator U spike_train t_c t_r Hfs Hne Hlt)
      as Hden.
    destruct (compute_nb_violations_bounds (astype_int64 spike_train)
                (ms_to_samples U t_r)) as [Hv0 _].
    set (v := compute_nb_violations (astype_int64 spike_train)
                (ms_to_samples U t_r)) in *.
    set (X := (inject_Z (t_max U)
               - 2 * inject_Z (Z.of_nat (length spike_train))
                 * ms_to_samples U t_c)%Q).
    assert (HX : (0 <= X)%Q) by (unfold X; lra).
    assert (Hq : (0 <= v * X / (inject_Z (Z.of_nat (length spike_train)) ^ 2
                               * (ms_to_samples U t_r - ms_to_samples U t_c)))%Q).
    { apply Qle_shift_div_l; [exact Hden|]. rewrite Qmult_0_l.
      now apply Qmult_le_0_compat. }
    lra. }
  apply Qle_Rle in Hpos. rewrite Q2R_0 in Hpos.
  apply Qle_Rle in HD1. rewrite Q2R_1 in HD1.
  pose proof (sqrt_pos (Q2R (contamination_D U spike_train (t_c, t_r)))) as H0.
  assert (H1 : (sqrt (Q2R (contamination_D U spike_train (t_c, t_r))) <= 1)%R).
  { rewrite <- sqrt_1. apply sqrt_le_1; lra. }
  lra.
Qed.

Lemma estimate_contamination_unit_interval_witness :
  exists c : R,
    estimate_contamination (mk_Utils 30000 30000) [0; 40; 80; 120] (1, 2)%Q
    = Ok c
    /\ (0 <= c <= 1)%R.
Proof.
  apply (estimate_contamination_unit_interval
           (mk_Utils 30000 30000) [0; 40; 80; 120] 1 2).
  - reflexivity.
  - discriminate.
  - reflexivity.
  - discriminate.
Defined.

Lemma violation_pairs_far_apart (border_low border_high : Z) (train : list Z) :
  StronglySorted (fun a b => a + border_high < b) train ->
  violation_pairs border_low border_high train = tally0.
Proof.
  induction 1 as [|x rest Hrest IH Hx]; cbn [violation_pairs].
  - reflexivity.
  - rewrite IH, violation_class_beyond; [reflexivity|].
    eapply Forall_impl; [|exact Hx]. cbv beta. intros; lia.
Qed.

Lemma far_apart_ascending (hi : Z) (train : list Z) :
  0 <= hi ->
  StronglySorted (fun a b => a + hi < b) train -> Sorted Z.le train.
Proof.
  intros Hhi H. apply StronglySorted_Sorted.
  induction H as [|x rest Hrest IH Hx]; constructor.
  - exact IH.
  - eapply Forall_impl; [|exact Hx]. cbv beta. intros; lia.
Qed.

Lemma compute_nb_violations_far_apart (train : list Z) (max_time : Q) :
  Forall sample_index train ->
  Forall (fun g => Qceiling max_time < g) (gaps train) ->
  (compute_nb_violations train max_time == 0)%Q.
Proof.
  intros Hidx Hgaps. unfold compute_nb_violations.
  destruct (Qle_bool max_time 0) eqn:E; [reflexivity|].
  apply Qle_bool_false in E.
  destruct (border_probabilities_spec max_time)
    as (p_low & p_high & Hb & _ & _).
  rewrite Hb.
  pose proof (ceiling_pos max_time E) as Hhi.
  assert (Hfar : StronglySorted (fun a b => a + Qceiling max_time < b) train)
    by (apply gaps_far_apart; [lia|exact Hgaps]).
  rewrite violations_sweep_all_pairs.
  - rewrite violation_pairs_far_apart by exact Hfar. apply weighted_0.
  - split; [|exact Hidx].
    apply (far_apart_ascending (Qceiling max_time)); [lia|exact Hfar].
Qed.

(** X5.  On a non-empty train of sample indices whose inter-spike gaps
    all exceed [ceil(t_r)] (in samples), with [t_c < t_r],
    [estimate_contamination] returns [0.0]. *)
Theorem estimate_contamination_clean_train (U : Utils)
    (spike_train : list Z) (t_c t_r : Q) :
  (0 < sampling_frequency U)%Q -> spike_train <> [] ->
  Forall sample_index spike_train -> (t_c < t_r)%Q ->
  Forall (fun g => Qceiling (ms_to_samples U t_r) < g) (gaps spike_train) ->
  estimate_contamination U spike_train (t_c, t_r) = Ok 0%R.
Proof.
  intros Hfs Hne Hidx Hlt Hgaps.
  rewrite estimate_contamination_eq by auto using Qlt_not_eq.
  assert (HD : (contamination_D U spike_train (t_c, t_r) == 1)%Q).
  { unfold contamination_D. cbn [fst snd].
    rewrite astype_int64_id by exact Hidx.
    rewrite compute_nb_violations_far_apart by assumption.
    unfold Qdiv. ring. }
  destruct (Qlt_le_dec _ 0) as [Hneg|Hpos].
  - exfalso. rewrite HD in Hneg. discriminate Hneg.
  - f_equal. rewrite (Qeq_eqR _ _ HD), Q2R_1, sqrt_1. lra.
Qed.

Lemma estimate_contamination_clean_train_witness :
  estimate_contamination (mk_Utils 30000 30000) [7; 90; 200] (0, 1)%Q = Ok 0%R.
Proof.
  apply (estimate_contamination_clean_train
           (mk_Utils 30000 30000) [7; 90; 200] 0 1).
  - reflexivity.
  - discriminate.
  - repeat constructor; unfold sample_index; lia.
  - reflexivity.
  - repeat constructor.
Defined.

(** The inter-spike gap may exceed the refractory period itself and
    still count: a gap of 30 samples against a period of 29.5 samples
    sits at [ceil(29.5)] and weighs [p_high = 1/8]. *)
Example violation_at_ceiling :
  Qeq (compute_nb_violations [0; 30] (59 # 2)) (1 # 8).
Proof. vm_compute. reflexivity. Qed.

(* ================================================================= *)
(** ** The violation count grows with the window *)

Lemma compute_nb_violations_spec (train : list Z) (max_time : Q) :
  spike_train_ok train ->
  (compute_nb_violations train max_time
   == spec_count_violations train max_time)%Q.
Proof.
  intros Hok. unfold compute_nb_violations, spec_count_violations.
  destruct (Qle_bool max_time 0) eqn:E; [reflexivity|].
  apply Qle_bool_false in E.
  destruct (border_probabilities_spec max_time)
    as (p_low & p_high & Hb & Hlow & Hhigh).
  rewrite Hb, violations_sweep_all_pairs by exact Hok.
  now apply weighted_violation_pairs.
Qed.

Lemma floor_bounds (t : Q) :
  (inject_Z (Qfloor t) <= t)%Q /\ (t < inject_Z (Qfloor t) + 1)%Q.
Proof.
  split; [apply Qfloor_le|].
  pose proof (Qlt_floor t) as H. now rewrite inject_Z_plus in H.
Qed.

Lemma ceiling_bounds (t : Q) :
  (inject_Z (Qceiling t) - 1 < t)%Q /\ (t <= inject_Z (Qceiling t))%Q.
Proof.
  split; [|apply Qle_ceiling].
  pose proof (Qceiling_lt t) as H. now rewrite inject_Z_minus in H.
Qed.

Lemma spec_p_low_same_floor (t1 t2 : Q) :
  (t1 <= t2)%Q -> Qfloor t1 = Qfloor t2 ->
  (spec_p_low t1 <= spec_p_low t2)%Q.
Proof.
  intros Hle Hfl. unfold spec_p_low. rewrite <- Hfl.
  destruct (floor_bounds t1) as [A1 B1].
  destruct (floor_bounds t2) as [A2 B2]. rewrite <- Hfl in A2, B2.
  destruct (Z.eqb_spec (Qfloor t1) 0) as [H0|H0].
  - rewrite H0 in *. change (inject_Z 0) with 0%Q in *.
    change ((t1 - 0) ^ 2)%Q with ((t1 - 0) * (t1 - 0))%Q.
    change ((t2 - 0) ^ 2)%Q with ((t2 - 0) * (t2 - 0))%Q.
    change ((1 - t1) ^ 2)%Q with ((1 - t1) * (1 - t1))%Q.
    change ((1 - t2) ^ 2)%Q with ((1 - t2) * (1 - t2))%Q.
    nra.
  - set (l := inject_Z (Qfloor t1)) in *.
    change ((t1 - l) ^ 2)%Q with ((t1 - l) * (t1 - l))%Q.
    change ((t2 - l) ^ 2)%Q with ((t2 - l) * (t2 - l))%Q.
    nra.
Qed.

Lemma spec_p_high_same_ceiling (t1 t2 : Q) :
  (t1 <= t2)%Q -> Qceiling t1 = Qceiling t2 ->
  (spec_p_high t1 <= spec_p_high t2)%Q.
Proof.
  intros Hle Hc. unfold spec_p_high. rewrite <- Hc.
  destruct (ceiling_bounds t1) as [A1 B1].
  destruct (ceiling_bounds t2) as [A2 B2]. rewrite <- Hc in A2, B2.
  set (h := inject_Z (Qceiling t1)) in *.
  change ((t1 - h + 1) ^ 2)%Q with ((t1 - h + 1) * (t1 - h + 1))%Q.
  change ((t2 - h + 1) ^ 2)%Q with ((t2 - h + 1) * (t2 - h + 1))%Q.
  nra.
Qed.

Lemma spec_p_high_le_half (t : Q) : (spec_p_high t <= 1 # 2)%Q.
Proof.
  unfold spec_p_high. destruct (ceiling_bounds t) as [A B].
  set (h := inject_Z (Qceiling t)) in *.
  change ((t - h + 1) ^ 2)%Q with ((t - h + 1) * (t - h + 1))%Q.
  nra.
Qed.

Lemma spec_p_low_ge_half (t : Q) :
  Qfloor t <> 0 -> (1 # 2 <= spec_p_low t)%Q.
Proof.
  intros H0. unfold spec_p_low. destruct (floor_bounds t) as [A B].
  destruct (Z.eqb_spec (Qfloor t) 0) as [H|_]; [contradiction|].
  set (l := inject_Z (Qfloor t)) in *.
  change ((t - l) ^ 2)%Q with ((t - l) * (t - l))%Q.
  nra.
Qed.

(** The weight of a pair at any distance grows with the window. *)
Lemma spec_pair_weight_monotone (t1 t2 : Q) (d : Z) :
  (0 < t1)%Q -> (t1 <= t2)%Q ->
  (spec_pair_weight t1 d <= spec_pair_weight t2 d)%Q.
Proof.
  intros Hpos Hle.
  assert (Hpos2 : (0 < t2)%Q) by lra.
  pose proof (Qfloor_resp_le _ _ Hle) as Hfl.
  pose proof (Qceiling_resp_le _ _ Hle) as Hcl.
  pose proof (floor_le_ceiling t1) as F1.
  pose proof (ceiling_le_floor_succ t1) as C1.
  pose proof (floor_le_ceiling t2) as F2.
  pose proof (ceiling_le_floor_succ t2) as C2.
  pose proof (ceiling_pos t1 Hpos) as P1.
  destruct (spec_p_low_bounds t1 Hpos) as [L1a L1b].
  destruct (spec_p_low_bounds t2 Hpos2) as [L2a L2b].
  destruct (spec_p_high_bounds t1) as [H1a H1b].
  destruct (spec_p_high_bounds t2) as [H2a H2b].
  unfold spec_pair_weight.
  destruct (Z.ltb_spec d (Qfloor t1)) as [A|A].
  { destruct (Z.ltb_spec d (Qfloor t2)); [apply Qle_refl|lia]. }
  destruct (Z.eqb_spec d (Qfloor t1)) as [B|B].
  { destruct (Z.ltb_spec d (Qfloor t2)) as [A2|A2]; [exact L1b|].
    destruct (Z.eqb_spec d (Qfloor t2)) as [B2|B2]; [|lia].
    apply spec_p_low_same_floor; [exact Hle|congruence]. }
  destruct (Z.eqb_spec d (Qceiling t1)) as [C|C].
  { destruct (Z.ltb_spec d (Qfloor t2)) as [A2|A2]; [exact H1b|].
    destruct (Z.eqb_spec d (Qfloor t2)) as [B2|B2].
    - apply Qle_trans with (1 # 2)%Q; [apply spec_p_high_le_half|].
      apply spec_p_low_ge_half. lia.
    - destruct (Z.eqb_spec d (Qceiling t2)) as [C2'|C2']; [|lia].
      apply spec_p_high_same_ceiling; [exact Hle|congruence]. }
  destruct (Z.ltb_spec d (Qfloor t2)); [discriminate|].
  destruct (Z.eqb_spec d (Qfloor t2)); [exact L2a|].
  destruct (Z.eqb_spec d (Qceiling t2)); [exact H2a|apply Qle_refl].
Qed.

Lemma sum_Q_le {A : Type} (f g : A -> Q) (l : list A) :
  (forall x, (f x <= g x)%Q) -> (sum_Q (map f l) <= sum_Q (map g l))%Q.
Proof.
  intros H. induction l as [|x l IH]; cbn [map sum_Q fold_right].
  - apply Qle_refl.
  - fold (sum_Q (map f l)). fold (sum_Q (map g l)).
    apply Qplus_le_compat; [apply H|exact IH].
Qed.

Lemma sum_over_pairs_le (f g : Z -> Q) (train : list Z) :
  (forall d, (f d <= g d)%Q) ->
  (sum_over_pairs f train <= sum_over_pairs g train)%Q.
Proof.
  intros H. induction train as [|x rest IH]; cbn [sum_over_pairs].
  - apply Qle_refl.
  - apply Qplus_le_compat; [|exact IH].
    apply (sum_Q_le (fun y => f (y - x)) (fun y => g (y - x))).
    intros y. apply H.
Qed.

(** X6.  On an ascending train of sample indices the violation count
    does not decrease when the window grows. *)
Theorem count_violations_monotone (train : list Z) (w1 w2 : Q) :
  spike_train_ok train -> (w1 <= w2)%Q ->
  (compute_nb_violations train w1 <= compute_nb_violations train w2)%Q.
Proof.
  intros Hok Hle.
  destruct (Qlt_le_dec 0 w1) as [Hpos|Hneg].
  - rewrite !compute_nb_violations_spec by exact Hok.
    unfold spec_count_violations.
    rewrite (Qle_bool_pos w1 Hpos).
    rewrite (Qle_bool_pos w2) by lra.
    apply sum_over_pairs_le. intros d.
    now apply spec_pair_weight_monotone.
  - unfold compute_nb_violations at 1.
    apply Qle_bool_iff in Hneg. rewrite Hneg.
    apply compute_nb_violations_bounds.
Qed.

Lemma count_violations_monotone_witness :
  spike_train_ok [0; 1; 3]
  /\ Qle (compute_nb_violations [0; 1; 3] (1 # 2))
         (compute_nb_violations [0; 1; 3] (5 # 2)).
Proof.
  assert (Hok : spike_train_ok [0; 1; 3])
    by (split; repeat constructor; unfold sample_index; lia).
  split; [exact Hok|].
  apply (count_violations_monotone [0; 1; 3] (1 # 2) (5 # 2) Hok).
  discriminate.
Defined.

(* ================================================================= *)
(** ** [compute_coincidence_matrix] *)

Lemma row_incr_length (row : list Z) (j : nat) :
  length (row_incr row j) = length row.
Proof.
  revert j. induction row as [|x row IH]; intros [|j]; simpl; auto.
Qed.

Lemma row_incr_nth (row : list Z) (j k : nat) :
  (j < length row)%nat ->
  nth k (row_incr row j) 0 = nth k row 0 + (if Nat.eqb j k then 1 else 0).
Proof.
  revert j k. induction row as [|x row IH]; intros j k Hj; simpl in Hj.
  - lia.
  - destruct j as [|j], k as [|k]; simpl; try lia.
    apply IH. lia.
Qed.

Lemma matrix_incr_shape (m : list (list Z)) (i j r c : nat) :
  matrix_shape m r c -> matrix_shape (matrix_incr m i j) r c.
Proof.
  unfold matrix_shape. revert i r.
  induction m as [|row m IH]; intros i r [Hlen Hrows].
  - simpl. auto.
  - inversion Hrows as [|? ? Hrow Hrest]; subst.
    destruct i as [|i]; simpl.
    + split; [reflexivity|]. constructor; [|exact Hrest].
      apply row_incr_length.
    + destruct (IH i (length m) (conj eq_refl Hrest)) as [Hl Hr].
      split; [now rewrite Hl|]. constructor; [reflexivity|exact Hr].
Qed.

Lemma matrix_incr_get (m : list (list Z)) (i j u v r c : nat) :
  matrix_shape m r c -> (i < r)%nat -> (j < c)%nat ->
  matrix_get (matrix_incr m i j) u v
  = matrix_get m u v + (if Nat.eqb i u && Nat.eqb j v then 1 else 0).
Proof.
  unfold matrix_shape, matrix_get. revert i u r.
  induction m as [|row m IH]; intros i u r [Hlen Hrows] Hi Hj.
  - simpl in Hlen. lia.
  - inversion Hrows as [|? ? Hrow Hrest]; subst.
    destruct i as [|i], u as [|u]; simpl.
    + apply row_incr_nth. lia.
    + lia.
    + lia.
    + apply (IH i u (length m)); [split; [reflexivity|exact Hrest]| |exact Hj].
      simpl in Hi. lia.
Qed.

Lemma np_zeros_shape (r c : nat) : matrix_shape (np_zeros r c) r c.
Proof.
  unfold matrix_shape, np_zeros. split.
  - apply repeat_length.
  - apply Forall_forall. intros row Hin.
    apply repeat_spec in Hin. subst. apply repeat_length.
Qed.

Lemma np_zeros_get (r c u v : nat) : matrix_get (np_zeros r c) u v = 0.
Proof.
  unfold matrix_get, np_zeros.
  destruct (Nat.lt_ge_cases u r) as [Hu|Hu].
  - rewrite nth_repeat_lt by exact Hu. apply nth_repeat.
  - assert (Hrow : nth u (repeat (repeat 0 c) r) [] = [])
      by (apply nth_overflow; rewrite repeat_length; exact Hu).
    rewrite Hrow. now destruct v.
Qed.

Lemma np_index_nonneg (n : nat) (l : Z) : 0 <= l -> np_index n l = Z.to_nat l.
Proof.
  intros H. unfold np_index. destruct (Z.ltb_spec l 0); [lia|reflexivity].
Qed.

Lemma sum_Z_app (l1 l2 : list Z) : sum_Z (l1 ++ l2) = sum_Z l1 + sum_Z l2.
Proof.
  unfold sum_Z. induction l1 as [|x l1 IH]; simpl; lia.
Qed.

Lemma sum_Z_zero {A : Type} (f : A -> Z) (l : list A) :
  Forall (fun x => f x = 0) l -> sum_Z (map f l) = 0.
Proof.
  unfold sum_Z. induction 1 as [|x l Hx _ IH]; simpl; lia.
Qed.

Lemma sum_Z_map_add {A : Type} (f g : A -> Z) (l : list A) :
  sum_Z (map (fun x => f x + g x) l) = sum_Z (map f l) + sum_Z (map g l).
Proof.
  unfold sum_Z. induction l as [|x l IH]; simpl; lia.
Qed.

Lemma sum_Z_swap {A B : Type} (f : A -> B -> Z) (la : list A) (lb : list B) :
  sum_Z (map (fun a => sum_Z (map (fun b => f a b) lb)) la)
  = sum_Z (map (fun b => sum_Z (map (fun a => f a b) la)) lb).
Proof.
  induction la as [|a la IH].
  - simpl. symmetry. apply sum_Z_zero. apply Forall_forall. reflexivity.
  - cbn [map].
    change (sum_Z (?x :: ?l)) with (x + sum_Z l).
    rewrite IH.
    rewrite <- (sum_Z_map_add (fun b => f a b)
                  (fun b => sum_Z (map (fun a0 => f a0 b) la))).
    reflexivity.
Qed.

Lemma map_nth_seq_gen {A : Type} (d : A) (l pre : list A) :
  map (fun j => nth j (pre ++ l) d) (seq (length pre) (length l)) = l.
Proof.
  revert pre. induction l as [|x l IH]; intros pre; simpl.
  - reflexivity.
  - rewrite app_nth2 by lia. rewrite Nat.sub_diag. simpl. f_equal.
    specialize (IH (pre ++ [x])).
    replace (length (pre ++ [x])) with (S (length pre)) in IH
      by (rewrite length_app; simpl; lia).
    rewrite <- app_assoc in IH. exact IH.
Qed.

Lemma map_nth_range_gen {A : Type} (d : A) (l : list A) (s : nat) :
  map (fun j => nth j l d) (range s (length l)) = skipn s l.
Proof.
  unfold range.
  destruct (Nat.le_gt_cases s (length l)) as [Hs|Hs].
  - assert (Hlen : length (firstn s l) = s) by (rewrite length_firstn; lia).
    assert (Hsuf : (length l - s)%nat = length (skipn s l))
      by (rewrite length_skipn; reflexivity).
    rewrite Hsuf.
    pose proof (map_nth_seq_gen d (skipn s l) (firstn s l)) as H.
    rewrite firstn_skipn, Hlen in H. exact H.
  - replace (length l - s)%nat with 0%nat by lia. simpl.
    symmetry. apply skipn_all2. lia.
Qed.

Lemma nth_fst (sv : list (Z * Z)) (i : nat) :
  nth i (map fst sv) 0 = fst (nth i sv (0, 0)).
Proof. apply (map_nth fst sv (0, 0)). Qed.

Lemma nth_snd (sv : list (Z * Z)) (i : nat) :
  nth i (map snd sv) 0 = snd (nth i sv (0, 0)).
Proof. apply (map_nth snd sv (0, 0)). Qed.

Section MatrixSweep.

Variable max_time : Z.
Variables n_units1 n_units2 : nat.

Lemma matrix_row_by_values (sv1 sv2 : list (Z * Z)) (i : nat) (js : list nat)
    (start_j : nat) (m : list (list Z)) :
  matrix_row (map fst sv1) (map snd sv1) (map fst sv2) (map snd sv2)
    max_time n_units1 n_units2 i js start_j m
  = matrix_row_values max_time n_units1 n_units2 (nth i sv1 (0, 0))
      (map (fun j => nth j sv2 (0, 0)) js) start_j m.
Proof.
  revert start_j m. induction js as [|j js IH]; intros start_j m.
  - reflexivity.
  - cbn [matrix_row matrix_row_values map].
    rewrite !nth_fst, !nth_snd.
    destruct (_ >? _); [apply IH|].
    destruct (_ <? _); [reflexivity|apply IH].
Qed.

Lemma matrix_sweep_from (pre suf sv2 : list (Z * Z))
    (s : nat * list (list Z)) :
  fold_left
    (fun (s : nat * list (list Z)) i =>
       matrix_row (map fst (pre ++ suf)) (map snd (pre ++ suf))
         (map fst sv2) (map snd sv2) max_time n_units1 n_units2 i
         (range (fst s) (length (map fst sv2))) (fst s) (snd s))
    (seq (length pre) (length suf)) s
  = matrix_sweep_values max_time n_units1 n_units2 suf sv2 s.
Proof.
  revert pre s. induction suf as [|a suf IH]; intros pre s.
  - reflexivity.
  - cbn [length seq fold_left matrix_sweep_values].
    rewrite matrix_row_by_values, length_map, map_nth_range_gen.
    rewrite app_nth2 by lia. rewrite Nat.sub_diag. cbn [nth].
    specialize (IH (pre ++ [a])).
    replace (length (pre ++ [a])) with (S (length pre)) in IH
      by (rewrite length_app; simpl; lia).
    rewrite <- app_assoc, length_map in IH. apply IH.
Qed.

Lemma pair_hit_above (u v : Z) (s1 s2 : Z * Z) :
  max_time < fst s1 - fst s2 -> pair_hit max_time u v s1 s2 = 0.
Proof.
  intros H. unfold pair_hit.
  destruct (Z.leb_spec (Z.abs (fst s1 - fst s2)) max_time); [lia|reflexivity].
Qed.

Lemma pair_hit_below (u v : Z) (s1 s2 : Z * Z) :
  fst s1 - fst s2 < - max_time -> pair_hit max_time u v s1 s2 = 0.
Proof.
  intros H. unfold pair_hit.
  destruct (Z.leb_spec (Z.abs (fst s1 - fst s2)) max_time); [lia|reflexivity].
Qed.

Lemma pair_hit_within (u v : nat) (s1 s2 : Z * Z) :
  - max_time <= fst s1 - fst s2 <= max_time ->
  0 <= snd s1 -> 0 <= snd s2 ->
  pair_hit max_time (Z.of_nat u) (Z.of_nat v) s1 s2
  = if Nat.eqb (Z.to_nat (snd s1)) u && Nat.eqb (Z.to_nat (snd s2)) v
    then 1 else 0.
Proof.
  intros H H1 H2. unfold pair_hit.
  destruct (Z.leb_spec (Z.abs (fst s1 - fst s2)) max_time); [|lia].
  cbn [andb].
  destruct (Z.eqb_spec (snd s1) (Z.of_nat u)),
    (Nat.eqb_spec (Z.to_nat (snd s1)) u); try lia;
    destruct (Z.eqb_spec (snd s2) (Z.of_nat v)),
      (Nat.eqb_spec (Z.to_nat (snd s2)) v); try lia; reflexivity.
Qed.

(** One row of the sweep over an ascending second vector. *)
Lemma matrix_row_values_all (s1 : Z * Z) (bs : list (Z * Z)) (start_j : nat)
    (m : list (list Z)) :
  entry_ok n_units1 s1 -> Forall (entry_ok n_units2) bs ->
  StronglySorted (fun x y => fst x <= fst y) bs ->
  matrix_shape m n_units1 n_units2 ->
  exists (k : nat) (m' : list (list Z)),
    matrix_row_values max_time n_units1 n_units2 s1 bs start_j m
    = ((start_j + k)%nat, m')
    /\ Forall (fun b => max_time < fst s1 - fst b) (firstn k bs)
    /\ matrix_shape m' n_units1 n_units2
    /\ forall u v : nat,
         matrix_get m' u v
         = matrix_get m u v + row_hits max_time (Z.of_nat u) (Z.of_nat v) s1 bs.
Proof.
  intros [Ha Hla] Hbs Hsorted. revert start_j m.
  induction Hsorted as [|b bs Hs IH Hle]; intros start_j m Hshape.
  - exists 0%nat, m. cbn. rewrite Nat.add_0_r.
    repeat split; try constructor; try apply Hshape.
    intros u v. unfold row_hits. cbn. lia.
  - inversion Hbs as [|? ? [Hb Hlb] Hbs']; subst.
    specialize (IH Hbs').
    cbn [matrix_row_values].
    rewrite int64_sub_exact by assumption.
    destruct (Z.gtb_spec (fst s1 - fst b) max_time) as [Hgt|Hngt].
    + destruct (IH (S start_j) m Hshape) as (k & m' & Hk & Hskip & Hsh & Hget).
      exists (S k), m'. rewrite Hk. repeat split.
      * f_equal. lia.
      * cbn [firstn]. constructor; assumption.
      * apply Hsh.
      * apply Hsh.
      * intros u v. rewrite Hget. unfold row_hits. cbn [map].
        change (sum_Z (?x :: ?l)) with (x + sum_Z l).
        rewrite pair_hit_above by exact Hgt. lia.
    + destruct (Z.ltb_spec (fst s1 - fst b) (- max_time)) as [Hlt|Hnlt].
      * exists 0%nat, m. rewrite Nat.add_0_r.
        repeat split; try constructor; try apply Hshape.
        intros u v. unfold row_hits. rewrite sum_Z_zero; [lia|].
        constructor.
        -- apply pair_hit_below. exact Hlt.
        -- eapply Forall_impl; [|exact Hle]. cbv beta.
           intros b' Hb'. apply pair_hit_below. lia.
      * assert (Hshape' :
                  matrix_shape
                    (matrix_incr m (np_index n_units1 (snd s1))
                       (np_index n_units2 (snd b)))
                    n_units1 n_units2) by (apply matrix_incr_shape; exact Hshape).
        destruct (IH start_j _ Hshape') as (k & m' & Hk & Hskip & Hsh & Hget).
        assert (Hk0 : k = 0%nat).
        { destruct k as [|k]; [reflexivity|]. exfalso.
          destruct bs as [|b' bs'].
          - cbn [matrix_row_values] in Hk. injection Hk as Hk _. lia.
          - cbn [firstn] in Hskip. inversion Hskip; subst.
            inversion Hle; subst. lia. }
        subst k. exists 0%nat, m'. rewrite Hk. repeat split.
        -- constructor.
        -- apply Hsh.
        -- apply Hsh.
        -- intros u v. rewrite Hget.
           rewrite (matrix_incr_get m _ _ u v n_units1 n_units2 Hshape).
           ++ unfold row_hits. cbn [map].
              change (sum_Z (?x :: ?l)) with (x + sum_Z l).
              rewrite !np_index_nonneg by lia.
              rewrite pair_hit_within by lia. lia.
           ++ rewrite np_index_nonneg by lia. lia.
           ++ rewrite np_index_nonneg by lia. lia.
Qed.

Lemma row_hits_app (u v : Z) (s1 : Z * Z) (bs1 bs2 : list (Z * Z)) :
  row_hits max_time u v s1 (bs1 ++ bs2) = row_hits max_time u v s1 bs1 + row_hits max_time u v s1 bs2.
Proof. unfold row_hits. now rewrite map_app, sum_Z_app. Qed.

Lemma matrix_sweep_values_all (sv1 sv2 : list (Z * Z)) (s : nat)
    (m : list (list Z)) :
  Forall (entry_ok n_units1) sv1 ->
  StronglySorted (fun x y => fst x <= fst y) sv1 ->
  Forall (entry_ok n_units2) sv2 ->
  StronglySorted (fun x y => fst x <= fst y) sv2 ->
  Forall (fun b => Forall (fun a => max_time < fst a - fst b) sv1)
         (firstn s sv2) ->
  matrix_shape m n_units1 n_units2 ->
  let m' := snd (matrix_sweep_values max_time n_units1 n_units2 sv1 sv2 (s, m)) in
  matrix_shape m' n_units1 n_units2
  /\ forall u v : nat,
       matrix_get m' u v
       = matrix_get m u v
         + count_unit_pairs max_time (Z.of_nat u) (Z.of_nat v) sv1 sv2.
Proof.
  intros Hi1 Hs1 Hi2 Hs2. revert s m.
  induction Hs1 as [|a rest Hs IH Hle]; intros s m Hleft Hshape.
  - cbv zeta. cbn [matrix_sweep_values snd]. split; [exact Hshape|].
    intros u v. unfold count_unit_pairs, sum_Z. cbn [map fold_right]. lia.
  - inversion Hi1 as [|? ? Ha Hrest]; subst.
    cbv zeta. cbn [matrix_sweep_values fst snd].
    destruct (matrix_row_values_all a (skipn s sv2) s m)
      as (k & m1 & Hk & Hskip & Hsh & Hget).
    { exact Ha. }
    { rewrite <- (firstn_skipn s sv2) in Hi2.
      apply Forall_app in Hi2. tauto. }
    { apply StronglySorted_skipn. exact Hs2. }
    { exact Hshape. }
    rewrite Hk.
    destruct (IH Hrest (s + k)%nat m1) as [Hsh' Hget'].
    + rewrite firstn_plus. apply Forall_app. split.
      * eapply Forall_impl; [|exact Hleft]. cbv beta.
        intros b Hb. inversion Hb; assumption.
      * eapply Forall_impl; [|exact Hskip]. cbv beta.
        intros b Hb.
        eapply Forall_impl; [|exact Hle]. cbv beta. intros; lia.
    + exact Hsh.
    + split; [exact Hsh'|].
      intros u v. rewrite Hget', Hget.
      assert (Hrow : row_hits max_time (Z.of_nat u) (Z.of_nat v) a sv2
                     = row_hits max_time (Z.of_nat u) (Z.of_nat v) a (skipn s sv2)).
      { rewrite <- (firstn_skipn s sv2) at 1. rewrite row_hits_app.
        assert (H0 : row_hits max_time (Z.of_nat u) (Z.of_nat v) a (firstn s sv2) = 0).
        { apply sum_Z_zero.
          eapply Forall_impl; [|exact Hleft]. cbv beta.
          intros b Hb. inversion Hb; subst. now apply pair_hit_above. }
        lia. }
      unfold count_unit_pairs. cbn [map].
      change (sum_Z (?x :: ?l)) with (x + sum_Z l).
      fold (row_hits max_time (Z.of_nat u) (Z.of_nat v) a sv2).
      rewrite Hrow. lia.
Qed.

End MatrixSweep.

Lemma fold_max_bounds (a : list Z) (x : Z) :
  x <= fold_left Z.max a x /\ Forall (fun l => l <= fold_left Z.max a x) a.
Proof.
  revert x. induction a as [|y a IH]; intros x; cbn [fold_left].
  - split; [lia|constructor].
  - destruct (IH (Z.max x y)) as [H1 H2]. split; [lia|].
    constructor; [lia|exact H2].
Qed.

Lemma np_max_int_bounds (a : list Z) :
  a <> [] ->
  exists m, np_max_int a = Ok m /\ Forall (fun l => l <= m) a.
Proof.
  intros Hne. destruct a as [|x a]; [contradiction|].
  exists (fold_left Z.max a x). split; [reflexivity|].
  destruct (fold_max_bounds a x) as [H1 H2].
  constructor; assumption.
Qed.

Lemma label_bound_nonneg (labels : list Z) (m : Z) :
  labels <> [] -> Forall (fun l => 0 <= l) labels ->
  Forall (fun l => l <= m) labels -> 0 <= m.
Proof.
  intros Hne Hpos Hle. destruct labels as [|x labels]; [contradiction|].
  inversion Hpos; inversion Hle; subst. lia.
Qed.

Lemma spike_vector_entries (sv : list (Z * Z)) (n : nat) :
  spike_vector_ok sv ->
  Forall (fun l => l < Z.of_nat n) (map snd sv) ->
  Forall (entry_ok n) sv
  /\ StronglySorted (fun x y => fst x <= fst y) sv.
Proof.
  intros [[Hsorted Hidx] Hlab] Hbound. split.
  - rewrite Forall_map in Hidx, Hlab, Hbound.
    apply Forall_forall. intros s Hin.
    rewrite Forall_forall in Hidx, Hlab, Hbound.
    unfold entry_ok. split; [now apply Hidx|].
    split; [now apply Hlab|now apply Hbound].
  - apply Sorted_le_strong in Hsorted. clear Hidx Hlab Hbound.
    induction sv as [|s sv IH]; [constructor|].
    cbn [map] in Hsorted. inversion Hsorted as [|? ? Hs Hle]; subst.
    constructor; [now apply IH|].
    now rewrite Forall_map in Hle.
Qed.

(** What [compute_coincidence_matrix] returns on two spike vectors. *)
Lemma int32_wrap_id (z : Z) : - 2 ^ 31 <= z < 2 ^ 31 -> int32_wrap z = z.
Proof.
  intros H. unfold int32_wrap.
  rewrite Z.mod_small by lia. lia.
Qed.

Lemma coincidence_matrix_spec (sv1 sv2 : list (Z * Z)) (max_time : Z) :
  spike_vector_ok sv1 -> spike_vector_ok sv2 -> sv1 <> [] -> sv2 <> [] ->
  exists (m1 m2 : Z) (M : list (list Z)),
    np_max_int (map snd sv1) = Ok m1
    /\ np_max_int (map snd sv2) = Ok m2
    /\ compute_coincidence_matrix_from_vector sv1 sv2 max_time = Ok M
    /\ matrix_shape M (Z.to_nat (m1 + 1)) (Z.to_nat (m2 + 1))
    /\ forall u v : nat,
         matrix_get M u v
         = count_unit_pairs (int32_wrap max_time) (Z.of_nat u) (Z.of_nat v)
             sv1 sv2.
Proof.
  intros Hok1 Hok2 Hne1 Hne2.
  assert (Hl1 : map snd sv1 <> [])
    by (destruct sv1; [contradiction|discriminate]).
  assert (Hl2 : map snd sv2 <> [])
    by (destruct sv2; [contradiction|discriminate]).
  destruct (np_max_int_bounds (map snd sv1) Hl1) as (m1 & Hm1 & Hb1).
  destruct (np_max_int_bounds (map snd sv2) Hl2) as (m2 & Hm2 & Hb2).
  pose proof (label_bound_nonneg _ m1 Hl1 (proj2 Hok1) Hb1) as Hpos1.
  pose proof (label_bound_nonneg _ m2 Hl2 (proj2 Hok2) Hb2) as Hpos2.
  destruct (spike_vector_entries sv1 (Z.to_nat (m1 + 1)) Hok1) as [He1 Hs1].
  { eapply Forall_impl; [|exact Hb1]. cbv beta. intros; lia. }
  destruct (spike_vector_entries sv2 (Z.to_nat (m2 + 1)) Hok2) as [He2 Hs2].
  { eapply Forall_impl; [|exact Hb2]. cbv beta. intros; lia. }
  exists m1, m2. eexists. split; [exact Hm1|]. split; [exact Hm2|].
  unfold compute_coincidence_matrix_from_vector, compute_coincidence_matrix.
  cbv zeta. rewrite Hm1, Hm2. cbn [bind].
  destruct (Z.ltb_spec (m1 + 1) 0); [lia|].
  destruct (Z.ltb_spec (m2 + 1) 0); [lia|]. cbn [orb].
  split; [reflexivity|].
  replace (range 0 (length (map fst sv1))) with (seq 0 (length sv1))
    by (unfold range; now rewrite Nat.sub_0_r, length_map).
  pose proof (matrix_sweep_from (int32_wrap max_time) (Z.to_nat (m1 + 1))
                (Z.to_nat (m2 + 1)) [] sv1 sv2) as Hsweep.
  cbn [app length] in Hsweep. rewrite Hsweep.
  destruct (matrix_sweep_values_all (int32_wrap max_time)
              (Z.to_nat (m1 + 1))
              (Z.to_nat (m2 + 1)) sv1 sv2 0
              (np_zeros (Z.to_nat (m1 + 1)) (Z.to_nat (m2 + 1))))
    as [Hshape Hget]; try assumption.
  - constructor.
  - apply np_zeros_shape.
  - split; [exact Hshape|].
    intros u v. rewrite Hget, np_zeros_get. lia.
Qed.

(** X7.  On two non-empty spike vectors with ascending sample indices
    and unit indices from 0, and for a window that the [int32] parameter
    of the kernel holds ([-2^31 < max_time < 2^31]),
    [compute_coincidence_matrix] returns a matrix of [max_label1 + 1]
    rows and [max_label2 + 1] columns whose entry [(u, v)] is the number
    of pairs of one spike of unit [u] and one spike of unit [v] at most
    [max_time] samples apart. *)
Theorem coincidence_matrix_counts (sv1 sv2 : list (Z * Z)) (max_time : Z) :
  spike_vector_ok sv1 -> spike_vector_ok sv2 -> sv1 <> [] -> sv2 <> [] ->
  - 2 ^ 31 < max_time < 2 ^ 31 ->
  exists (m1 m2 : Z) (M : list (list Z)),
    np_max_int (map snd sv1) = Ok m1
    /\ np_max_int (map snd sv2) = Ok m2
    /\ compute_coincidence_matrix_from_vector sv1 sv2 max_time = Ok M
    /\ matrix_shape M (Z.to_nat (m1 + 1)) (Z.to_nat (m2 + 1))
    /\ forall u v : nat,
         matrix_get M u v
         = count_unit_pairs max_time (Z.of_nat u) (Z.of_nat v) sv1 sv2.
Proof.
  intros Hok1 Hok2 Hne1 Hne2 Hw.
  destruct (coincidence_matrix_spec sv1 sv2 max_time Hok1 Hok2 Hne1 Hne2)
    as (m1 & m2 & M & Hm1 & Hm2 & HM & Hshape & Hget).
  rewrite int32_wrap_id in Hget by lia.
  exists m1, m2, M. auto.
Qed.

Example coincidence_matrix_ex :
  compute_coincidence_matrix_from_vector
    [(0, 0); (5, 1); (9, 0)] [(1, 0); (4, 0); (20, 2)] 2
  = Ok [[1; 0; 0]; [1; 0; 0]].
Proof. reflexivity. Qed.

(** A window of [2^31] reaches the kernel as [-2^31]: nothing is
    counted. *)
Example coincidence_matrix_wrapped_window :
  compute_coincidence_matrix_from_vector
    [(0, 0); (5, 1); (9, 0)] [(1, 0); (4, 0); (20, 2)] (2 ^ 31)
  = Ok [[0; 0; 0]; [0; 0; 0]].
Proof. vm_compute. reflexivity. Qed.

Lemma spike_vector_ok_ex1 : spike_vector_ok [(0, 0); (5, 1); (9, 0)].
Proof.
  split; [split|]; cbn [map fst snd]; repeat constructor;
    unfold sample_index; lia.
Qed.

Lemma spike_vector_ok_ex2 : spike_vector_ok [(1, 0); (4, 0); (20, 2)].
Proof.
  split; [split|]; cbn [map fst snd]; repeat constructor;
    unfold sample_index; lia.
Qed.

Lemma coincidence_matrix_counts_witness :
  exists (m1 m2 : Z) (M : list (list Z)),
    np_max_int (map snd [(0, 0); (5, 1); (9, 0)]) = Ok m1
    /\ np_max_int (map snd [(1, 0); (4, 0); (20, 2)]) = Ok m2
    /\ compute_coincidence_matrix_from_vector
         [(0, 0); (5, 1); (9, 0)] [(1, 0); (4, 0); (20, 2)] 2 = Ok M
    /\ matrix_shape M (Z.to_nat (m1 + 1)) (Z.to_nat (m2 + 1))
    /\ forall u v : nat,
         matrix_get M u v
         = count_unit_pairs 2 (Z.of_nat u) (Z.of_nat v)
             [(0, 0); (5, 1); (9, 0)] [(1, 0); (4, 0); (20, 2)].
Proof.
  apply (coincidence_matrix_counts
           [(0, 0); (5, 1); (9, 0)] [(1, 0); (4, 0); (20, 2)] 2
           spike_vector_ok_ex1 spike_vector_ok_ex2);
    try discriminate; lia.
Defined.

Lemma pair_hit_sym (max_time u v : Z) (s1 s2 : Z * Z) :
  pair_hit max_time u v s1 s2 = pair_hit max_time v u s2 s1.
Proof.
  unfold pair_hit.
  replace (fst s2 - fst s1) with (- (fst s1 - fst s2)) by lia.
  rewrite Z.abs_opp.
  destruct (_ <=? _), (snd s1 =? u), (snd s2 =? v); reflexivity.
Qed.

Lemma count_unit_pairs_sym (max_time u v : Z) (sv1 sv2 : list (Z * Z)) :
  count_unit_pairs max_time u v sv1 sv2 = count_unit_pairs max_time v u sv2 sv1.
Proof.
  unfold count_unit_pairs.
  rewrite (sum_Z_swap (pair_hit max_time u v)). f_equal.
  apply map_ext. intros s2. f_equal.
  apply map_ext. intros s1. apply pair_hit_sym.
Qed.

(** X8.  Exchanging the two spike vectors transposes the coincidence
    matrix. *)
Theorem coincidence_matrix_transpose (sv1 sv2 : list (Z * Z)) (max_time : Z) :
  spike_vector_ok sv1 -> spike_vector_ok sv2 -> sv1 <> [] -> sv2 <> [] ->
  exists M M' : list (list Z),
    compute_coincidence_matrix_from_vector sv1 sv2 max_time = Ok M
    /\ compute_coincidence_matrix_from_vector sv2 sv1 max_time = Ok M'
    /\ forall u v : nat, matrix_get M u v = matrix_get M' v u.
Proof.
  intros Hok1 Hok2 Hne1 Hne2.
  destruct (coincidence_matrix_spec sv1 sv2 max_time Hok1 Hok2 Hne1 Hne2)
    as (_ & _ & M & _ & _ & HM & _ & Hget).
  destruct (coincidence_matrix_spec sv2 sv1 max_time Hok2 Hok1 Hne2 Hne1)
    as (_ & _ & M' & _ & _ & HM' & _ & Hget').
  exists M, M'. split; [exact HM|]. split; [exact HM'|].
  intros u v. rewrite Hget, Hget'. apply count_unit_pairs_sym.
Qed.

Lemma coincidence_matrix_transpose_witness :
  exists M M' : list (list Z),
    compute_coincidence_matrix_from_vector
      [(0, 0); (5, 1); (9, 0)] [(1, 0); (4, 0); (20, 2)] 2 = Ok M
    /\ compute_coincidence_matrix_from_vector
         [(1, 0); (4, 0); (20, 2)] [(0, 0); (5, 1); (9, 0)] 2 = Ok M'
    /\ forall u v : nat, matrix_get M u v = matrix_get M' v u.
Proof.
  apply (coincidence_matrix_transpose
           [(0, 0); (5, 1); (9, 0)] [(1, 0); (4, 0); (20, 2)] 2
           spike_vector_ok_ex1 spike_vector_ok_ex2);
    discriminate.
Defined.

(** X9.  For a window that the [int32] parameter of the kernel holds
    ([-2^31 < max_time < 2^31]): when no spike of the first vector is
    within [max_time] samples of a spike of the second (in particular
    for [max_time = 0] and no shared sample index), every entry of the
    coincidence matrix is 0. *)
Theorem coincidence_matrix_no_coincidence (sv1 sv2 : list (Z * Z))
    (max_time : Z) :
  spike_vector_ok sv1 -> spike_vector_ok sv2 -> sv1 <> [] -> sv2 <> [] ->
  - 2 ^ 31 < max_time < 2 ^ 31 ->
  (forall s1 s2, In s1 sv1 -> In s2 sv2 -> max_time < Z.abs (fst s1 - fst s2)) ->
  exists M : list (list Z),
    compute_coincidence_matrix_from_vector sv1 sv2 max_time = Ok M
    /\ forall u v : nat, matrix_get M u v = 0.
Proof.
  intros Hok1 Hok2 Hne1 Hne2 Hw Hfar.
  destruct (coincidence_matrix_spec sv1 sv2 max_time Hok1 Hok2 Hne1 Hne2)
    as (_ & _ & M & _ & _ & HM & _ & Hget).
  rewrite int32_wrap_id in Hget by lia.
  exists M. split; [exact HM|].
  intros u v. rewrite Hget. unfold count_unit_pairs.
  apply sum_Z_zero. apply Forall_forall. intros s1 Hs1.
  apply sum_Z_zero. apply Forall_forall. intros s2 Hs2.
  unfold pair_hit. specialize (Hfar s1 s2 Hs1 Hs2).
  destruct (Z.leb_spec (Z.abs (fst s1 - fst s2)) max_time); [lia|reflexivity].
Qed.

Lemma coincidence_matrix_no_coincidence_witness :
  exists M : list (list Z),
    compute_coincidence_matrix_from_vector
      [(0, 0); (5, 1); (9, 0)] [(1, 0); (4, 0); (20, 2)] 0 = Ok M
    /\ forall u v : nat, matrix_get M u v = 0.
Proof.
  apply (coincidence_matrix_no_coincidence
           [(0, 0); (5, 1); (9, 0)] [(1, 0); (4, 0); (20, 2)] 0
           spike_vector_ok_ex1 spike_vector_ok_ex2);
    try discriminate; [lia|].
  intros s1 s2 H1 H2. cbn [In] in H1, H2.
  destruct H1 as [<-|[<-|[<-|[]]]]; destruct H2 as [<-|[<-|[<-|[]]]];
    cbn [fst]; lia.
Defined.

(** X10.  [compute_coincidence_matrix] raises [ValueError] when either
    sorting has no spike: there is no largest unit index. *)
Theorem coincidence_matrix_empty_sorting :
  (forall (spike_times1 spike_times2 spike_labels2 : list Z) (max_time : Z),
      compute_coincidence_matrix spike_times1 [] spike_times2 spike_labels2
        max_time
      = Raise ValueError)
  /\ (forall (spike_times1 spike_labels1 spike_times2 : list Z) (max_time : Z),
        compute_coincidence_matrix spike_times1 spike_labels1 spike_times2 []
          max_time
        = Raise ValueError).
Proof.
  split.
  - reflexivity.
  - intros st1 sl1 st2 w. unfold compute_coincidence_matrix.
    destruct (np_max_int sl1) as [m1|e] eqn:E; cbn [bind np_max_int].
    + reflexivity.
    + destruct sl1; [injection E as <-; reflexivity|discriminate].
Qed.

(* ================================================================= *)
(** ** [compute_similarity_matrix] *)

(** The entry [(i, j)] of the similarity matrix, once the shapes agree. *)
Lemma similarity_matrix_item (U : Utils) (M : ndarray2 Z) (n1 n2 : list Z)
    (window : Q) :
  shape M = (length n1, length n2) ->
  exists S : ndarray2 (option Q),
    compute_similarity_matrix U M n1 n2 window = Ok S
    /\ shape S = (length n1, length n2)
    /\ forall i j : nat,
         let m := Some (inject_Z (Z.min (nth i n1 0) (nth j n2 0))) in
         let a := inject_Z (nth i n1 0) in
         let b := inject_Z (nth j n2 0) in
         let e :=
           np_divide
             (np_divide (Some (a * b * (2 * window + 1))%Q)
                        (Some (inject_Z (t_max U))))
             m in
         item S i j
         = np_divide (np_minus (np_divide (Some (inject_Z (item M i j))) m) e)
                     (np_minus (Some 1%Q) e).
Proof.
  intros Hshape. unfold compute_similarity_matrix. rewrite Hshape.
  cbn [fst snd]. rewrite !Nat.eqb_refl. cbn [andb negb].
  eexists. split; [reflexivity|]. split; reflexivity.
Qed.

Lemma np_divide_some (a b : Q) :
  ~ (b == 0)%Q -> np_divide (Some a) (Some b) = Some (a / b)%Q.
Proof.
  intros H. unfold np_divide.
  destruct (Qeq_bool b 0) eqn:E; [|reflexivity].
  apply Qeq_bool_iff in E. contradiction.
Qed.

Lemma np_divide_by_zero (x : option Q) (b : Q) :
  (b == 0)%Q -> np_divide x (Some b) = None.
Proof.
  intros H. unfold np_divide. destruct x; [|reflexivity].
  apply Qeq_bool_iff in H. now rewrite H.
Qed.

Lemma inject_Z_nonzero (z : Z) : z <> 0 -> ~ Qeq (inject_Z z) 0.
Proof.
  intros Hz H. apply Hz. now apply (inject_Z_injective z 0).
Qed.

(** X11.  With the default [window = -0.5] the chance term vanishes: for
    matching shapes, a non-zero [t_max] and two units that both have
    spikes, the entry [(i, j)] is the coincidence count divided by the
    smaller of the two spike counts. *)
Theorem similarity_matrix_uncorrected (U : Utils) (M : ndarray2 Z)
    (n1 n2 : list Z) (i j : nat) :
  shape M = (length n1, length n2) ->
  t_max U <> 0 -> Z.min (nth i n1 0) (nth j n2 0) <> 0 ->
  exists (S : ndarray2 (option Q)) (q : Q),
    compute_similarity_matrix U M n1 n2 (- (1 # 2)) = Ok S
    /\ item S i j = Some q
    /\ Qeq q (Qdiv (inject_Z (item M i j))
                   (inject_Z (Z.min (nth i n1 0) (nth j n2 0)))).
Proof.
  intros Hshape HT Hmin.
  destruct (similarity_matrix_item U M n1 n2 (- (1 # 2)) Hshape)
    as (S & HS & _ & Hitem).
  exists S. eexists. split; [exact HS|].
  rewrite Hitem. cbv zeta.
  pose proof (inject_Z_nonzero _ HT) as HTq.
  pose proof (inject_Z_nonzero _ Hmin) as Hmq.
  rewrite !np_divide_some by assumption. cbn [np_minus].
  rewrite np_divide_some.
  - split; [reflexivity|]. field. split; assumption.
  - intros H. apply (Q_apart_0_1). rewrite <- H. field.
    split; assumption.
Qed.

Lemma similarity_matrix_uncorrected_witness :
  exists (S : ndarray2 (option Q)) (q : Q),
    compute_similarity_matrix (mk_Utils 30000 30000)
      (mk_ndarray2 (1%nat, 1%nat) (fun _ _ => 3)) [3] [5] (- (1 # 2)) = Ok S
    /\ item S 0 0 = Some q
    /\ Qeq q (3 # 3).
Proof.
  apply (similarity_matrix_uncorrected (mk_Utils 30000 30000)
           (mk_ndarray2 (1%nat, 1%nat) (fun _ _ => 3)) [3] [5] 0 0).
  - reflexivity.
  - discriminate.
  - discriminate.
Defined.

(** X12.  For matching shapes, a non-zero [t_max], two units that both
    have spikes and an expected rate different from 1: when the
    coincidence count of the pair equals the smaller of the two spike
    counts, its similarity is exactly 1, whatever the window. *)
Theorem similarity_matrix_full_overlap (U : Utils) (M : ndarray2 Z)
    (n1 n2 : list Z) (window : Q) (i j : nat) :
  shape M = (length n1, length n2) ->
  t_max U <> 0 -> Z.min (nth i n1 0) (nth j n2 0) <> 0 ->
  item M i j = Z.min (nth i n1 0) (nth j n2 0) ->
  ~ Qeq (expected_rate U n1 n2 window i j) 1 ->
  exists (S : ndarray2 (option Q)) (q : Q),
    compute_similarity_matrix U M n1 n2 window = Ok S
    /\ item S i j = Some q /\ Qeq q 1.
Proof.
  intros Hshape HT Hmin Hfull He.
  destruct (similarity_matrix_item U M n1 n2 window Hshape)
    as (S & HS & _ & Hitem).
  exists S. eexists. split; [exact HS|].
  rewrite Hitem. cbv zeta.
  pose proof (inject_Z_nonzero _ HT) as HTq.
  pose proof (inject_Z_nonzero _ Hmin) as Hmq.
  rewrite !np_divide_some by assumption. cbn [np_minus].
  fold (expected_rate U n1 n2 window i j).
  rewrite np_divide_some.
  - split; [reflexivity|]. rewrite Hfull. field.
    split; first [exact Hmq|intros H; apply He; lra].
  - intros H. apply He. lra.
Qed.

Lemma similarity_matrix_full_overlap_witness :
  exists (S : ndarray2 (option Q)) (q : Q),
    compute_similarity_matrix (mk_Utils 30000 30000)
      (mk_ndarray2 (1%nat, 1%nat) (fun _ _ => 3)) [3] [5] 2 = Ok S
    /\ item S 0 0 = Some q /\ Qeq q 1.
Proof.
  apply (similarity_matrix_full_overlap (mk_Utils 30000 30000)
           (mk_ndarray2 (1%nat, 1%nat) (fun _ _ => 3)) [3] [5] 2 0 0).
  - reflexivity.
  - discriminate.
  - discriminate.
  - reflexivity.
  - discriminate.
Defined.

Lemma np_divide_none_l (y : option Q) : np_divide None y = None.
Proof. reflexivity. Qed.

Lemma np_minus_none_r (x : option Q) : np_minus x None = None.
Proof. now destruct x. Qed.

(** X13.  For matching shapes, the entry [(i, j)] of the similarity
    matrix is not a finite number exactly when [t_max] is 0, or one of
    the two units has no spike, or the expected rate is exactly 1. *)
Theorem similarity_matrix_non_finite (U : Utils) (M : ndarray2 Z)
    (n1 n2 : list Z) (window : Q) (i j : nat) :
  shape M = (length n1, length n2) ->
  exists S : ndarray2 (option Q),
    compute_similarity_matrix U M n1 n2 window = Ok S
    /\ (item S i j = None
        <-> t_max U = 0 \/ Z.min (nth i n1 0) (nth j n2 0) = 0
            \/ Qeq (expected_rate U n1 n2 window i j) 1).
Proof.
  intros Hshape.
  destruct (similarity_matrix_item U M n1 n2 window Hshape)
    as (S & HS & _ & Hitem).
  exists S. split; [exact HS|].
  rewrite Hitem. cbv zeta.
  destruct (Z.eq_dec (t_max U) 0) as [HT|HT].
  { split; [auto|intros _].
    rewrite HT. rewrite (np_divide_by_zero _ (inject_Z 0)) by reflexivity.
    rewrite np_divide_none_l, np_minus_none_r. reflexivity. }
  destruct (Z.eq_dec (Z.min (nth i n1 0) (nth j n2 0)) 0) as [Hmin|Hmin].
  { split; [auto|intros _].
    rewrite Hmin. rewrite !(np_divide_by_zero _ (inject_Z 0)) by reflexivity.
    reflexivity. }
  pose proof (inject_Z_nonzero _ HT) as HTq.
  pose proof (inject_Z_nonzero _ Hmin) as Hmq.
  rewrite !np_divide_some by assumption. cbn [np_minus].
  fold (expected_rate U n1 n2 window i j).
  destruct (Qeq_dec (expected_rate U n1 n2 window i j) 1) as [He|He].
  - split; [auto|intros _].
    apply np_divide_by_zero. rewrite He. reflexivity.
  - rewrite np_divide_some by (intros H; apply He; lra).
    split; [discriminate|].
    intros [H|[H|H]]; contradiction.
Qed.

Lemma similarity_matrix_non_finite_witness :
  exists S : ndarray2 (option Q),
    compute_similarity_matrix (mk_Utils 30000 30000)
      (mk_ndarray2 (1%nat, 1%nat) (fun _ _ => 0)) [0] [5] 2 = Ok S
    /\ item S 0 0 = None.
Proof.
  destruct (similarity_matrix_non_finite (mk_Utils 30000 30000)
              (mk_ndarray2 (1%nat, 1%nat) (fun _ _ => 0)) [0] [5] 2 0 0
              eq_refl) as (S & HS & Hnone).
  exists S. split; [exact HS|].
  apply Hnone. right. left. reflexivity.
Defined.

(* ================================================================= *)
(** ** [_gaussian_kernel] *)

Section GaussianKernel.

Variables sigma truncate : R.
Hypothesis sigma_nonzero : sigma <> 0%R.

Lemma kernel_term_before (t e : R) :
  (e < t - truncate * sigma)%R -> kernel_term sigma truncate t e = 0%R.
Proof.
  intros H. unfold kernel_term.
  destruct (Rlt_dec e (t - truncate * sigma)); [reflexivity|contradiction].
Qed.

Lemma kernel_term_after (t e : R) :
  (e > t + truncate * sigma)%R -> kernel_term sigma truncate t e = 0%R.
Proof.
  intros H. unfold kernel_term.
  destruct (Rlt_dec e (t - truncate * sigma)); [reflexivity|].
  destruct (Rgt_dec e (t + truncate * sigma)); [reflexivity|contradiction].
Qed.

Lemma kernel_sum_zero (t : R) (es : list R) :
  Forall (fun e => kernel_term sigma truncate t e = 0%R) es ->
  kernel_sum es sigma truncate t = 0%R.
Proof.
  unfold kernel_sum, sum_R.
  induction 1 as [|e es He _ IH]; cbn [map fold_right].
  - reflexivity.
  - rewrite He, IH. lra.
Qed.

Lemma kernel_sum_app (t : R) (es1 es2 : list R) :
  kernel_sum (es1 ++ es2) sigma truncate t
  = (kernel_sum es1 sigma truncate t + kernel_sum es2 sigma truncate t)%R.
Proof.
  unfold kernel_sum, sum_R. induction es1 as [|e es1 IH]; cbn [app map fold_right].
  - lra.
  - rewrite IH. lra.
Qed.

(** One axis point: on ascending events the row takes the kernel of
    every event, and the events it skips for good lie before the window. *)
Lemma kernel_row_all (es : list R) (t : R) (start_j : nat) (h : R) :
  StronglySorted Rle es ->
  exists k : nat,
    kernel_row es t sigma truncate start_j (Some h)
    = ((start_j + k)%nat, Some (h + kernel_sum es sigma truncate t)%R)
    /\ Forall (fun e => e < t - truncate * sigma)%R (firstn k es).
Proof.
  intros Hsorted. revert start_j h.
  induction Hsorted as [|e es Hs IH Hle]; intros start_j h.
  - exists 0%nat. cbn. rewrite Nat.add_0_r. split; [|constructor].
    f_equal. f_equal. unfold kernel_sum, sum_R. cbn. lra.
  - cbn [kernel_row].
    assert (Hsum : kernel_sum (e :: es) sigma truncate t
                   = (kernel_term sigma truncate t e
                      + kernel_sum es sigma truncate t)%R)
      by reflexivity.
    destruct (Rlt_dec e (t - truncate * sigma)) as [Hlt|Hnlt].
    + destruct (IH (S start_j) h) as (k & Hk & Hskip).
      exists (S k). rewrite Hk. split.
      * rewrite Hsum, kernel_term_before by exact Hlt.
        f_equal; [lia|f_equal; lra].
      * cbn [firstn]. constructor; assumption.
    + destruct (Rgt_dec e (t + truncate * sigma)) as [Hgt|Hngt].
      * exists 0%nat. rewrite Nat.add_0_r. split; [|constructor].
        rewrite kernel_sum_zero; [f_equal; f_equal; lra|].
        constructor.
        -- now apply kernel_term_after.
        -- eapply Forall_impl; [|exact Hle]. cbv beta.
           intros e' He'. apply kernel_term_after. lra.
      * unfold kernel_exp.
        destruct (Req_dec_T sigma 0) as [H0|_]; [contradiction|].
        cbn [np_plusR].
        destruct (IH start_j (h + exp (- (1 / 2) * ((e - t) / sigma) ^ 2))%R)
          as (k & Hk & Hskip).
        assert (Hk0 : k = 0%nat).
        { destruct k as [|k]; [reflexivity|]. exfalso.
          destruct es as [|e' es'].
          - cbn [kernel_row] in Hk. injection Hk as Hk _. lia.
          - cbn [firstn] in Hskip. inversion Hskip; subst.
            inversion Hle; subst. lra. }
        subst k. exists 0%nat. rewrite Hk. split; [|constructor].
        rewrite Hsum. unfold kernel_term at 1.
        destruct (Rlt_dec e (t - truncate * sigma)); [contradiction|].
        destruct (Rgt_dec e (t + truncate * sigma)); [contradiction|].
        f_equal. f_equal. lra.
Qed.

(** The axis points in index order: on an ascending axis the events left
    behind lie before the window of every later axis point. *)
Lemma kernel_rows_from (events pre suf : list R) (start_j : nat) :
  StronglySorted Rle events -> StronglySorted Rle suf ->
  Forall (fun e => Forall (fun t => e < t - truncate * sigma)%R suf)
         (firstn start_j events) ->
  kernel_rows events (pre ++ suf) sigma truncate
    (seq (length pre) (length suf)) start_j
  = map (fun t => Some (kernel_sum events sigma truncate t)) suf.
Proof.
  intros Hev Hax. revert pre start_j.
  induction Hax as [|t suf Hs IH Hle]; intros pre start_j Hleft.
  - reflexivity.
  - cbn [length seq kernel_rows map].
    rewrite app_nth2 by lia. rewrite Nat.sub_diag. cbn [nth].
    destruct (kernel_row_all (skipn start_j events) t start_j 0)
      as (k & Hk & Hskip).
    { apply StronglySorted_skipn. exact Hev. }
    rewrite Hk. cbn [fst snd].
    specialize (IH (pre ++ [t]) (start_j + k)%nat).
    replace (length (pre ++ [t])) with (S (length pre)) in IH
      by (rewrite length_app; simpl; lia).
    rewrite <- app_assoc in IH. cbn [app] in IH.
    rewrite IH.
    + f_equal. f_equal.
      rewrite <- (firstn_skipn start_j events) at 2.
      rewrite kernel_sum_app.
      rewrite (kernel_sum_zero t (firstn start_j events)); [lra|].
      eapply Forall_impl; [|exact Hleft]. cbv beta.
      intros e He. inversion He; subst. now apply kernel_term_before.
    + rewrite firstn_plus. apply Forall_app. split.
      * eapply Forall_impl; [|exact Hleft]. cbv beta.
        intros e He. inversion He; assumption.
      * eapply Forall_impl; [|exact Hskip]. cbv beta.
        intros e He.
        eapply Forall_impl; [|exact Hle]. cbv beta. intros t' Ht'. lra.
Qed.

Lemma gaussian_kernel_sorted (events t_axis : list R) :
  StronglySorted Rle events -> StronglySorted Rle t_axis ->
  _gaussian_kernel events t_axis sigma truncate
  = Ok (kernel_density events t_axis sigma truncate).
Proof.
  intros Hev Hax. unfold _gaussian_kernel, range. rewrite Nat.sub_0_r.
  pose proof (kernel_rows_from events [] t_axis 0 Hev Hax) as Hrows.
  cbn [app length] in Hrows. cbv zeta. rewrite Hrows by constructor.
  unfold kernel_density. rewrite map_map. f_equal.
  apply map_ext. intros t. unfold np_divide_item, np_divideR.
  pose proof sqrt_2PI_pos as Hpi.
  destruct (Req_dec_T (sigma * sqrt (2 * PI)) 0) as [H0|_]; [|reflexivity].
  exfalso. apply Rmult_integral in H0. destruct H0; [contradiction|lra].
Qed.

End GaussianKernel.

Lemma Sorted_Rle_strong (l : list R) : Sorted Rle l -> StronglySorted Rle l.
Proof.
  apply Sorted_StronglySorted. intros a b c. apply Rle_trans.
Qed.

(** X14.  For a non-zero [sigma], ascending events and an ascending time
    axis, [_gaussian_kernel] returns one density per axis point: the sum
    of [exp(-0.5*((e - t)/sigma)^2)] over every event [e] with
    [t - truncate*sigma <= e <= t + truncate*sigma], divided by
    [sigma*sqrt(2*pi)].  The moving lower bound loses no event. *)
Theorem gaussian_kernel_all_events (events t_axis : list R)
    (sigma truncate : R) :
  sigma <> 0%R -> Sorted Rle events -> Sorted Rle t_axis ->
  _gaussian_kernel events t_axis sigma truncate
  = Ok (kernel_density events t_axis sigma truncate).
Proof.
  intros Hs He Ht.
  apply gaussian_kernel_sorted; auto using Sorted_Rle_strong.
Qed.

Lemma gaussian_kernel_all_events_witness :
  _gaussian_kernel [1; 2; 3]%R [0; 2; 4]%R 1 5
  = Ok (kernel_density [1; 2; 3]%R [0; 2; 4]%R 1 5).
Proof.
  apply (gaussian_kernel_all_events [1; 2; 3]%R [0; 2; 4]%R 1 5).
  - lra.
  - repeat constructor; lra.
  - repeat constructor; lra.
Defined.

(* ================================================================= *)
(** ** [gaussian_histogram] on unordered events *)

Lemma sort_insert_perm (x : R) (a : list R) :
  Permutation (sort_insert x a) (x :: a).
Proof.
  induction a as [|y a IH]; cbn [sort_insert].
  - apply Permutation_refl.
  - destruct (Rle_dec x y).
    + apply Permutation_refl.
    + apply perm_trans with (y :: x :: a).
      * apply perm_skip. exact IH.
      * apply perm_swap.
Qed.

Lemma np_sort_perm (a : list R) : Permutation (np_sort a) a.
Proof.
  unfold np_sort. induction a as [|x a IH]; cbn [fold_right].
  - apply Permutation_refl.
  - apply perm_trans with (x :: fold_right sort_insert [] a).
    + apply sort_insert_perm.
    + apply perm_skip. exact IH.
Qed.

Lemma sort_insert_sorted (x : R) (a : list R) :
  StronglySorted Rle a -> StronglySorted Rle (sort_insert x a).
Proof.
  induction 1 as [|y a Hs IH Hle]; cbn [sort_insert].
  - repeat constructor.
  - destruct (Rle_dec x y) as [Hxy|Hxy].
    + constructor; [constructor; assumption|].
      constructor; [exact Hxy|].
      eapply Forall_impl; [|exact Hle]. cbv beta. intros; lra.
    + constructor; [exact IH|].
      apply (Permutation_Forall (Permutation_sym (sort_insert_perm x a))).
      constructor; [lra|exact Hle].
Qed.

Lemma np_sort_sorted (a : list R) : StronglySorted Rle (np_sort a).
Proof.
  unfold np_sort. induction a as [|x a IH]; cbn [fold_right].
  - constructor.
  - apply sort_insert_sorted. exact IH.
Qed.

Lemma sum_R_perm (l l' : list R) : Permutation l l' -> sum_R l = sum_R l'.
Proof.
  unfold sum_R.
  induction 1 as [|x l l' _ IH|x y l|l l' l'' _ IH1 _ IH2]; cbn [fold_right].
  - reflexivity.
  - now rewrite IH.
  - lra.
  - now rewrite IH1.
Qed.

Lemma kernel_sum_perm (es es' : list R) (sigma truncate t : R) :
  Permutation es es' ->
  kernel_sum es sigma truncate t = kernel_sum es' sigma truncate t.
Proof.
  intros H. unfold kernel_sum. apply sum_R_perm. now apply Permutation_map.
Qed.

Lemma kernel_density_perm (es es' t_axis : list R) (sigma truncate : R) :
  Permutation es es' ->
  kernel_density es t_axis sigma truncate
  = kernel_density es' t_axis sigma truncate.
Proof.
  intros H. unfold kernel_density. apply map_ext. intros t.
  now rewrite (kernel_sum_perm es es' sigma truncate t H).
Qed.

(** X15.  Without [margin_reflect], for a non-zero [sigma] and an
    ascending time axis, [gaussian_histogram] gives at every axis point
    [t] the sum of the Gaussian kernels of all the events within
    [truncate*sigma] of [t], divided by [sigma*sqrt(2*pi)], whatever the
    order of the events. *)
Theorem gaussian_histogram_density (events t_axis : list R)
    (sigma truncate : R) :
  sigma <> 0%R -> Sorted Rle t_axis ->
  gaussian_histogram events t_axis sigma truncate false
  = Ok (kernel_density events t_axis sigma truncate).
Proof.
  intros Hs Ht. unfold gaussian_histogram. cbn [bind].
  rewrite gaussian_kernel_sorted.
  - f_equal. apply kernel_density_perm. apply np_sort_perm.
  - exact Hs.
  - apply np_sort_sorted.
  - apply Sorted_Rle_strong. exact Ht.
Qed.

Lemma gaussian_histogram_density_witness :
  gaussian_histogram [3; 1; 2]%R [0; 2; 4]%R 1 5 false
  = Ok (kernel_density [3; 1; 2]%R [0; 2; 4]%R 1 5).
Proof.
  apply (gaussian_histogram_density [3; 1; 2]%R [0; 2; 4]%R 1 5).
  - lra.
  - repeat constructor; lra.
Defined.

Lemma kernel_rows_no_event (t_axis : list R) (sigma truncate : R)
    (rest : list nat) (start_j : nat) :
  kernel_rows [] t_axis sigma truncate rest start_j
  = map (fun _ => Some 0%R) rest.
Proof.
  revert start_j. induction rest as [|i rest IH]; intros start_j.
  - reflexivity.
  - cbn [kernel_rows map]. rewrite skipn_nil. cbn [kernel_row fst snd].
    rewrite IH. reflexivity.
Qed.

Lemma np_sort_nonempty (a : list R) : a <> [] -> np_sort a <> [].
Proof.
  intros Hne H. apply Hne.
  apply Permutation_nil. rewrite <- H. apply np_sort_perm.
Qed.

(** X16.  With no event at all, [gaussian_histogram] raises [ValueError]
    when [margin_reflect] is set (there is no smallest event) and
    otherwise returns a density of 0 at every axis point (for a
    non-zero [sigma]); with events, [margin_reflect] and an empty time
    axis it raises [IndexError]. *)
Theorem gaussian_histogram_empty_inputs :
  (forall (t_axis : list R) (sigma truncate : R),
      gaussian_histogram [] t_axis sigma truncate true = Raise ValueError)
  /\ (forall (t_axis : list R) (sigma truncate : R),
        sigma <> 0%R ->
        gaussian_histogram [] t_axis sigma truncate false
        = Ok (map (fun _ => Some 0%R) t_axis))
  /\ (forall (events : list R) (sigma truncate : R),
        events <> [] ->
        gaussian_histogram events [] sigma truncate true = Raise IndexError).
Proof.
  split; [|split].
  - reflexivity.
  - intros t_axis sigma truncate Hs.
    unfold gaussian_histogram, _gaussian_kernel. cbn [np_sort fold_right bind].
    cbv zeta. rewrite kernel_rows_no_event. f_equal.
    unfold range. rewrite Nat.sub_0_r, map_map. cbn [np_divide_item].
    pose proof sqrt_2PI_pos as Hpi.
    assert (Hitem : np_divideR 0 (sigma * sqrt (2 * PI)) = Some 0%R).
    { unfold np_divideR.
      destruct (Req_dec_T (sigma * sqrt (2 * PI)) 0) as [H0|_].
      - exfalso. apply Rmult_integral in H0. destruct H0; [contradiction|lra].
      - f_equal. unfold Rdiv. apply Rmult_0_l. }
    rewrite Hitem. clear.
    generalize 0%nat. induction t_axis as [|t t_axis IH]; intros s.
    + reflexivity.
    + cbn [length seq map]. f_equal. apply IH.
  - intros events sigma truncate Hne. unfold gaussian_histogram.
    pose proof (np_sort_nonempty events Hne) as Hsorted.
    destruct (np_sort events) as [|x sorted]; [contradiction|].
    reflexivity.
Qed.

Lemma gaussian_histogram_empty_inputs_witness :
  gaussian_histogram [] [0; 1]%R 1 5 false = Ok [Some 0%R; Some 0%R]
  /\ gaussian_histogram [2]%R [] 1 5 true = Raise IndexError.
Proof.
  destruct gaussian_histogram_empty_inputs as (_ & Hzero & Hindex).
  split.
  - apply (Hzero [0; 1]%R 1%R 5%R). lra.
  - apply (Hindex [2]%R 1%R 5%R). discriminate.
Defined.

(* ================================================================= *)
(** ** [gaussian_histogram] with [margin_reflect] *)

Lemma Rleb_true (x y : R) : Rleb x y = true <-> (x <= y)%R.
Proof.
  unfold Rleb. destruct (Rle_dec x y); split; auto; discriminate.
Qed.

Lemma Rleb_false (x y : R) : Rleb x y = false <-> (y < x)%R.
Proof.
  unfold Rleb. destruct (Rle_dec x y); split; try discriminate; auto; lra.
Qed.

Lemma fold_min_spec (a : list R) (x : R) :
  (fold_left Rmin a x <= x)%R
  /\ Forall (Rle (fold_left Rmin a x)) a
  /\ In (fold_left Rmin a x) (x :: a).
Proof.
  revert x. induction a as [|y a IH]; intros x; cbn [fold_left].
  - split; [lra|]. split; [constructor|now left].
  - destruct (IH (Rmin x y)) as (H1 & H2 & H3).
    pose proof (Rmin_l x y). pose proof (Rmin_r x y).
    split; [lra|]. split.
    + constructor; [lra|exact H2].
    + destruct H3 as [H3|H3].
      * rewrite <- H3. unfold Rmin. destruct (Rle_dec x y); [now left|right; now left].
      * right. right. exact H3.
Qed.

Lemma fold_max_spec (a : list R) (x : R) :
  (x <= fold_left Rmax a x)%R
  /\ Forall (fun e => e <= fold_left Rmax a x)%R a
  /\ In (fold_left Rmax a x) (x :: a).
Proof.
  revert x. induction a as [|y a IH]; intros x; cbn [fold_left].
  - split; [lra|]. split; [constructor|now left].
  - destruct (IH (Rmax x y)) as (H1 & H2 & H3).
    pose proof (Rmax_l x y). pose proof (Rmax_r x y).
    split; [lra|]. split.
    + constructor; [lra|exact H2].
    + destruct H3 as [H3|H3].
      * rewrite <- H3. unfold Rmax. destruct (Rle_dec x y); [right; now left|now left].
      * right. right. exact H3.
Qed.

Lemma np_min_spec (a : list R) :
  a <> [] ->
  exists m, np_min a = Ok m /\ Forall (Rle m) a /\ In m a.
Proof.
  intros Hne. destruct a as [|x a]; [contradiction|].
  exists (fold_left Rmin a x). split; [reflexivity|].
  destruct (fold_min_spec a x) as (H1 & H2 & H3).
  split; [constructor; assumption|exact H3].
Qed.

Lemma np_max_spec (a : list R) :
  a <> [] ->
  exists m, np_max a = Ok m /\ Forall (fun e => e <= m)%R a /\ In m a.
Proof.
  intros Hne. destruct a as [|x a]; [contradiction|].
  exists (fold_left Rmax a x). split; [reflexivity|].
  destruct (fold_max_spec a x) as (H1 & H2 & H3).
  split; [constructor; assumption|exact H3].
Qed.

Lemma last_item_last (a : list R) : a <> [] -> last_item a = Ok (last a 0%R).
Proof.
  intros Hne. unfold last_item.
  rewrite (app_removelast_last 0%R Hne) at 1.
  rewrite rev_app_distr. reflexivity.
Qed.

Lemma first_item_hd (a : list R) : a <> [] -> first_item a = Ok (hd 0%R a).
Proof. intros Hne. destruct a; [contradiction|reflexivity]. Qed.

Lemma searchsorted_right_filter (a : list R) (v : R) :
  StronglySorted Rle a ->
  firstn (searchsorted_right a v) a = filter (fun e => Rleb e v) a.
Proof.
  induction 1 as [|x a Hs IH Hle]; cbn [searchsorted_right filter].
  - reflexivity.
  - unfold Rleb at 1. destruct (Rle_dec x v) as [Hx|Hx].
    + cbn [firstn]. now rewrite IH.
    + cbn [firstn]. symmetry.
      clear IH Hs. induction Hle as [|y a Hy _ IH]; cbn [filter].
      * reflexivity.
      * assert (E : Rleb y v = false) by (apply Rleb_false; lra).
        now rewrite E.
Qed.

Lemma searchsorted_left_filter (a : list R) (v : R) :
  StronglySorted Rle a ->
  skipn (searchsorted_left a v) a = filter (fun e => Rleb v e) a.
Proof.
  induction 1 as [|x a Hs IH Hle]; cbn [searchsorted_left filter].
  - reflexivity.
  - destruct (Rlt_dec x v) as [Hx|Hx].
    + cbn [skipn]. assert (E : Rleb v x = false) by (apply Rleb_false; lra).
      now rewrite E.
    + cbn [skipn]. assert (E : Rleb v x = true) by (apply Rleb_true; lra).
      rewrite E. f_equal.
      clear IH Hs. induction Hle as [|y a Hy _ IH]; cbn [filter].
      * reflexivity.
      * assert (E' : Rleb v y = true) by (apply Rleb_true; lra).
        now rewrite E', <- IH.
Qed.

Lemma Permutation_filter_R (f : R -> bool) (l l' : list R) :
  Permutation l l' -> Permutation (filter f l) (filter f l').
Proof.
  induction 1 as [|x l l' _ IH|x y l|l l' l'' _ IH1 _ IH2]; cbn [filter].
  - constructor.
  - destruct (f x); [now constructor|exact IH].
  - destruct (f x), (f y); try apply Permutation_refl. apply perm_swap.
  - now apply perm_trans with (filter f l').
Qed.

Lemma forallb_perm (f : R -> bool) (l l' : list R) :
  Permutation l l' -> forallb f l = forallb f l'.
Proof.
  induction 1 as [|x l l' _ IH|x y l|l l' l'' _ IH1 _ IH2]; cbn [forallb].
  - reflexivity.
  - now rewrite IH.
  - destruct (f x), (f y); reflexivity.
  - now rewrite IH1.
Qed.

Lemma firstn_In {A : Type} (l : list A) (n : nat) (x : A) :
  In x (firstn n l) -> In x l.
Proof.
  intros H. rewrite <- (firstn_skipn n l). apply in_or_app. now left.
Qed.

Lemma skipn_In {A : Type} (l : list A) (n : nat) (x : A) :
  In x (skipn n l) -> In x l.
Proof.
  intros H. rewrite <- (firstn_skipn n l). apply in_or_app. now right.
Qed.

Lemma StronglySorted_firstn {A : Type} (R : A -> A -> Prop) (l : list A)
    (n : nat) :
  StronglySorted R l -> StronglySorted R (firstn n l).
Proof.
  intros H. revert n. induction H as [|x l Hl IH Hx]; intros [|n]; cbn [firstn].
  - constructor.
  - constructor.
  - constructor.
  - constructor; [apply IH|].
    apply Forall_forall. intros y Hy. apply firstn_In in Hy.
    rewrite Forall_forall in Hx. now apply Hx.
Qed.

Lemma StronglySorted_app_R (l1 l2 : list R) :
  StronglySorted Rle l1 -> StronglySorted Rle l2 ->
  Forall (fun a => Forall (Rle a) l2) l1 ->
  StronglySorted Rle (l1 ++ l2).
Proof.
  intros H1 H2 Hcross. induction H1 as [|x l1 Hs IH Hle]; cbn [app].
  - exact H2.
  - inversion Hcross as [|? ? Hx Hrest]; subst.
    constructor; [now apply IH|].
    apply Forall_app. split; assumption.
Qed.

(** The mirror image of an ascending list, read backwards, ascends. *)
Lemma mirror_rev_sorted (c : R) (l : list R) :
  StronglySorted Rle l ->
  StronglySorted Rle (map (fun e => c - e)%R (rev l)).
Proof.
  induction 1 as [|x l Hs IH Hle]; cbn [rev map].
  - constructor.
  - rewrite map_app. cbn [map].
    apply StronglySorted_app_R; [exact IH|repeat constructor|].
    apply Forall_forall. intros a Ha.
    apply in_map_iff in Ha. destruct Ha as (e & <- & He).
    apply in_rev in He. rewrite Forall_forall in Hle.
    specialize (Hle e He). constructor; [unfold Rle in *; lra|constructor].
Qed.

Section MarginReflect.

Variables (events t_axis : list R) (sigma truncate : R).
Hypothesis sigma_nonzero : sigma <> 0%R.
Hypothesis axis_sorted : Sorted Rle t_axis.
Hypothesis events_nonempty : events <> [].
Hypothesis axis_nonempty : t_axis <> [].

Let sorted := np_sort events.
Let t_first := hd 0%R t_axis.
Let t_last := last t_axis 0%R.

Lemma sorted_in (e : R) : In e sorted <-> In e events.
Proof.
  split; intros H.
  - apply (Permutation_in e (np_sort_perm events) H).
  - apply (Permutation_in e (Permutation_sym (np_sort_perm events)) H).
Qed.

Lemma low_condition (lowest : R) :
  Forall (Rle lowest) sorted -> In lowest sorted ->
  forallb (fun e => Rleb t_first e) events
  = if Rge_dec lowest t_first then true else false.
Proof.
  intros Hlow Hin. destruct (Rge_dec lowest t_first) as [Hge|Hnge].
  - apply forallb_forall. intros e He. apply Rleb_true.
    apply sorted_in in He. rewrite Forall_forall in Hlow.
    specialize (Hlow e He). lra.
  - destruct (forallb _ events) eqn:E; [|reflexivity]. exfalso.
    rewrite forallb_forall in E. apply sorted_in in Hin.
    specialize (E lowest Hin). apply Rleb_true in E. lra.
Qed.

Lemma high_condition (highest : R) :
  Forall (fun e => e <= highest)%R sorted -> In highest sorted ->
  forallb (fun e => Rleb e t_last) events
  = if Rle_dec highest t_last then true else false.
Proof.
  intros Hhigh Hin. destruct (Rle_dec highest t_last) as [Hle|Hnle].
  - apply forallb_forall. intros e He. apply Rleb_true.
    apply sorted_in in He. rewrite Forall_forall in Hhigh.
    specialize (Hhigh e He). lra.
  - destruct (forallb _ events) eqn:E; [|reflexivity]. exfalso.
    rewrite forallb_forall in E. apply sorted_in in Hin.
    specialize (E highest Hin). apply Rleb_true in E. lra.
Qed.

Lemma gaussian_histogram_reflected_sorted :
  gaussian_histogram events t_axis sigma truncate true
  = Ok (kernel_density
          (mirrored_low events t_first sigma truncate
           ++ events ++ mirrored_high events t_last sigma truncate)
          t_axis sigma truncate).
Proof.
  unfold gaussian_histogram. fold sorted.
  pose proof (np_sort_sorted events) as Hsorted. fold sorted in Hsorted.
  assert (Hne : sorted <> []) by (apply np_sort_nonempty; exact events_nonempty).
  destruct (np_min_spec sorted Hne) as (lowest & Hmin & Hlow & Hlin).
  destruct (np_max_spec sorted Hne) as (highest & Hmax & Hhigh & Hhin).
  rewrite Hmin, (first_item_hd t_axis axis_nonempty).
  rewrite Hmax, (last_item_last t_axis axis_nonempty).
  cbn [bind]. fold t_first. fold t_last.
  assert (Hlh : (lowest <= highest)%R).
  { rewrite Forall_forall in Hlow. specialize (Hlow highest Hhin).
    exact Hlow. }
  set (low := if Rge_dec lowest t_first then _ else []).
  set (high := if Rle_dec highest t_last then _ else []).
  assert (Hlow_sorted : StronglySorted Rle low
                        /\ Forall (fun a => a <= lowest)%R low).
  { unfold low. destruct (Rge_dec lowest t_first) as [Hge|_].
    - split; [apply mirror_rev_sorted; apply StronglySorted_firstn; exact Hsorted|].
      apply Forall_forall. intros a Ha.
      apply in_map_iff in Ha. destruct Ha as (e & <- & He).
      apply in_rev, firstn_In in He.
      rewrite Forall_forall in Hlow. specialize (Hlow e He).
      unfold Rle in *. lra.
    - split; constructor. }
  assert (Hhigh_sorted : StronglySorted Rle high
                         /\ Forall (fun b => highest <= b)%R high).
  { unfold high. destruct (Rle_dec highest t_last) as [Hle|_].
    - split; [apply mirror_rev_sorted; apply StronglySorted_skipn; exact Hsorted|].
      apply Forall_forall. intros b Hb.
      apply in_map_iff in Hb. destruct Hb as (e & <- & He).
      apply in_rev, skipn_In in He.
      rewrite Forall_forall in Hhigh. specialize (Hhigh e He). lra.
    - split; constructor. }
  destruct Hlow_sorted as [HL1 HL2]. destruct Hhigh_sorted as [HH1 HH2].
  rewrite gaussian_kernel_sorted.
  - f_equal. apply kernel_density_perm.
    apply Permutation_app; [|apply Permutation_app].
    + unfold low, mirrored_low.
      rewrite (low_condition lowest Hlow Hlin).
      destruct (Rge_dec lowest t_first); [|apply Permutation_refl].
      apply Permutation_map.
      apply perm_trans with (firstn (searchsorted_right sorted
                                       (t_first + truncate * sigma)) sorted).
      * apply Permutation_sym, Permutation_rev.
      * rewrite searchsorted_right_filter by exact Hsorted.
        apply Permutation_filter_R, np_sort_perm.
    + apply np_sort_perm.
    + unfold high, mirrored_high.
      rewrite (high_condition highest Hhigh Hhin).
      destruct (Rle_dec highest t_last); [|apply Permutation_refl].
      apply Permutation_map.
      apply perm_trans with (skipn (searchsorted_left sorted
                                      (t_last - truncate * sigma)) sorted).
      * apply Permutation_sym, Permutation_rev.
      * rewrite searchsorted_left_filter by exact Hsorted.
        apply Permutation_filter_R, np_sort_perm.
  - exact sigma_nonzero.
  - apply StronglySorted_app_R; [exact HL1| |].
    + apply StronglySorted_app_R; [exact Hsorted|exact HH1|].
      apply Forall_forall. intros e He.
      rewrite Forall_forall in Hhigh. specialize (Hhigh e He).
      eapply Forall_impl; [|exact HH2]. cbv beta. intros b Hb.
      unfold Rle in *. lra.
    + eapply Forall_impl; [|exact HL2]. cbv beta. intros a Ha.
      apply Forall_app. split.
      * eapply Forall_impl; [|exact Hlow]. cbv beta. intros e He.
        unfold Rle in *. lra.
      * eapply Forall_impl; [|exact HH2]. cbv beta. intros b Hb.
        unfold Rle in *. lra.
  - apply Sorted_Rle_strong. exact axis_sorted.
Qed.

End MarginReflect.

(** X17.  With [margin_reflect], for a non-zero [sigma], an ascending
    non-empty time axis and at least one event, [gaussian_histogram]
    gives the kernel density of the events together with their mirror
    images: across the first axis point, the events within
    [truncate*sigma] of it, only when no event lies before it; across
    the last axis point likewise, only when no event lies after it.
    The array it hands to [_gaussian_kernel] is ascending, so no event
    is lost. *)
Theorem gaussian_histogram_reflected (events t_axis : list R)
    (sigma truncate : R) :
  sigma <> 0%R -> Sorted Rle t_axis -> events <> [] -> t_axis <> [] ->
  gaussian_histogram events t_axis sigma truncate true
  = Ok (kernel_density
          (mirrored_low events (hd 0%R t_axis) sigma truncate
           ++ events
           ++ mirrored_high events (last t_axis 0%R) sigma truncate)
          t_axis sigma truncate).
Proof. apply gaussian_histogram_reflected_sorted. Qed.

Lemma gaussian_histogram_reflected_witness :
  gaussian_histogram [3; 1; 2]%R [0; 2; 4]%R 1 5 true
  = Ok (kernel_density
          (mirrored_low [3; 1; 2]%R (hd 0%R [0; 2; 4]%R) 1 5
           ++ [3; 1; 2]%R
           ++ mirrored_high [3; 1; 2]%R (last [0; 2; 4]%R 0%R) 1 5)
          [0; 2; 4]%R 1 5).
Proof.
  apply (gaussian_histogram_reflected [3; 1; 2]%R [0; 2; 4]%R 1 5).
  - lra.
  - repeat constructor; lra.
  - discriminate.
  - discriminate.
Defined.

(* ================================================================= *)
(** ** The coincidence count grows with the window *)

Lemma compute_nb_coincidence_spec (trainA trainB : list Z) (max_time : Q) :
  spike_train_ok trainA -> spike_train_ok trainB ->
  (compute_nb_coincidence trainA trainB max_time
   == spec_count_coincidences trainA trainB max_time)%Q.
Proof.
  intros HA HB. unfold compute_nb_coincidence, spec_count_coincidences.
  destruct (Qle_bool max_time 0) eqn:E; [reflexivity|].
  apply Qle_bool_false in E.
  destruct (border_probabilities_spec max_time)
    as (p_low & p_high & Hb & Hlow & Hhigh).
  rewrite Hb, coincidence_sweep_grid by assumption.
  now apply weighted_coincidence_grid.
Qed.

Lemma spec_pair_weight_nonneg (t : Q) (d : Z) :
  (0 < t)%Q -> (0 <= spec_pair_weight t d)%Q.
Proof.
  intros Ht. unfold spec_pair_weight.
  destruct (spec_p_low_bounds t Ht) as [L _].
  destruct (spec_p_high_bounds t) as [H _].
  destruct (d <? Qfloor t); [discriminate|].
  destruct (d =? Qfloor t); [exact L|].
  destruct (d =? Qceiling t); [exact H|apply Qle_refl].
Qed.

Lemma sum_Q_nonneg {A : Type} (f : A -> Q) (l : list A) :
  (forall x, (0 <= f x)%Q) -> (0 <= sum_Q (map f l))%Q.
Proof.
  intros H. induction l as [|x l IH]; cbn [map sum_Q fold_right].
  - apply Qle_refl.
  - fold (sum_Q (map f l)). specialize (H x). lra.
Qed.

(** X18.  On ascending trains of sample indices the coincidence count
    does not decrease when the window grows. *)
Theorem count_coincidences_monotone (trainA trainB : list Z) (w1 w2 : Q) :
  spike_train_ok trainA -> spike_train_ok trainB -> (w1 <= w2)%Q ->
  (compute_nb_coincidence trainA trainB w1
   <= compute_nb_coincidence trainA trainB w2)%Q.
Proof.
  intros HA HB Hle.
  rewrite !compute_nb_coincidence_spec by assumption.
  unfold spec_count_coincidences.
  destruct (Qlt_le_dec 0 w1) as [Hpos|Hneg].
  - rewrite (Qle_bool_pos w1 Hpos).
    rewrite (Qle_bool_pos w2) by lra.
    unfold sum_over_grid.
    apply (sum_Q_le
             (fun a => sum_Q (map (fun b => spec_pair_weight w1 (Z.abs (a - b)))
                                  trainB))
             (fun a => sum_Q (map (fun b => spec_pair_weight w2 (Z.abs (a - b)))
                                  trainB))).
    intros a.
    apply (sum_Q_le (fun b => spec_pair_weight w1 (Z.abs (a - b)))
                    (fun b => spec_pair_weight w2 (Z.abs (a - b)))).
    intros b. now apply spec_pair_weight_monotone.
  - apply Qle_bool_iff in Hneg. rewrite Hneg.
    destruct (Qle_bool w2 0) eqn:E; [apply Qle_refl|].
    apply Qle_bool_false in E. unfold sum_over_grid.
    apply (sum_Q_nonneg
             (fun a => sum_Q (map (fun b => spec_pair_weight w2 (Z.abs (a - b)))
                                  trainB))).
    intros a.
    apply (sum_Q_nonneg (fun b => spec_pair_weight w2 (Z.abs (a - b)))).
    intros b. now apply spec_pair_weight_nonneg.
Qed.

Lemma count_coincidences_monotone_witness :
  spike_train_ok [0; 2] /\ spike_train_ok [1; 5]
  /\ Qle (compute_nb_coincidence [0; 2] [1; 5] (1 # 2))
         (compute_nb_coincidence [0; 2] [1; 5] (3 # 2)).
Proof.
  assert (HA : spike_train_ok [0; 2])
    by (split; repeat constructor; unfold sample_index; lia).
  assert (HB : spike_train_ok [1; 5])
    by (split; repeat constructor; unfold sample_index; lia).
  split; [exact HA|]. split; [exact HB|].
  apply (count_coincidences_monotone [0; 2] [1; 5] (1 # 2) (3 # 2) HA HB).
  discriminate.
Defined.

(* ================================================================= *)
(** ** The fractional count against the hard count *)

Lemma single_unit_ok (train : list Z) :
  spike_train_ok train -> spike_vector_ok (single_unit train).
Proof.
  intros Hok. unfold spike_vector_ok, single_unit. rewrite !map_map.
  cbn [fst snd]. rewrite map_id. split; [exact Hok|].
  apply Forall_forall. intros l Hl.
  apply in_map_iff in Hl. destruct Hl as (t & <- & _). lia.
Qed.

Lemma doubled_add (c d : tally) :
  doubled (tally_add c d) = doubled c + doubled d.
Proof. unfold doubled, tally_add. cbn [n_plain n_high]. lia. Qed.

Lemma doubled_sum {A : Type} (f : A -> tally) (l : list A) :
  doubled (tally_sum (map f l)) = sum_Z (map (fun x => doubled (f x)) l).
Proof.
  induction l as [|x l IH]; cbn [map tally_sum sum_Z fold_right].
  - reflexivity.
  - fold (tally_sum (map f l)).
    fold (sum_Z (map (fun x => doubled (f x)) l)).
    rewrite doubled_add, IH. reflexivity.
Qed.

Lemma n_low_sum {A : Type} (f : A -> tally) (l : list A) :
  (forall x, n_low (f x) = 0) -> n_low (tally_sum (map f l)) = 0.
Proof.
  intros H. induction l as [|x l IH]; cbn [map tally_sum fold_right].
  - reflexivity.
  - fold (tally_sum (map f l)). unfold tally_add. cbn [n_low].
    rewrite H, IH. reflexivity.
Qed.

Lemma coincidence_class_integer (w d : Z) :
  1 <= w ->
  n_low (coincidence_class w w d) = 0
  /\ doubled (coincidence_class w w d)
     = (if Z.abs d <=? w then 1 else 0) + (if Z.abs d <=? w - 1 then 1 else 0).
Proof.
  intros Hw. unfold coincidence_class, doubled.
  destruct (Z.gtb_spec d w), (Z.ltb_spec d (- w)),
    (Z.leb_spec (Z.abs d) w), (Z.leb_spec (Z.abs d) (w - 1)); try lia;
    try (split; reflexivity);
    destruct (Z.eqb_spec (Z.abs d) w); try lia; split; reflexivity.
Qed.

Lemma pair_hit_single_unit (w a b : Z) :
  pair_hit w 0 0 (a, 0) (b, 0) = if Z.abs (a - b) <=? w then 1 else 0.
Proof.
  unfold pair_hit. cbn [fst snd].
  destruct (Z.abs (a - b) <=? w); reflexivity.
Qed.

Lemma count_single_unit (w : Z) (trainA trainB : list Z) :
  count_unit_pairs w 0 0 (single_unit trainA) (single_unit trainB)
  = sum_Z (map (fun a =>
                  sum_Z (map (fun b => if Z.abs (a - b) <=? w then 1 else 0)
                             trainB))
               trainA).
Proof.
  unfold count_unit_pairs, single_unit. rewrite map_map.
  f_equal. apply map_ext. intros a. rewrite map_map.
  f_equal. apply map_ext. intros b. apply pair_hit_single_unit.
Qed.

Lemma grid_integer_window (w : Z) (trainA trainB : list Z) :
  1 <= w ->
  n_low (coincidence_grid w w trainA trainB) = 0
  /\ doubled (coincidence_grid w w trainA trainB)
     = count_unit_pairs w 0 0 (single_unit trainA) (single_unit trainB)
       + count_unit_pairs (w - 1) 0 0 (single_unit trainA) (single_unit trainB).
Proof.
  intros Hw. unfold coincidence_grid, coincidence_line. split.
  - apply n_low_sum. intros a. apply n_low_sum. intros b.
    now apply coincidence_class_integer.
  - rewrite doubled_sum, !count_single_unit.
    rewrite <- sum_Z_map_add. f_equal. apply map_ext. intros a.
    rewrite doubled_sum, <- sum_Z_map_add. f_equal. apply map_ext. intros b.
    now apply coincidence_class_integer.
Qed.

Lemma spec_p_high_integer (w : Z) : (spec_p_high (inject_Z w) == 1 # 2)%Q.
Proof. unfold spec_p_high. rewrite Qceiling_Z. ring. Qed.

(** X19.  For two non-empty ascending trains and an integer window
    [1 <= w <= 2^24] (an integer that the [float32] window of
    [compute_nb_coincidence] and the [int32] window of the matrix kernel
    both hold), twice the fractional coincidence count of
    [compute_nb_coincidence] is the hard count of
    [compute_coincidence_matrix] at [w] plus the hard count at [w - 1]:
    a pair exactly [w] samples apart counts for one half. *)
Theorem coincidence_count_between_hard_counts (trainA trainB : list Z)
    (w : Z) :
  spike_train_ok trainA -> spike_train_ok trainB ->
  trainA <> [] -> trainB <> [] -> 1 <= w <= 2 ^ 24 ->
  exists M M' : list (list Z),
    compute_coincidence_matrix_from_vector
      (single_unit trainA) (single_unit trainB) w = Ok M
    /\ compute_coincidence_matrix_from_vector
         (single_unit trainA) (single_unit trainB) (w - 1) = Ok M'
    /\ Qeq (2 * compute_nb_coincidence trainA trainB (inject_Z w))
           (inject_Z (matrix_get M 0 0 + matrix_get M' 0 0)).
Proof.
  intros HA HB HneA HneB Hw.
  assert (HneA' : single_unit trainA <> [])
    by (destruct trainA; [contradiction|discriminate]).
  assert (HneB' : single_unit trainB <> [])
    by (destruct trainB; [contradiction|discriminate]).
  destruct (coincidence_matrix_spec _ _ w (single_unit_ok _ HA)
              (single_unit_ok _ HB) HneA' HneB')
    as (_ & _ & M & _ & _ & HM & _ & Hget).
  destruct (coincidence_matrix_spec _ _ (w - 1) (single_unit_ok _ HA)
              (single_unit_ok _ HB) HneA' HneB')
    as (_ & _ & M' & _ & _ & HM' & _ & Hget').
  exists M, M'. split; [exact HM|]. split; [exact HM'|].
  rewrite (Hget 0%nat 0%nat), (Hget' 0%nat 0%nat). cbn [Z.of_nat].
  rewrite !int32_wrap_id by lia.
  unfold compute_nb_coincidence.
  assert (Hpos : (0 < inject_Z w)%Q).
  { change 0%Q with (inject_Z 0). rewrite <- Zlt_Qlt. lia. }
  rewrite (Qle_bool_pos _ Hpos).
  destruct (border_probabilities_spec (inject_Z w))
    as (p_low & p_high & Hb & _ & Hhigh).
  rewrite Hb, Qfloor_Z, Qceiling_Z, coincidence_sweep_grid by assumption.
  destruct (grid_integer_window w trainA trainB (proj1 Hw))
    as [Hlow Hdouble].
  rewrite <- Hdouble. unfold weighted, doubled.
  rewrite Hlow, Hhigh, spec_p_high_integer.
  rewrite inject_Z_plus, inject_Z_mult.
  change (inject_Z 0) with 0%Q. change (inject_Z 2) with 2%Q. ring.
Qed.

Lemma coincidence_count_between_hard_counts_witness :
  exists M M' : list (list Z),
    compute_coincidence_matrix_from_vector
      (single_unit [0; 2]) (single_unit [1; 5]) 1 = Ok M
    /\ compute_coincidence_matrix_from_vector
         (single_unit [0; 2]) (single_unit [1; 5]) (1 - 1) = Ok M'
    /\ Qeq (2 * compute_nb_coincidence [0; 2] [1; 5] (inject_Z 1))
           (inject_Z (matrix_get M 0 0 + matrix_get M' 0 0)).
Proof.
  apply (coincidence_count_between_hard_counts [0; 2] [1; 5] 1).
  - split; repeat constructor; unfold sample_index; lia.
  - split; repeat constructor; unfold sample_index; lia.
  - discriminate.
  - discriminate.
  - lia.
Defined.

(* ================================================================= *)
(** ** [filter] *)

Lemma np_broadcast_same_length {A B C : Type} (f : A -> B -> C)
    (a : list A) (b : list B) :
  length a = length b ->
  np_broadcast f a b = Ok (map (fun p => f (fst p) (snd p)) (combine a b)).
Proof.
  intros H. unfold np_broadcast.
  destruct a as [|x [|x' a]], b as [|y [|y' b]];
    try discriminate H; try reflexivity.
  rewrite H, Nat.eqb_refl. reflexivity.
Qed.

Lemma arange_length (a b : Z) : length (arange a b) = Z.to_nat (b - a).
Proof. unfold arange. now rewrite length_map, length_seq. Qed.

Lemma fftfreq_items (N : nat) : (0 < N)%nat ->
  (length (arange 0 (Z.of_nat ((N - 1) / 2 + 1))
           ++ arange (- Z.of_nat (N / 2)) 0) = N)%nat.
Proof.
  intros HN. rewrite length_app, !arange_length.
  pose proof (Nat.div_mod_eq (N - 1) 2) as H1.
  pose proof (Nat.mod_upper_bound (N - 1) 2) as H2.
  pose proof (Nat.div_mod_eq N 2) as H3.
  pose proof (Nat.mod_upper_bound N 2) as H4.
  lia.
Qed.

Lemma mask_item_not_inf (c f x : R) :
  np_mul_scalar c (norm_pdf (np_div_scalar f (Num x))) <> Inf.
Proof.
  unfold np_div_scalar.
  destruct (Req_dec_T f 0); [destruct (Req_dec_T x 0)|]; discriminate.
Qed.

(** With a non-zero cutoff the mask holds [N] finite numbers. *)
Lemma create_fft_gaussian_finite (U : Utils) (N : nat) (cutoff_freq : R) :
  (0 < Q2R (sampling_frequency U))%R -> (0 < N)%nat -> cutoff_freq <> 0%R ->
  exists g : list R,
    _create_fft_gaussian U N cutoff_freq = Ok (map Num g) /\ length g = N.
Proof.
  intros Hfs HN Hf. pose proof PI_RGT_0 as Hpi.
  unfold _create_fft_gaussian.
  set (fs := Q2R (sampling_frequency U)) in *.
  destruct (Rgt_dec cutoff_freq (fs / 8)) as [Hhigh|Hlow].
  - assert (Hfpos : (0 < cutoff_freq)%R) by lra.
    rewrite py_divR_ok by nra. cbn [bind].
    set (sigma := (fs / (2 * PI * cutoff_freq))%R).
    assert (Hsigma : (0 < sigma)%R).
    { unfold sigma. apply Rdiv_lt_0_compat; nra. }
    unfold np_fft_abs.
    destruct (Nat.eqb_spec N 0) as [H0|_]; [lia|].
    rewrite !map_map.
    rewrite (map_ext _ (fun k => Num (std_normal_pdf (IZR k / sigma) / sigma)%R)).
    2:{ intros k. unfold np_div_scalar, norm_pdf.
        destruct (Req_dec_T sigma 0) as [H0|_]; [lra|reflexivity]. }
    rewrite <- (map_map (fun k => (std_normal_pdf (IZR k / sigma) / sigma)%R) Num).
    rewrite firstn_map, finite_items_Num.
    eexists. split; [reflexivity|].
    unfold dft_abs. now rewrite length_map, length_seq.
  - rewrite py_divR_ok by lra. cbn [bind].
    unfold np_fftfreq. rewrite py_divR_ok.
    2:{ assert (0 < INR N)%R by (apply lt_0_INR; exact HN).
        assert (0 < 1 / fs)%R by (apply Rdiv_lt_0_compat; lra).
        nra. }
    cbn [bind].
    rewrite (map_ext _ (fun x => Num (std_normal_pdf (x / cutoff_freq)
                                      * sqrt (2 * PI))%R)).
    2:{ intros x. unfold np_div_scalar, norm_pdf, np_mul_scalar.
        destruct (Req_dec_T cutoff_freq 0) as [H0|_];
          [contradiction|reflexivity]. }
    rewrite <- (map_map (fun x => (std_normal_pdf (x / cutoff_freq)
                                   * sqrt (2 * PI))%R) Num).
    eexists. split; [reflexivity|].
    rewrite !length_map. now apply fftfreq_items.
Qed.

(** With the cutoff 0 the first item of the mask, at frequency 0, is
    [nan]. *)
Lemma create_fft_gaussian_zero (U : Utils) (N : nat) :
  (0 < Q2R (sampling_frequency U))%R -> (0 < N)%nat ->
  exists rest : list npfloat,
    _create_fft_gaussian U N 0 = Ok (NaN :: rest)
    /\ S (length rest) = N
    /\ Forall (fun a => a <> Inf) rest.
Proof.
  intros Hfs HN. unfold _create_fft_gaussian.
  set (fs := Q2R (sampling_frequency U)) in *.
  destruct (Rgt_dec 0 (fs / 8)) as [Hhigh|_]; [lra|].
  rewrite py_divR_ok by lra. cbn [bind].
  pose proof (fftfreq_items N HN) as Hlen.
  unfold np_fftfreq. rewrite py_divR_ok.
  2:{ assert (0 < INR N)%R by (apply lt_0_INR; exact HN).
      assert (0 < 1 / fs)%R by (apply Rdiv_lt_0_compat; lra).
      nra. }
  cbn [bind].
  destruct (arange 0 (Z.of_nat ((N - 1) / 2 + 1))) as [|k0 ks] eqn:E.
  { apply (f_equal (@length Z)) in E. rewrite arange_length in E.
    simpl in E. lia. }
  assert (Hk0 : k0 = 0).
  { unfold arange in E.
    replace (Z.to_nat (Z.of_nat ((N - 1) / 2 + 1) - 0))
      with (S ((N - 1) / 2)) in E by lia.
    cbn [seq map] in E. injection E as E _. simpl in E. lia. }
  subst k0. cbn [app map].
  eexists. split; [|split].
  - f_equal. f_equal.
    unfold np_div_scalar.
    destruct (Req_dec_T 0 0) as [_|H0]; [|contradiction].
    destruct (Req_dec_T (0 * _) 0) as [_|H0]; [reflexivity|].
    exfalso. apply H0. ring.
  - rewrite !length_map. cbn [app length] in Hlen. exact Hlen.
  - apply Forall_forall. intros a Ha.
    apply in_map_iff in Ha. destruct Ha as (x & <- & _).
    apply mask_item_not_inf.
Qed.

Lemma create_fft_gaussian_total (U : Utils) (N : nat) (cutoff_freq : R) :
  (0 < Q2R (sampling_frequency U))%R -> (0 < N)%nat ->
  exists mask : list npfloat,
    _create_fft_gaussian U N cutoff_freq = Ok mask
    /\ length mask = N
    /\ Forall (fun a => a <> Inf) mask.
Proof.
  intros Hfs HN. destruct (Req_dec_T cutoff_freq 0) as [->|Hf].
  - destruct (create_fft_gaussian_zero U N Hfs HN) as (rest & E & Hl & Hn).
    exists (NaN :: rest). split; [exact E|]. split; [exact Hl|].
    constructor; [discriminate|exact Hn].
  - destruct (create_fft_gaussian_finite U N cutoff_freq Hfs HN Hf)
      as (g & E & Hl).
    exists (map Num g). split; [exact E|]. split; [now rewrite length_map|].
    apply Forall_forall. intros a Ha.
    apply in_map_iff in Ha. destruct Ha as (x & <- & _). discriminate.
Qed.

Lemma np_fft_nonempty (data : list R) :
  data <> [] ->
  np_fft data
  = Ok (map (fun k => (dft_re data (length data) k,
                       dft_im data (length data) k))
            (seq 0 (length data))).
Proof.
  intros Hne. unfold np_fft.
  destruct (Nat.eqb_spec (length data) 0) as [H0|_]; [|reflexivity].
  destruct data; [contradiction|discriminate].
Qed.

Lemma sub_masks (low high : list R) :
  map (fun p => np_sub (fst p) (snd p)) (combine (map Num low) (map Num high))
  = map Num (mask_diff low high).
Proof.
  unfold mask_diff. revert high.
  induction low as [|x low IH]; intros [|y high]; cbn; try reflexivity.
  now rewrite IH.
Qed.

Lemma mul_masks (X : list (R * R)) (g : list R) :
  map (fun p => np_mul_complex (fst p) (snd p)) (combine X (map Num g))
  = map Some (map (fun p => (fst (fst p) * snd p, snd (fst p) * snd p)%R)
                  (combine X g)).
Proof.
  revert g. induction X as [|z X IH]; intros [|y g]; cbn; try reflexivity.
  now rewrite IH.
Qed.

Lemma finite_complex_Some (l : list (R * R)) :
  finite_complex (map Some l) = Some l.
Proof.
  unfold finite_complex. induction l as [|x l IH]; simpl.
  - reflexivity.
  - now rewrite IH.
Qed.

Lemma mask_diff_length (low high : list R) :
  length low = length high -> length (mask_diff low high) = length low.
Proof.
  intros H. unfold mask_diff. rewrite length_map, length_combine. lia.
Qed.

(** With two finite masks [filter] returns the masked signal. *)
Lemma filter_finite_masks (U : Utils) (data : list R) (band : R * R)
    (low high : list R) :
  data <> [] ->
  _create_fft_gaussian U (length data) (fst band) = Ok (map Num high) ->
  _create_fft_gaussian U (length data) (snd band) = Ok (map Num low) ->
  length high = length data -> length low = length data ->
  misc.filter U data band
  = Ok (map (fun m => Num (masked_item data (mask_diff low high) m))
            (seq 0 (length data))).
Proof.
  intros Hne Hh Hl Hlh Hll. unfold misc.filter.
  rewrite (np_fft_nonempty data Hne). cbn [bind].
  rewrite Hh, Hl. cbn [bind].
  rewrite np_broadcast_same_length by (rewrite !length_map; lia).
  rewrite sub_masks. cbn [bind].
  rewrite np_broadcast_same_length.
  2:{ rewrite !length_map, length_seq, mask_diff_length; lia. }
  rewrite mul_masks. cbn [bind].
  unfold np_ifft_real. rewrite finite_complex_Some.
  assert (Hlen : length
            (map Some
               (map (fun p => (fst (fst p) * snd p, snd (fst p) * snd p)%R)
                  (combine
                     (map (fun k => (dft_re data (length data) k,
                                     dft_im data (length data) k))
                        (seq 0 (length data)))
                     (mask_diff low high)))) = length data).
  { rewrite !length_map, length_combine, length_map, length_seq,
      mask_diff_length by lia. lia. }
  rewrite Hlen.
  destruct (Nat.eqb_spec (length data) 0) as [H0|_].
  { destruct data; [contradiction|discriminate]. }
  reflexivity.
Qed.

Lemma sum_R_zero {A : Type} (f : A -> R) (l : list A) :
  (forall x, f x = 0%R) -> sum_R (map f l) = 0%R.
Proof.
  intros H. unfold sum_R. induction l as [|x l IH]; cbn [map fold_right].
  - reflexivity.
  - rewrite H, IH. ring.
Qed.

Lemma sum_R_lin {A : Type} (a b : R) (f g : A -> R) (l : list A) :
  sum_R (map (fun k => a * f k + b * g k)%R l)
  = (a * sum_R (map f l) + b * sum_R (map g l))%R.
Proof.
  unfold sum_R. induction l as [|x l IH]; cbn [map fold_right].
  - ring.
  - rewrite IH. ring.
Qed.

Lemma lin_comb_length (a b : R) (x y : list R) :
  length x = length y -> length (lin_comb a b x y) = length x.
Proof.
  intros H. unfold lin_comb. rewrite length_map, length_combine. lia.
Qed.

Lemma lin_comb_nth (a b : R) (x y : list R) (m : nat) :
  length x = length y ->
  nth m (lin_comb a b x y) 0%R = (a * nth m x 0 + b * nth m y 0)%R.
Proof.
  unfold lin_comb. revert y m.
  induction x as [|u x IH]; intros [|v y] m H; try discriminate H.
  - destruct m; cbn; ring.
  - destruct m; cbn [combine map nth fst snd]; [reflexivity|].
    apply IH. now injection H.
Qed.

Lemma lin_comb_map {A : Type} (a b : R) (f g : A -> R) (l : list A) :
  lin_comb a b (map f l) (map g l) = map (fun m => a * f m + b * g m)%R l.
Proof.
  unfold lin_comb. induction l as [|x l IH]; cbn; [reflexivity|].
  now rewrite IH.
Qed.

Lemma dft_re_lin (a b : R) (x y : list R) (n k : nat) :
  length x = length y ->
  dft_re (lin_comb a b x y) n k = (a * dft_re x n k + b * dft_re y n k)%R.
Proof.
  intros H. unfold dft_re. rewrite <- sum_R_lin. f_equal.
  apply map_ext. intros m. rewrite lin_comb_nth by exact H. ring.
Qed.

Lemma dft_im_lin (a b : R) (x y : list R) (n k : nat) :
  length x = length y ->
  dft_im (lin_comb a b x y) n k = (a * dft_im x n k + b * dft_im y n k)%R.
Proof.
  intros H. unfold dft_im. rewrite <- sum_R_lin. f_equal.
  apply map_ext. intros m. rewrite lin_comb_nth by exact H. ring.
Qed.

(** The items of the masked transform. *)
Lemma masked_spectrum_nth (data mask : list R) (k : nat) :
  length mask = length data -> (k < length data)%nat ->
  nth k
    (map (fun p => (fst (fst p) * snd p, snd (fst p) * snd p)%R)
       (combine (map (fun k => (dft_re data (length data) k,
                                dft_im data (length data) k))
                     (seq 0 (length data)))
                mask))
    (0%R, 0%R)
  = (dft_re data (length data) k * nth k mask 0,
     dft_im data (length data) k * nth k mask 0)%R.
Proof.
  intros Hlen Hk.
  set (F := fun k => (dft_re data (length data) k,
                      dft_im data (length data) k)).
  set (G := fun p : R * R * R =>
              (fst (fst p) * snd p, snd (fst p) * snd p)%R).
  assert (Hc : length (combine (map F (seq 0 (length data))) mask)
               = length data).
  { rewrite length_combine, length_map, length_seq. lia. }
  rewrite (nth_indep _ (0%R, 0%R) (G (F 0%nat, 0%R)))
    by (rewrite length_map, Hc; exact Hk).
  rewrite map_nth, combine_nth
    by (rewrite length_map, length_seq; lia).
  rewrite map_nth, seq_nth by exact Hk. reflexivity.
Qed.

Lemma masked_item_sum (data mask : list R) (m : nat) :
  length mask = length data ->
  masked_item data mask m
  = (sum_R (map (fun k =>
                   dft_re data (length data) k * nth k mask 0
                   * cos (2 * PI * INR k * INR m / INR (length data))
                   - dft_im data (length data) k * nth k mask 0
                     * sin (2 * PI * INR k * INR m / INR (length data)))
                (seq 0 (length data)))
     / INR (length data))%R.
Proof.
  intros Hlen. unfold masked_item, idft_re. f_equal. f_equal.
  apply map_ext_in. intros k Hk. apply in_seq in Hk.
  rewrite masked_spectrum_nth by (try exact Hlen; lia). reflexivity.
Qed.

Lemma masked_item_lin (a b : R) (x y mask : list R) (m : nat) :
  length x = length y -> length mask = length x ->
  masked_item (lin_comb a b x y) mask m
  = (a * masked_item x mask m + b * masked_item y mask m)%R.
Proof.
  intros Hxy Hmask.
  rewrite !masked_item_sum
    by (rewrite ?lin_comb_length by exact Hxy; congruence).
  rewrite lin_comb_length by exact Hxy. rewrite <- Hxy.
  rewrite (map_ext _
    (fun k =>
       a * (dft_re x (length x) k * nth k mask 0
            * cos (2 * PI * INR k * INR m / INR (length x))
            - dft_im x (length x) k * nth k mask 0
              * sin (2 * PI * INR k * INR m / INR (length x)))
       + b * (dft_re y (length x) k * nth k mask 0
              * cos (2 * PI * INR k * INR m / INR (length x))
              - dft_im y (length x) k * nth k mask 0
                * sin (2 * PI * INR k * INR m / INR (length x))))%R).
  2:{ intros k. rewrite dft_re_lin, dft_im_lin by exact Hxy. ring. }
  rewrite sum_R_lin. unfold Rdiv. ring.
Qed.

Lemma mask_diff_same_nth (g : list R) (k : nat) :
  nth k (mask_diff g g) 0%R = 0%R.
Proof.
  unfold mask_diff. revert k. induction g as [|x g IH]; intros [|k]; cbn;
    try reflexivity; [ring|apply IH].
Qed.

Lemma masked_item_same (data g : list R) (m : nat) :
  length g = length data -> masked_item data (mask_diff g g) m = 0%R.
Proof.
  intros Hlen.
  rewrite masked_item_sum by (rewrite mask_diff_length; congruence).
  rewrite sum_R_zero; [unfold Rdiv; ring|].
  intros k. rewrite mask_diff_same_nth. ring.
Qed.

Lemma map_const {A B : Type} (f : A -> B) (c : B) (l : list A) :
  (forall x, f x = c) -> map f l = repeat c (length l).
Proof.
  intros H. induction l as [|x l IH]; cbn; [reflexivity|].
  now rewrite H, IH.
Qed.

Lemma np_sub_nan (a b : npfloat) : a = NaN \/ b = NaN -> np_sub a b = NaN.
Proof. intros [-> | ->]; [|destruct a]; reflexivity. Qed.

(** A [nan] at the head of the difference of the masks spreads to the
    whole output. *)
Lemma filter_nan_mask (U : Utils) (data : list R) (band : R * R)
    (l0 h0 : npfloat) (low high : list npfloat) :
  data <> [] ->
  _create_fft_gaussian U (length data) (fst band) = Ok (h0 :: high) ->
  _create_fft_gaussian U (length data) (snd band) = Ok (l0 :: low) ->
  length (h0 :: high) = length data -> length (l0 :: low) = length data ->
  np_sub l0 h0 = NaN ->
  misc.filter U data band = Ok (repeat NaN (length data)).
Proof.
  intros Hne Hh Hl Hlh Hll Hnan. unfold misc.filter.
  rewrite (np_fft_nonempty data Hne). cbn [bind].
  rewrite Hh, Hl. cbn [bind].
  rewrite np_broadcast_same_length by congruence. cbn [bind].
  rewrite np_broadcast_same_length.
  2:{ rewrite !length_map, length_seq, length_combine. lia. }
  cbn [bind]. unfold np_ifft_real.
  rewrite !length_map, length_combine, !length_map, length_seq,
    length_combine.
  replace (Nat.min (length data)
             (Nat.min (length (l0 :: low)) (length (h0 :: high))))
    with (length data) by lia.
  destruct (Nat.eqb_spec (length data) 0) as [H0|_].
  { destruct data; [contradiction|discriminate]. }
  destruct data as [|d data]; [contradiction|].
  cbn [length seq map combine fst snd finite_complex fold_right].
  rewrite Hnan. reflexivity.
Qed.

(** X20.  With a positive sampling frequency, [filter] on a
    one-dimensional signal returns, for every band (whatever the cutoffs,
    zero and negative ones included), an array with as many items as the
    signal; the only error is the [ValueError] of [np.fft.fft] on an
    empty signal. *)
Theorem filter_signal_length (U : Utils) (data : list R) (band : R * R) :
  (0 < Q2R (sampling_frequency U))%R ->
  match misc.filter U data band with
  | Ok out => data <> [] /\ length out = length data
  | Raise e => data = [] /\ e = ValueError
  end.
Proof.
  intros Hfs. destruct data as [|d data].
  - split; reflexivity.
  - set (x := d :: data).
    assert (Hne : x <> []) by discriminate.
    assert (HN : (0 < length x)%nat) by (cbn; lia).
    destruct (create_fft_gaussian_total U (length x) (fst band) Hfs HN)
      as (high & Hh & Hlh & _).
    destruct (create_fft_gaussian_total U (length x) (snd band) Hfs HN)
      as (low & Hl & Hll & _).
    unfold misc.filter.
    rewrite (np_fft_nonempty x Hne). cbn [bind].
    rewrite Hh, Hl. cbn [bind].
    rewrite np_broadcast_same_length by congruence. cbn [bind].
    rewrite np_broadcast_same_length.
    2:{ rewrite !length_map, length_seq, length_combine. lia. }
    cbn [bind]. unfold np_ifft_real.
    rewrite !length_map, length_combine, !length_map, length_seq,
      length_combine.
    replace (Nat.min (length x) (Nat.min (length low) (length high)))
      with (length x) by lia.
    destruct (Nat.eqb_spec (length x) 0) as [H0|_]; [lia|].
    destruct (finite_complex _); (split; [exact Hne|]).
    + now rewrite length_map, length_seq.
    + apply repeat_length.
Qed.

Lemma filter_signal_length_witness :
  match misc.filter (mk_Utils 30000 30000) [1; 2; 0; -1]%R (300, 6000)%R with
  | Ok out => [1; 2; 0; -1]%R <> [] /\ length out = 4%nat
  | Raise e => [1; 2; 0; -1]%R = [] /\ e = ValueError
  end.
Proof.
  apply (filter_signal_length (mk_Utils 30000 30000) [1; 2; 0; -1]%R
           (300, 6000)%R).
  simpl. lra.
Defined.

(** X21.  A band whose two cutoffs are equal (and not zero) filters
    every signal to zero: the two masks cancel. *)
Theorem filter_equal_cutoffs (U : Utils) (data : list R) (f : R) :
  (0 < Q2R (sampling_frequency U))%R -> data <> [] -> f <> 0%R ->
  misc.filter U data (f, f) = Ok (repeat (Num 0) (length data)).
Proof.
  intros Hfs Hne Hf.
  assert (HN : (0 < length data)%nat).
  { destruct data; [contradiction|cbn; lia]. }
  destruct (create_fft_gaussian_finite U (length data) f Hfs HN Hf)
    as (g & Hg & Hlen).
  rewrite (filter_finite_masks U data (f, f) g g Hne Hg Hg Hlen Hlen).
  f_equal.
  rewrite (map_const _ (Num 0)), length_seq; [reflexivity|].
  intros m. f_equal. now apply masked_item_same.
Qed.

Lemma filter_equal_cutoffs_witness :
  misc.filter (mk_Utils 30000 30000) [1; 2; 0; -1]%R (300, 300)%R
  = Ok (repeat (Num 0) 4).
Proof.
  apply (filter_equal_cutoffs (mk_Utils 30000 30000) [1; 2; 0; -1]%R 300).
  - simpl. lra.
  - discriminate.
  - lra.
Defined.

(** X22.  A cutoff equal to zero (a band [[0, f]] meant as a plain
    low-pass, for instance) makes every item of the output [nan]: the
    mask of the cutoff 0 is [nan] at frequency 0. *)
Theorem filter_zero_cutoff (U : Utils) (data : list R) (band : R * R) :
  (0 < Q2R (sampling_frequency U))%R -> data <> [] ->
  fst band = 0%R \/ snd band = 0%R ->
  misc.filter U data band = Ok (repeat NaN (length data)).
Proof.
  intros Hfs Hne Hzero.
  assert (HN : (0 < length data)%nat).
  { destruct data; [contradiction|cbn; lia]. }
  destruct (create_fft_gaussian_total U (length data) (fst band) Hfs HN)
    as (high & Hh & Hlh & _).
  destruct (create_fft_gaussian_total U (length data) (snd band) Hfs HN)
    as (low & Hl & Hll & _).
  destruct (create_fft_gaussian_zero U (length data) Hfs HN)
    as (rest & Hz & _ & _).
  destruct high as [|h0 high]; [cbn in Hlh; lia|].
  destruct low as [|l0 low]; [cbn in Hll; lia|].
  apply (filter_nan_mask U data band l0 h0 low high Hne Hh Hl Hlh Hll).
  apply np_sub_nan. destruct Hzero as [H0|H0]; rewrite H0 in *.
  - right. congruence.
  - left. congruence.
Qed.

Lemma filter_zero_cutoff_witness :
  misc.filter (mk_Utils 30000 30000) [1; 2; 0; -1]%R (0, 6000)%R
  = Ok (repeat NaN 4).
Proof.
  apply (filter_zero_cutoff (mk_Utils 30000 30000) [1; 2; 0; -1]%R
           (0, 6000)%R).
  - simpl. lra.
  - discriminate.
  - left. reflexivity.
Defined.

(** X23.  [filter] is linear in the signal: with two non-zero cutoffs,
    the filtered linear combination [a*x + b*y] of two signals of the
    same length is the same combination of the two filtered signals. *)
Theorem filter_linear (U : Utils) (x y : list R) (band : R * R) (a b : R) :
  (0 < Q2R (sampling_frequency U))%R ->
  x <> [] -> length x = length y ->
  fst band <> 0%R -> snd band <> 0%R ->
  exists fx fy : list R,
    misc.filter U x band = Ok (map Num fx)
    /\ misc.filter U y band = Ok (map Num fy)
    /\ misc.filter U (lin_comb a b x y) band
       = Ok (map Num (lin_comb a b fx fy)).
Proof.
  intros Hfs Hne Hxy Hf1 Hf2.
  assert (HN : (0 < length x)%nat).
  { destruct x; [contradiction|cbn; lia]. }
  destruct (create_fft_gaussian_finite U (length x) (fst band) Hfs HN Hf1)
    as (high & Hh & Hlh).
  destruct (create_fft_gaussian_finite U (length x) (snd band) Hfs HN Hf2)
    as (low & Hl & Hll).
  assert (Hney : y <> []).
  { destruct y; [cbn in Hxy; lia|discriminate]. }
  assert (Hlc : length (lin_comb a b x y) = length x)
    by now apply lin_comb_length.
  assert (Hnec : lin_comb a b x y <> []).
  { intros E. rewrite E in Hlc. cbn in Hlc. lia. }
  exists (map (masked_item x (mask_diff low high)) (seq 0 (length x))),
         (map (masked_item y (mask_diff low high)) (seq 0 (length x))).
  split; [|split].
  - rewrite (filter_finite_masks U x band low high Hne Hh Hl Hlh Hll).
    now rewrite map_map.
  - rewrite Hxy in Hh, Hl, Hlh, Hll.
    rewrite (filter_finite_masks U y band low high Hney Hh Hl Hlh Hll).
    now rewrite map_map, Hxy.
  - rewrite <- Hlc in Hh, Hl, Hlh, Hll.
    rewrite (filter_finite_masks U _ band low high Hnec Hh Hl Hlh Hll).
    rewrite Hlc, lin_comb_map, map_map. f_equal.
    apply map_ext. intros m. f_equal.
    apply masked_item_lin; [exact Hxy|].
    rewrite mask_diff_length; congruence.
Qed.

Lemma filter_linear_witness :
  exists fx fy : list R,
    misc.filter (mk_Utils 30000 30000) [1; 2; 0; -1]%R (300, 6000)%R
    = Ok (map Num fx)
    /\ misc.filter (mk_Utils 30000 30000) [0; 1; 1; 3]%R (300, 6000)%R
       = Ok (map Num fy)
    /\ misc.filter (mk_Utils 30000 30000)
         (lin_comb 2 (-1) [1; 2; 0; -1]%R [0; 1; 1; 3]%R) (300, 6000)%R
       = Ok (map Num (lin_comb 2 (-1) fx fy)).
Proof.
  apply (filter_linear (mk_Utils 30000 30000) [1; 2; 0; -1]%R
           [0; 1; 1; 3]%R (300, 6000)%R 2 (-1)).
  - simpl. lra.
  - discriminate.
  - reflexivity.
  - simpl. lra.
  - simpl. lra.
Defined.

(** X24.  With a positive sampling frequency and at least one sample,
    [_create_fft_gaussian] returns for every cutoff a mask of exactly [N]
    items, none of them infinite; the mask holds a [nan] exactly when
    the cutoff is 0. *)
Theorem fft_gaussian_mask_items (U : Utils) (N : nat) (cutoff_freq : R) :
  (0 < Q2R (sampling_frequency U))%R -> (0 < N)%nat ->
  exists mask : list npfloat,
    _create_fft_gaussian U N cutoff_freq = Ok mask
    /\ length mask = N
    /\ Forall (fun a => a <> Inf) mask
    /\ (In NaN mask <-> cutoff_freq = 0%R).
Proof.
  intros Hfs HN. destruct (Req_dec_T cutoff_freq 0) as [->|Hf].
  - destruct (create_fft_gaussian_zero U N Hfs HN) as (rest & E & Hl & Hn).
    exists (NaN :: rest). split; [exact E|]. split; [exact Hl|].
    split; [constructor; [discriminate|exact Hn]|].
    split; [reflexivity|]. intros _. now left.
  - destruct (create_fft_gaussian_finite U N cutoff_freq Hfs HN Hf)
      as (g & E & Hl).
    exists (map Num g). split; [exact E|]. split; [now rewrite length_map|].
    split.
    + apply Forall_forall. intros a Ha.
      apply in_map_iff in Ha. destruct Ha as (x & <- & _). discriminate.
    + split; [|contradiction].
      intros Ha. apply in_map_iff in Ha. destruct Ha as (x & Hx & _).
      discriminate.
Qed.

Lemma fft_gaussian_mask_items_witness :
  exists mask : list npfloat,
    _create_fft_gaussian (mk_Utils 30000 30000) 8 0 = Ok mask
    /\ length mask = 8%nat
    /\ Forall (fun a => a <> Inf) mask
    /\ (In NaN mask <-> 0%R = 0%R).
Proof.
  apply (fft_gaussian_mask_items (mk_Utils 30000 30000) 8 0).
  - simpl. lra.
  - lia.
Defined.

(* ================================================================= *)
(** ** [_gaussian_kernel]: a zero [sigma], and several threads *)

Lemma kernel_rows_length (events t_axis : list R) (sigma truncate : R)
    (rest : list nat) (start_j : nat) :
  length (kernel_rows events t_axis sigma truncate rest start_j) = length rest.
Proof.
  revert start_j. induction rest as [|i rest IH]; intros start_j.
  - reflexivity.
  - cbn [kernel_rows length]. now rewrite IH.
Qed.

Lemma np_divide_item_zero (h : option R) (y : R) :
  y = 0%R -> np_divide_item h y = None.
Proof.
  intros ->. destruct h as [x|]; [|reflexivity].
  cbn [np_divide_item]. unfold np_divideR.
  destruct (Req_dec_T 0 0) as [_|H]; [reflexivity|contradiction].
Qed.

Lemma map_const_length {A B : Type} (f : A -> B) (c : B) (l : list A)
    (n : nat) :
  (forall x, f x = c) -> length l = n -> map f l = repeat c n.
Proof. intros H <-. now apply map_const. Qed.

(** X25.  With [sigma = 0] the kernel raises nothing and no item of its
    result is a finite number, whatever the events, the time axis and
    [truncate]: every item is divided by [sigma*sqrt(2*pi) = 0].  The
    same holds of [gaussian_histogram] without [margin_reflect]. *)
Theorem gaussian_kernel_zero_sigma (events t_axis : list R) (truncate : R) :
  _gaussian_kernel events t_axis 0 truncate
  = Ok (repeat None (length t_axis))
  /\ gaussian_histogram events t_axis 0 truncate false
     = Ok (repeat None (length t_axis)).
Proof.
  assert (H : forall es,
             _gaussian_kernel es t_axis 0 truncate
             = Ok (repeat None (length t_axis))).
  { intros es. unfold _gaussian_kernel. cbv zeta. f_equal.
    apply map_const_length.
    - intros h. apply np_divide_item_zero. ring.
    - rewrite kernel_rows_length. unfold range.
      now rewrite length_seq, Nat.sub_0_r. }
  split; [apply H|].
  unfold gaussian_histogram. cbn [bind]. apply H.
Qed.

Lemma kernel_rows_ext (events a a' : list R) (sigma truncate : R)
    (rest : list nat) (start_j : nat) :
  (forall i, In i rest -> nth i a 0%R = nth i a' 0%R) ->
  kernel_rows events a sigma truncate rest start_j
  = kernel_rows events a' sigma truncate rest start_j.
Proof.
  revert start_j. induction rest as [|i rest IH]; intros start_j H.
  - reflexivity.
  - cbn [kernel_rows]. rewrite (H i) by now left.
    rewrite IH by (intros j Hj; apply H; now right). reflexivity.
Qed.

(** One block, with its own counter: on ascending events and axis it
    gives the kernel sums of its axis points. *)
Lemma kernel_rows_block (events t_axis : list R) (sigma truncate : R)
    (first n : nat) :
  sigma <> 0%R -> StronglySorted Rle events -> StronglySorted Rle t_axis ->
  (first + n <= length t_axis)%nat ->
  kernel_rows events t_axis sigma truncate (seq first n) 0
  = map (fun t => Some (kernel_sum events sigma truncate t))
        (firstn n (skipn first t_axis)).
Proof.
  intros Hs Hev Hax Hlen.
  set (pre := firstn first t_axis).
  set (blk := firstn n (skipn first t_axis)).
  assert (Hpre : length pre = first)
    by (unfold pre; rewrite length_firstn; lia).
  assert (Hblk : length blk = n)
    by (unfold blk; rewrite length_firstn, length_skipn; lia).
  rewrite (kernel_rows_ext events t_axis (pre ++ blk)).
  - rewrite <- Hpre at 1. rewrite <- Hblk at 1.
    apply kernel_rows_from; [exact Hs|exact Hev| |constructor].
    unfold blk. apply StronglySorted_firstn, StronglySorted_skipn. exact Hax.
  - intros i Hi. apply in_seq in Hi.
    rewrite <- (firstn_skipn first t_axis) at 1. fold pre.
    rewrite <- (firstn_skipn n (skipn first t_axis)) at 1. fold blk.
    rewrite app_assoc.
    apply app_nth1. rewrite length_app. lia.
Qed.

Lemma kernel_blocks_all (events t_axis : list R) (sigma truncate : R)
    (blocks : list nat) (first : nat) :
  sigma <> 0%R -> StronglySorted Rle events -> StronglySorted Rle t_axis ->
  (first + fold_right Nat.add 0 blocks <= length t_axis)%nat ->
  kernel_blocks events t_axis sigma truncate first blocks
  = map (fun t => Some (kernel_sum events sigma truncate t))
        (firstn (fold_right Nat.add 0%nat blocks) (skipn first t_axis)).
Proof.
  intros Hs Hev Hax. revert first.
  induction blocks as [|n blocks IH]; intros first Hlen.
  - reflexivity.
  - cbn [fold_right] in *. cbn [kernel_blocks].
    rewrite kernel_rows_block by (auto; lia).
    rewrite IH by lia.
    rewrite firstn_plus, map_app, skipn_skipn.
    now rewrite (Nat.add_comm n first).
Qed.

(** X26.  The threads of the [prange] loop do not change the result on
    ascending inputs: for a non-zero [sigma], ascending events and an
    ascending time axis, whatever the cut of the index range into
    blocks of consecutive indices, each run with its own counter from
    0, the kernel returns the same array as the run in index order with
    one counter, the kernel density of the events. *)
Theorem gaussian_kernel_any_schedule (blocks : list nat)
    (events t_axis : list R) (sigma truncate : R) :
  sigma <> 0%R -> Sorted Rle events -> Sorted Rle t_axis ->
  fold_right Nat.add 0%nat blocks = length t_axis ->
  _gaussian_kernel_threads blocks events t_axis sigma truncate
  = _gaussian_kernel events t_axis sigma truncate
  /\ _gaussian_kernel_threads blocks events t_axis sigma truncate
     = Ok (kernel_density events t_axis sigma truncate).
Proof.
  intros Hs Hev Hax Hsum.
  assert (H : _gaussian_kernel_threads blocks events t_axis sigma truncate
              = Ok (kernel_density events t_axis sigma truncate)).
  { unfold _gaussian_kernel_threads. cbv zeta.
    rewrite kernel_blocks_all
      by (auto using Sorted_Rle_strong; cbn; lia).
    rewrite Hsum. cbn [skipn]. rewrite firstn_all.
    unfold kernel_density. rewrite map_map. f_equal.
    apply map_ext. intros t. unfold np_divide_item, np_divideR.
    pose proof sqrt_2PI_pos as Hpi.
    destruct (Req_dec_T (sigma * sqrt (2 * PI)) 0) as [H0|_]; [|reflexivity].
    exfalso. apply Rmult_integral in H0. destruct H0; [contradiction|lra]. }
  split; [|exact H].
  rewrite H. symmetry.
  apply gaussian_kernel_sorted; auto using Sorted_Rle_strong.
Qed.

Lemma gaussian_kernel_any_schedule_witness :
  _gaussian_kernel_threads [2; 1]%nat [1; 2; 3]%R [0; 2; 4]%R 1 5
  = _gaussian_kernel [1; 2; 3]%R [0; 2; 4]%R 1 5
  /\ _gaussian_kernel_threads [2; 1]%nat [1; 2; 3]%R [0; 2; 4]%R 1 5
     = Ok (kernel_density [1; 2; 3]%R [0; 2; 4]%R 1 5).
Proof.
  apply (gaussian_kernel_any_schedule [2; 1]%nat [1; 2; 3]%R [0; 2; 4]%R 1 5).
  - lra.
  - repeat constructor; lra.
  - repeat constructor; lra.
  - reflexivity.
Defined.
